(** * docs-mcp-server: the greedy splitter and the document store

    A shallow embedding of [GreedySplitter.splitText] and of the parts of
    [DocumentStore] that ingest, remove and search documents, followed by
    the properties proved about them.

    JavaScript strings are modelled as [string]: a sequence of the code
    units U+0000 to U+00FF, [String.length] for [.length].  Arrays are
    lists, SQL tables lists of rows in rowid order, the [Map]s of
    [assignRanks] [gmap]s. *)

From Stdlib Require Import Ascii String QArith Lia Lqa Sorted.
From Stdlib Require Floats.
From stdpp Require Import base list gmap strings sorting.

Local Open Scope string_scope.
Local Open Scope list_scope.

(** ** JavaScript string and array helpers *)

Module JS.

Definition nul : ascii := "000"%char.
Definition newline : ascii := "010"%char.
Definition dquote : ascii := "034"%char.
Definition space : ascii := " "%char.

Definition str (c : ascii) : string := String c EmptyString.

(** [s.endsWith(suffix)] *)
Definition endsWith (s suffix : string) : bool :=
  let n := String.length s in
  let k := String.length suffix in
  if (k <=? n)%nat
  then bool_decide (String.substring (n - k) k s = suffix)
  else false.

(** [parts.join(sep)] *)
Fixpoint join (sep : string) (parts : list string) : string :=
  match parts with
  | [] => EmptyString
  | [p] => p
  | p :: ps => p +:+ sep +:+ join sep ps
  end.

(** [s.replace(/c/g, by)] for a one-character pattern *)
Fixpoint replaceAll (c : ascii) (by_ : string) (s : string) : string :=
  match s with
  | EmptyString => EmptyString
  | String a s' =>
      (if bool_decide (a = c) then by_ else str a) +:+ replaceAll c by_ s'
  end.

(** [arr.every((part, i) => part === other[i])]: an index past the end of
    [other] reads [undefined], which is never [===] to a string. *)
Fixpoint everyEqualAt (arr other : list string) : bool :=
  match arr, other with
  | [], _ => true
  | _ :: _, [] => false
  | x :: xs, y :: ys => bool_decide (x = y) && everyEqualAt xs ys
  end.

(** [[...new Set(arr)]]: first occurrences, in insertion order *)
Fixpoint uniq_go (seen : list string) (arr : list string) : list string :=
  match arr with
  | [] => []
  | x :: xs =>
      if bool_decide (x ∈ seen) then uniq_go seen xs
      else x :: uniq_go (x :: seen) xs
  end.
Definition uniq (arr : list string) : list string := uniq_go [] arr.

End JS.

(** ** GreedySplitter *)

Module GreedySplitter.

Record Section_ := mkSection { level : nat; path : list string }.

Record Chunk := mkChunk {
  types : list string;
  content : string;
  section : Section_;
}.

Definition size (c : Chunk) : nat := String.length (content c).

Definition cloneChunk (chunk : Chunk) : Chunk :=
  {| types := types chunk;
     content := content chunk;
     section := {| level := level (section chunk);
                   path := path (section chunk) |} |}.

Definition startsNewMajorSection (chunk : Chunk) : bool :=
  (level (section chunk) =? 1)%nat || (level (section chunk) =? 2)%nat.

Definition isPathIncluded (parentPath childPath : list string) : bool :=
  if (length childPath <=? length parentPath)%nat then false
  else JS.everyEqualAt parentPath childPath.

Definition isSameSection (chunk1 chunk2 : Chunk) : bool :=
  let path1 := path (section chunk1) in
  let path2 := path (section chunk2) in
  if (length path1 =? length path2)%nat && JS.everyEqualAt path1 path2
  then true
  else isPathIncluded path1 path2 || isPathIncluded path2 path1.

Fixpoint findCommonPrefix (path1 path2 : list string) : list string :=
  match path1, path2 with
  | x :: xs, y :: ys =>
      if bool_decide (x = y) then x :: findCommonPrefix xs ys else []
  | _, _ => []
  end.

Definition mergeSectionInfo (currentChunk nextChunk : Chunk) : Section_ :=
  let cs := section currentChunk in
  let ns := section nextChunk in
  let lvl := Nat.min (level cs) (level ns) in
  if (level cs =? level ns)%nat
     && (length (path cs) =? length (path ns))%nat
     && JS.everyEqualAt (path cs) (path ns)
  then cs
  else if isPathIncluded (path cs) (path ns)
  then {| path := path ns; level := lvl |}
  else if isPathIncluded (path ns) (path cs)
  then {| path := path cs; level := lvl |}
  else {| path := findCommonPrefix (path cs) (path ns); level := lvl |}.

Definition mergeTypes (currentTypes nextTypes : list string) : list string :=
  JS.uniq (currentTypes ++ nextTypes).

(** The separator the merge inserts, and its size as the loop counts it. *)
Definition separator (currentChunk : Chunk) : string :=
  if JS.endsWith (content currentChunk) (JS.str JS.newline)
  then EmptyString else JS.str JS.newline.

Definition separatorSize (currentChunk : Chunk) : nat :=
  if JS.endsWith (content currentChunk) (JS.str JS.newline) then 0 else 1.

Definition combinedSize (currentChunk nextChunk : Chunk) : nat :=
  size currentChunk + separatorSize currentChunk + size nextChunk.

(** The three assignments at the end of the loop body. *)
Definition mergeChunks (currentChunk nextChunk : Chunk) : Chunk :=
  {| content := content currentChunk +:+ separator currentChunk
                +:+ content nextChunk;
     section := mergeSectionInfo currentChunk nextChunk;
     types := mergeTypes (types currentChunk) (types nextChunk) |}.

Section Splitter.
Variables minChunkSize preferredChunkSize maxChunkSize : nat.

(** Loop state: [concatenatedChunks] and [currentChunk]. *)
Definition State : Type := list Chunk * option Chunk.

Definition step (st : State) (nextChunk : Chunk) : State :=
  let '(concatenatedChunks, currentChunk) := st in
  match currentChunk with
  | None => (concatenatedChunks, Some (cloneChunk nextChunk))
  | Some cur =>
      if (maxChunkSize <? combinedSize cur nextChunk)%nat then
        (concatenatedChunks ++ [cur], Some (cloneChunk nextChunk))
      else if (minChunkSize <=? size cur)%nat
              && startsNewMajorSection nextChunk
              && negb (isSameSection cur nextChunk) then
        (concatenatedChunks ++ [cur], Some (cloneChunk nextChunk))
      else if (preferredChunkSize <? combinedSize cur nextChunk)%nat
              && (minChunkSize <=? size cur)%nat
              && (minChunkSize <=? size nextChunk)%nat then
        (concatenatedChunks ++ [cur], Some (cloneChunk nextChunk))
      else
        (concatenatedChunks, Some (mergeChunks cur nextChunk))
  end.

Definition finish (st : State) : list Chunk :=
  match st with
  | (concatenatedChunks, Some cur) => concatenatedChunks ++ [cur]
  | (concatenatedChunks, None) => concatenatedChunks
  end.

(** [splitText], given the chunks the base splitter returned. *)
Definition splitText (initialChunks : list Chunk) : list Chunk :=
  finish (foldl step ([], None) initialChunks).

End Splitter.

(** *** Vocabulary of the size properties *)

(** [grown_from n c]: the output chunk [c] was started as a clone of the
    base chunk [n] and then grew by merges only. *)
Inductive grown_from (n : Chunk) : Chunk -> Prop :=
| grown_start : grown_from n (cloneChunk n)
| grown_merge c x : grown_from n c -> grown_from n (mergeChunks c x).

(** The merge of [a] with the base chunk [n] was refused by the hard
    limit: the combined size, separator included, exceeds the maximum. *)
Definition hard_limit_rejection (maxChunkSize : nat) (a n : Chunk) : Prop :=
  (maxChunkSize < combinedSize a n)%nat.

(** [n] opens a major section (level 1 or 2) that [a] is not part of. *)
Definition major_section_boundary (a n : Chunk) : Prop :=
  startsNewMajorSection n = true /\ isSameSection a n = false.

(** Every pair of neighbours of [l] satisfies [R]. *)
Fixpoint neighbours (R : Chunk -> Chunk -> Prop) (l : list Chunk) : Prop :=
  match l with
  | a :: ((b :: _) as tl) => R a b /\ neighbours R tl
  | _ => True
  end.

(** *** The invariant of the loop, over the base chunks [seen] so far *)

(** A chunk within the maximum, or a base chunk that was already over it. *)
Definition within (maxChunkSize : nat) (seen : list Chunk) (c : Chunk) : Prop :=
  (size c <= maxChunkSize)%nat \/ (c ∈ seen /\ (maxChunkSize < size c)%nat).

(** Why the loop closed [a] and opened [b]. *)
Definition split_reason (minChunkSize maxChunkSize : nat) (seen : list Chunk)
    (a b : Chunk) : Prop :=
  exists n, n ∈ seen /\ grown_from n b
            /\ ((minChunkSize <= size a)%nat
                \/ hard_limit_rejection maxChunkSize a n).

Record Inv (minChunkSize maxChunkSize : nat) (seen : list Chunk) (st : State)
    : Prop := {
  inv_start : st.2 = None -> st.1 = [];
  inv_within : Forall (within maxChunkSize seen) (finish st);
  inv_split :
    neighbours (split_reason minChunkSize maxChunkSize seen) (finish st);
}.

End GreedySplitter.

(** ** DocumentStore.escapeFtsQuery *)

Module Fts.

(** The three loop variables of the tokenizer. *)
Record TokState := mkTok {
  tokens : list string;
  currentToken : string;
  inQuote : bool;
}.

(** The guarded push: a non-empty [currentToken] is appended to [tokens]
    and reset to the empty string. *)
Definition pushCurrent (st : TokState) : TokState :=
  if (0 <? String.length (currentToken st))%nat
  then {| tokens := tokens st ++ [currentToken st];
          currentToken := EmptyString;
          inQuote := inQuote st |}
  else st.

Definition setInQuote (b : bool) (st : TokState) : TokState :=
  {| tokens := tokens st; currentToken := currentToken st; inQuote := b |}.

(** One iteration of the [for] loop over the characters of the query. *)
Definition stepChar (st : TokState) (char : ascii) : TokState :=
  if bool_decide (char = JS.dquote) then
    if inQuote st then setInQuote false (pushCurrent st)
    else setInQuote true (pushCurrent st)
  else if bool_decide (char = JS.space) && negb (inQuote st) then
    pushCurrent st
  else
    {| tokens := tokens st;
       currentToken := currentToken st +:+ JS.str char;
       inQuote := inQuote st |}.

Definition tokenize (query : string) : list string :=
  tokens (pushCurrent
            (foldl stepChar (mkTok [] EmptyString false)
                   (list_ascii_of_string query))).

Definition twoQuotes : string := String JS.dquote (JS.str JS.dquote).

(** The token with every double quote doubled, between double quotes. *)
Definition quoteToken (token : string) : string :=
  JS.str JS.dquote +:+ JS.replaceAll JS.dquote twoQuotes token
  +:+ JS.str JS.dquote.

Definition escapeFtsQuery (query : string) : string :=
  let tokens := tokenize query in
  if (length tokens =? 0)%nat then twoQuotes
  else
    let escapedTokens := map quoteToken tokens in
    match escapedTokens with
    | [only] => only
    | _ =>
        let exactMatch := quoteToken (JS.join " " tokens) in
        let termsQuery := JS.join " OR " escapedTokens in
        exactMatch +:+ " OR " +:+ termsQuery
    end.

(** *** The query language the output has to stay in

    A quoted FTS5 string is a double quote, a body in which every double
    quote is doubled, and a closing double quote; strings are combined
    by the [OR] operator only.  The recogniser is the automaton of
    [STRING (OR STRING)*], one blank on either side of [OR].  The engine
    is not among the sources; it takes the expression as a C string, so
    that it reads up to the first U+0000 and nothing after it. *)

Inductive LexState :=
| ExpectString      (* before an opening quote *)
| InString          (* inside a quoted string *)
| AfterQuote        (* after a quote inside a string: closing, or first of a pair *)
| AfterSpace        (* after the blank that follows a string *)
| AfterO | AfterR   (* inside the OR keyword *)
| Rejected.

Definition lexStep (q : LexState) (c : ascii) : LexState :=
  match q with
  | ExpectString => if bool_decide (c = JS.dquote) then InString else Rejected
  | InString => if bool_decide (c = JS.dquote) then AfterQuote else InString
  | AfterQuote =>
      if bool_decide (c = JS.dquote) then InString
      else if bool_decide (c = JS.space) then AfterSpace
      else Rejected
  | AfterSpace => if bool_decide (c = "O"%char) then AfterO else Rejected
  | AfterO => if bool_decide (c = "R"%char) then AfterR else Rejected
  | AfterR => if bool_decide (c = JS.space) then ExpectString else Rejected
  | Rejected => Rejected
  end.

Definition lexRun (q : LexState) (s : string) : LexState :=
  foldl lexStep q (list_ascii_of_string s).

(** What the engine reads of an expression: the characters before the
    first U+0000. *)
Fixpoint cString (s : string) : string :=
  match s with
  | EmptyString => EmptyString
  | String c s' =>
      if bool_decide (c = JS.nul) then EmptyString else String c (cString s')
  end.

(** What the engine reads of [s] is a sequence of quoted strings joined
    by [OR]. *)
Definition quotedOrQuery (s : string) : bool :=
  match lexRun ExpectString (cString s) with
  | AfterQuote => true
  | _ => false
  end.

Definition nulFree (s : string) : Prop :=
  JS.nul ∉ list_ascii_of_string s.

(** The shape with parentheses around the exact match and around the
    terms; the documentation of the function writes the same parentheses
    in its examples. *)
Definition parenthesisedShape (tokens : list string) : string :=
  "(" +:+ quoteToken (JS.join " " tokens) +:+ ") OR ("
  +:+ JS.join " OR " (map quoteToken tokens) +:+ ")".

(** A token wrapped in double quotes, nothing replaced. *)
Definition wrap (token : string) : string :=
  JS.str JS.dquote +:+ token +:+ JS.str JS.dquote.

Definition hasQuote (s : string) : Prop :=
  JS.dquote ∈ list_ascii_of_string s.

(** The invariant of the tokenizer: no token is empty, and no double quote
    has entered a token or the token being built. *)
Definition clean (st : TokState) : Prop :=
  Forall (fun t => ~ hasQuote t /\ t <> EmptyString) (tokens st)
  /\ ~ hasQuote (currentToken st).

End Fts.

(** ** DocumentStore: rank assignment and Reciprocal Rank Fusion

    Scores are JavaScript numbers; they are modelled as exact rationals. *)

Module Rrf.

Local Open Scope Q_scope.

Record RawSearchResult := mkRaw {
  id : Z;
  content : string;
  url : option string;
  title : option string;
  vec_score : option Q;
  fts_score : option Q;
}.

Record RankedResult := mkRanked {
  raw : RawSearchResult;
  vec_rank : option nat;
  fts_rank : option nat;
  rrf_score : Q;
}.

(** [Array.prototype.sort] is stable: with a comparator [cmp a b] whose
    positive sign sends [a] behind [b], an element moves behind exactly
    the later elements that must precede it. *)
Section Sort.
Context {A : Type} (cmp : A -> A -> Q).

Fixpoint insertBy (x : A) (l : list A) : list A :=
  match l with
  | [] => [x]
  | y :: l' =>
      if Qle_bool (cmp x y) 0 then x :: y :: l' else y :: insertBy x l'
  end.

Fixpoint sortBy (l : list A) : list A :=
  match l with
  | [] => []
  | x :: l' => insertBy x (sortBy l')
  end.
End Sort.

Definition orZero (score : option Q) : Q := default 0 score.

(** One of the two [filter / sort / forEach] pipelines of [assignRanks]:
    the map from id to 1-based position by descending score. *)
Definition ranksBy (score : RawSearchResult -> option Q)
    (results : list RawSearchResult) : gmap Z nat :=
  foldl (fun (ranks : gmap Z nat) '(index, result) =>
           <[id result := (index + 1)%nat]> ranks)
        ∅
        (imap pair
           (sortBy (fun a b => orZero (score b) - orZero (score a))
              (filter (fun r => is_Some (score r)) results))).

Section Search.
Variables searchWeightVec searchWeightFts : Q.

Definition calculateRRF (vecRank ftsRank : option nat) : Q :=
  let k := 60%nat in
  let rrf := 0 in
  let rrf := match vecRank with
             | Some r => rrf + searchWeightVec / inject_Z (Z.of_nat (k + r))
             | None => rrf
             end in
  let rrf := match ftsRank with
             | Some r => rrf + searchWeightFts / inject_Z (Z.of_nat (k + r))
             | None => rrf
             end in
  rrf.

Definition assignRanks (results : list RawSearchResult) : list RankedResult :=
  let vecRanks := ranksBy vec_score results in
  let ftsRanks := ranksBy fts_score results in
  map (fun result =>
         {| raw := result;
            vec_rank := vecRanks !! id result;
            fts_rank := ftsRanks !! id result;
            rrf_score := calculateRRF (vecRanks !! id result)
                                      (ftsRanks !! id result) |})
      results.

(** A row of [documents d JOIN pages p], as the final SELECT of the
    hybrid statement visits it. *)
Record JoinedRow := mkJoined {
  d_id : Z;
  d_content : string;
  d_types : list string;
  p_url : option string;
  p_title : option string;
}.

(** A LEFT JOIN on the id column of one of the two subqueries. *)
Definition leftJoin (scores : list (Z * Q)) (rowid : Z) : option Q :=
  (fun found => snd (snd found))
    <$> list_find (fun entry => fst entry = rowid) scores.

Definition Qmin (a b : Q) : Q := if Qle_bool a b then a else b.

(** The final SELECT of the hybrid statement: [vec_distances] and
    [fts_scores] are the rows of the two subqueries; both score
    columns go through COALESCE(..., 0). *)
Definition hybridSelect (rows : list JoinedRow)
    (vec_distances fts_scores : list (Z * Q)) : list RawSearchResult :=
  omap (fun row =>
          let v := leftJoin vec_distances (d_id row) in
          let f := leftJoin fts_scores (d_id row) in
          if (bool_decide (is_Some v) || bool_decide (is_Some f))
             && negb (bool_decide ("structural"%string ∈ d_types row))
          then Some {| id := d_id row;
                       content := d_content row;
                       url := p_url row;
                       title := p_title row;
                       vec_score :=
                         Some (default 0 ((fun d => 1 / (1 + d)) <$> v));
                       fts_score :=
                         Some (default 0 ((fun s => - Qmin s 0) <$> f)) |}
          else None)
       rows.

(** The hybrid branch of [findByContent], from the rows of the
    statement to the rows returned. *)
Definition topResults (limit : nat) (rawResults : list RawSearchResult)
    : list RankedResult :=
  take limit
    (sortBy (fun a b => rrf_score b - rrf_score a) (assignRanks rawResults)).

Definition findByContentHybrid (limit : nat) (rows : list JoinedRow)
    (vec_distances fts_scores : list (Z * Q)) : list RankedResult :=
  topResults limit (hybridSelect rows vec_distances fts_scores).

End Search.

(** The score the fusion formula gives a candidate that has a rank only
    in the indexes it appears in. *)
Definition fusedScore (weightVec weightFts : Q)
    (vecRank ftsRank : option nat) : Q :=
  default 0 ((fun r => weightVec / inject_Z (Z.of_nat (60 + r))) <$> vecRank)
  + default 0 ((fun r => weightFts / inject_Z (Z.of_nat (60 + r))) <$> ftsRank).

(** Results whose [key] is the rational [q]. *)
Definition tied {A} (key : A -> Q) (q : Q) (x : A) : Prop :=
  Qeq_bool (key x) q = true.

#[global] Instance tied_dec {A} (key : A -> Q) q x : Decision (tied key q x).
Proof. unfold tied. apply _. Defined.

(** Results with the fused score [q], in list order. *)
Definition tiedAt (q : Q) (l : list RankedResult) : list RankedResult :=
  filter (tied rrf_score q) l.

(** The order a descending sort by [key] establishes. *)
Definition descending {A} (key : A -> Q) : A -> A -> Prop :=
  fun a b => key b <= key a.

(** The ids [f] reads off the list increase strictly. *)
Definition ascending {A} (f : A -> Z) (l : list A) : Prop :=
  StronglySorted Z.lt (f <$> l).

(** Two chunks, the second one known to the vector index only. *)
Definition absentRows : list JoinedRow :=
  [mkJoined 1 "alpha" ["content"] None None;
   mkJoined 2 "beta" ["content"] None None]%string.
Definition absentVec : list (Z * Q) := [(1%Z, 1 # 2); (2%Z, 1 # 4)].
Definition absentFts : list (Z * Q) := [(1%Z, - (3 # 1))].

(** Two chunks with mirrored ranks.  The statement has no ORDER BY: the
    engine may visit chunk 2 first, as it does when it scans [pages] in the
    outer loop and chunk 2 belongs to the earlier page. *)
Definition tieRows : list JoinedRow :=
  [mkJoined 2 "beta" ["content"] None None;
   mkJoined 1 "alpha" ["content"] None None]%string.
Definition tieVec : list (Z * Q) := [(1%Z, 1 # 4); (2%Z, 1 # 2)].
Definition tieFts : list (Z * Q) := [(2%Z, - (3 # 1)); (1%Z, - (1 # 1))].

End Rrf.

(** ** DocumentStore: the fused scores as doubles

    [Rrf] computes with exact rationals, which is enough wherever only
    the order of given scores or a weak inequality matters.  Whether two
    fused scores are equal depends on how the two divisions and the sum
    are rounded, so what the code does with equal scores is stated on the
    doubles it computes with. *)

Module Doubles.
Import PrimFloat.

(** An array index or a rank as a number: counted up from 0, which is
    exact for every length an array can have. *)
Fixpoint ofNat (n : nat) : float :=
  match n with
  | O => zero
  | S n' => add (ofNat n') one
  end.

Record RawSearchResult := mkRaw {
  id : Z;
  content : string;
  url : option string;
  title : option string;
  vec_score : option float;
  fts_score : option float;
}.

Record RankedResult := mkRanked {
  raw : RawSearchResult;
  vec_rank : option nat;
  fts_rank : option nat;
  rrf_score : float;
}.

(** [Array.prototype.sort] with a comparator: a positive [cmp a b] sends
    [a] behind [b]; zero, a negative number and NaN, which the sort reads
    as zero, leave [a] before [b].  The sort is stable.  When the
    comparator is consistent, as a difference of numbers is when none of
    them is NaN, that fixes the result, which is the one computed here. *)
Section Sort.
Context {A : Type} (cmp : A -> A -> float).

Fixpoint insertBy (x : A) (l : list A) : list A :=
  match l with
  | [] => [x]
  | y :: l' =>
      if ltb zero (cmp x y) then y :: insertBy x l' else x :: y :: l'
  end.

Fixpoint sortBy (l : list A) : list A :=
  match l with
  | [] => []
  | x :: l' => insertBy x (sortBy l')
  end.
End Sort.

(** [score ?? 0] *)
Definition orZero (score : option float) : float := default zero score.

Definition ranksBy (score : RawSearchResult -> option float)
    (results : list RawSearchResult) : gmap Z nat :=
  foldl (fun (ranks : gmap Z nat) '(index, result) =>
           <[id result := (index + 1)%nat]> ranks)
        ∅
        (imap pair
           (sortBy (fun a b => sub (orZero (score b)) (orZero (score a)))
              (filter (fun r => is_Some (score r)) results))).

Section Search.
Variables searchWeightVec searchWeightFts : float.

Definition calculateRRF (vecRank ftsRank : option nat) : float :=
  let k := 60%float in
  let rrf := zero in
  let rrf := match vecRank with
             | Some r => add rrf (div searchWeightVec (add k (ofNat r)))
             | None => rrf
             end in
  let rrf := match ftsRank with
             | Some r => add rrf (div searchWeightFts (add k (ofNat r)))
             | None => rrf
             end in
  rrf.

Definition assignRanks (results : list RawSearchResult) : list RankedResult :=
  let vecRanks := ranksBy vec_score results in
  let ftsRanks := ranksBy fts_score results in
  map (fun result =>
         {| raw := result;
            vec_rank := vecRanks !! id result;
            fts_rank := ftsRanks !! id result;
            rrf_score := calculateRRF (vecRanks !! id result)
                                      (ftsRanks !! id result) |})
      results.

(** [rankedResults.sort((a, b) => b.rrf_score - a.rrf_score).slice(0, limit)] *)
Definition topResults (limit : nat) (rawResults : list RawSearchResult)
    : list RankedResult :=
  take limit
    (sortBy (fun a b => sub (rrf_score b) (rrf_score a))
       (assignRanks rawResults)).

End Search.

(** [a.rrf_score === b.rrf_score]: the scores are the same number, which
    no NaN is. *)
Definition tiedScores (a b : RankedResult) : Prop :=
  eqb (rrf_score a) (rrf_score b) = true.

(** Two rows with mirrored ranks, that of the larger id first. *)
Definition mirrored : list RawSearchResult :=
  [mkRaw 7 "alpha" None None (Some 0.75%float) (Some 1%float);
   mkRaw 3 "beta" None None (Some 0.5%float) (Some 3%float)].

End Doubles.

(** ** DocumentStore: thrown values and the embedding client *)

Module Embeddings.

(** What a [catch] clause can receive. *)
Inductive Thrown :=
| JsError (message : string)
| NotAnError (value : string)
| StoreError (message : string)
| ConnectionError (message : string) (cause : Thrown).

(** [error instanceof Error], with the message when it holds. *)
Definition errorMessage (error : Thrown) : option string :=
  match error with
  | JsError m | StoreError m | ConnectionError m _ => Some m
  | NotAnError _ => None
  end.

(** How a call ends: with a value, with an exception, or never (a promise
    that is never settled). *)
Inductive Outcome (A : Type) :=
| Returns (a : A)
| Throws (error : Thrown)
| Hangs.
Arguments Returns {A} a.
Arguments Throws {A} error.
Arguments Hangs {A}.

(** [toLowerCase] on the characters strings are made of here, the code
    units U+0000 to U+00FF: the capitals are A to Z and U+00C0 to U+00DE
    without the multiplication sign U+00D7, each 32 below its small
    letter. *)
Definition lowerChar (c : ascii) : ascii :=
  let n := nat_of_ascii c in
  if ((65 <=? n)%nat && (n <=? 90)%nat)
     || ((192 <=? n)%nat && (n <=? 222)%nat && negb (n =? 215)%nat)
  then ascii_of_nat (n + 32) else c.

Fixpoint toLowerCase (s : string) : string :=
  match s with
  | EmptyString => EmptyString
  | String c s' => String (lowerChar c) (toLowerCase s')
  end.

(** [s.includes(part)] *)
Definition includes (s part : string) : bool :=
  bool_decide (is_Some (String.index 0 part s)).

Definition isInputSizeError (error : Thrown) : bool :=
  match errorMessage error with
  | None => false
  | Some m =>
      let message := toLowerCase m in
      includes message "maximum context length"
      || includes message "too long"
      || includes message "token limit"
      || includes message "input is too large"
      || includes message "exceeds"
      || (includes message "max" && includes message "token")
  end.

(** Modelled from the spec: [./types] is not among the sources; the empty
    string denotes the unversioned collection and is stored as it is. *)
Definition denormalizeVersionName (name : string) : string := name.

Definition Vector : Type := list Q.

(** *** embedDocumentsWithRetry *)

(** When a refused batch is split, the two halves are asked for at the
    same time: both calls have been started when [Promise.all] waits for
    them.  What follows depends on how fast the client answers, which is
    not the program's to decide.  A [Schedule] says, for the batch that is
    split, whose rejection arrives first when both halves are rejected, and
    which half sends the next request whenever both have one to send; like
    the client's answer it is taken as a function of the batch. *)
Record Schedule := mkSchedule {
  firstRejectsFirst : bool;
  turns : list bool;
}.

(** The schedule of the examples: the first half is always the faster. *)
Definition inOrder (batch : list string) : Schedule := mkSchedule true [].

(** [Promise.all] of two promises: the values of both when both are
    fulfilled; otherwise the rejection that arrives first; pending as long
    as one is pending and none is rejected. *)
Definition promiseAll2 {A B} (firstRejectsFirst : bool)
    (p1 : Outcome A) (p2 : Outcome B) : Outcome (A * B) :=
  match p1, p2 with
  | Returns a, Returns b => Returns (a, b)
  | Throws e1, Throws e2 => Throws (if firstRejectsFirst then e1 else e2)
  | Throws e, _ => Throws e
  | _, Throws e => Throws e
  | _, _ => Hangs
  end.

(** The requests of two calls that run at the same time, in the order of
    time: [turns] names the call that sends the next one, [true] for the
    first call; when it runs out the first call goes first. *)
Fixpoint interleave {A} (turns : list bool) (l1 l2 : list A) : list A :=
  match turns with
  | [] => l1 ++ l2
  | turn :: turns' =>
      match l1, l2 with
      | [], _ => l2
      | _, [] => l1
      | x :: l1', y :: l2' =>
          if turn then x :: interleave turns' l1' l2
          else y :: interleave turns' l1 l2'
      end
  end.

(** Either call sends its first request as soon as it is started, the
    first call before the second one. *)
Definition startedTogether {A} (turns : list bool) (l1 l2 : list A) : list A :=
  take 1 l1 ++ take 1 l2 ++ interleave turns (drop 1 l1) (drop 1 l2).

(** The texts and their characters still to be given up before the
    recursion must stop. *)
Definition retryMeasure (texts : list string) : nat :=
  length texts + foldr (fun t n => String.length t + n) 0 texts.

Section Embedding.
(** [this.embeddings.embedDocuments], as a function of the batch. *)
Variable embedDocuments : list string -> Outcome (list Vector).
Variable schedule : list string -> Schedule.

(** The result and the batches sent to the client, in the order of
    time.  [fuel] bounds the nesting of retries; a retry that is refused
    for its size with no fuel left is one that is repeated for ever. *)
Fixpoint embedRetry (fuel : nat) (texts : list string)
    : Outcome (list Vector) * list (list string) :=
  match texts with
  | [] => (Returns [], [])
  | text :: _ =>
      match embedDocuments texts with
      | Returns vectors => (Returns vectors, [texts])
      | Hangs => (Hangs, [texts])
      | Throws error =>
          if isInputSizeError error then
            match fuel with
            | O => (Hangs, [texts])
            | S fuel' =>
                if (1 <? length texts)%nat then
                  let midpoint := (length texts / 2)%nat in
                  let firstHalf := take midpoint texts in
                  let secondHalf := drop midpoint texts in
                  let '(first, calls1) := embedRetry fuel' firstHalf in
                  let '(second, calls2) := embedRetry fuel' secondHalf in
                  let timing := schedule texts in
                  (match promiseAll2 (firstRejectsFirst timing)
                           first second with
                   | Returns (firstEmbeddings, secondEmbeddings) =>
                       Returns (firstEmbeddings ++ secondEmbeddings)
                   | Throws e => Throws e
                   | Hangs => Hangs
                   end,
                   [texts] ++ startedTogether (turns timing) calls1 calls2)
                else
                  let midpoint := (String.length text / 2)%nat in
                  let firstHalf := String.substring 0 midpoint text in
                  let '(embedding, calls) := embedRetry fuel' [firstHalf] in
                  (embedding, [texts] ++ calls)
            end
          else (Throws error, [texts])
      end
  end.

Definition embedDocumentsWithRetry (texts : list string)
    : Outcome (list Vector) * list (list string) :=
  embedRetry (retryMeasure texts) texts.

End Embedding.

(** [a] is an initial segment of [b]. *)
Definition isPrefixOf (a b : string) : Prop := exists rest, b = a +:+ rest.

(** [answeredInOrder embed texts vectors]: [texts] is cut into consecutive
    batches, each batch is answered by the client, either as it is or,
    for a batch of one text, on an initial segment of that text, and
    [vectors] is the answers put end to end in the order of the batches. *)
Inductive answeredInOrder (embed : list string -> Outcome (list Vector))
    : list string -> list Vector -> Prop :=
| answered_nil : answeredInOrder embed [] []
| answered_batch batch vectors rest vectors' :
    batch <> [] ->
    embed batch = Returns vectors ->
    answeredInOrder embed rest vectors' ->
    answeredInOrder embed (batch ++ rest) (vectors ++ vectors')
| answered_truncated text part vectors rest vectors' :
    isPrefixOf part text ->
    embed [part] = Returns vectors ->
    answeredInOrder embed rest vectors' ->
    answeredInOrder embed (text :: rest) (vectors ++ vectors').

(** A client for the examples: it refuses a batch of more than [limit]
    characters for its size and embeds a text as its length. *)
Definition sizeLimitedClient (limit : nat) (batch : list string)
    : Outcome (list Vector) :=
  if (limit <? foldr (fun t n => String.length t + n) 0 batch)%nat
  then Throws (JsError "This model's maximum context length is exceeded")
  else Returns ((fun t => [inject_Z (Z.of_nat (String.length t))]) <$> batch).

(** A client for the examples: it refuses two texts at once for their
    size, and the texts [a] and [b] each for a reason of its own. *)
Definition quarrelClient (batch : list string) : Outcome (list Vector) :=
  if (1 <? length batch)%nat then Throws (JsError "input is too large")
  else if bool_decide (batch = ["a"]) then Throws (JsError "no a")
  else Throws (JsError "no b").

End Embeddings.

(** ** DocumentStore: tables, statements, ingest and removal *)

Module Store.

Import GreedySplitter Embeddings.

(** *** Tables

    The columns are those the prepared statements read and write; a table
    is the list of its rows in rowid order. *)

Record LibraryRow := mkLibrary { lib_id : Z; lib_name : string }.

Record VersionRow := mkVersion {
  ver_id : Z;
  ver_library_id : Z;
  ver_name : option string;
  ver_status : string;
}.

Record PageRow := mkPage {
  page_id : Z;
  page_version_id : Z;
  page_url : string;
  page_title : string;
  page_etag : option string;
  page_last_modified : option string;
  page_content_type : option string;
  page_depth : option nat;
}.

Record DbChunkMetadata := mkMetadata {
  md_types : list string;
  md_level : nat;
  md_path : list string;
}.

Record DocumentRow := mkDocument {
  doc_id : Z;
  doc_page_id : Z;
  doc_content : string;
  doc_metadata : DbChunkMetadata;
  doc_sort_order : nat;
  doc_embedding : option Vector;
}.

(** Modelled from the spec: the migrations that create the schema are not
    among the sources.  The tables are [libraries], [versions], [pages] and
    [documents] (the chunks), linked by [library_id], [version_id] and
    [page_id]. *)
Record Db := mkDb {
  libraries : list LibraryRow;
  versions : list VersionRow;
  pages : list PageRow;
  documents : list DocumentRow;
}.

(** The engine's rule for a new rowid: one more than the largest in the
    table. *)
Definition nextRowid (ids : list Z) : Z := (foldr Z.max 0 ids + 1)%Z.

Definition withLibraries (d : Db) (ls : list LibraryRow) : Db :=
  mkDb ls (versions d) (pages d) (documents d).
Definition withVersions (d : Db) (vs : list VersionRow) : Db :=
  mkDb (libraries d) vs (pages d) (documents d).
Definition withPages (d : Db) (ps : list PageRow) : Db :=
  mkDb (libraries d) (versions d) ps (documents d).
Definition withDocuments (d : Db) (ds : list DocumentRow) : Db :=
  mkDb (libraries d) (versions d) (pages d) ds.

(** [COALESCE(name, '')] *)
Definition coalesce (name : option string) : string :=
  default EmptyString name.

(** The first row, in rowid order, that satisfies the WHERE clause. *)
Fixpoint findFirst {A} (P : A -> Prop) `{!forall x, Decision (P x)}
    (rows : list A) : option A :=
  match rows with
  | [] => None
  | row :: rest => if decide (P row) then Some row else findFirst P rest
  end.

(** *** Prepared statements, as functions of the database *)

(** [run] returns [changes] (and [lastInsertRowid] for an insert), [get]
    the first row or nothing. *)

Definition insertLibrary (name : string) (d : Db) : nat * Db :=
  if bool_decide (Exists (fun l => lib_name l = name) (libraries d))
  then (0, d)
  else (1, withLibraries d
             (libraries d ++ [mkLibrary (nextRowid (lib_id <$> libraries d)) name])).

Definition getLibraryIdByName (name : string) (d : Db) : option Z :=
  lib_id <$> findFirst (fun l => lib_name l = name) (libraries d).

Definition insertVersion (libraryId : Z) (name : string) (d : Db) : nat * Db :=
  if bool_decide (Exists (fun v => ver_library_id v = libraryId
                                   /\ ver_name v = Some name) (versions d))
  then (0, d)
  else (1, withVersions d
             (versions d ++ [mkVersion (nextRowid (ver_id <$> versions d))
                               libraryId (Some name) "not_indexed"])).

Definition resolveVersionIdStmt (libraryId : Z) (name : string) (d : Db)
    : option Z :=
  ver_id <$> findFirst (fun v => ver_library_id v = libraryId
                                 /\ ver_name v = Some name) (versions d).

Definition getPageId (versionId : Z) (url : string) (d : Db) : option Z :=
  page_id <$> findFirst (fun p => page_version_id p = versionId
                                 /\ page_url p = url) (pages d).

Definition deleteDocumentsByPageId (pageId : Z) (d : Db) : nat * Db :=
  (length (filter (fun doc => doc_page_id doc = pageId) (documents d)),
   withDocuments d (filter (fun doc => doc_page_id doc <> pageId) (documents d))).

(** INSERT ... ON CONFLICT(version_id, url) DO UPDATE SET ... *)
Definition insertPage (versionId : Z) (url title : string)
    (etag lastModified contentType : option string) (depth : option nat)
    (d : Db) : nat * Db :=
  if bool_decide (Exists (fun p => page_version_id p = versionId
                                   /\ page_url p = url) (pages d))
  then (1, withPages d
             ((fun p =>
                 if bool_decide (page_version_id p = versionId /\ page_url p = url)
                 then mkPage (page_id p) versionId url title etag lastModified
                             contentType depth
                 else p) <$> pages d))
  else (1, withPages d
             (pages d ++ [mkPage (nextRowid (page_id <$> pages d)) versionId url
                            title etag lastModified contentType depth])).

(** Returns [lastInsertRowid]. *)
Definition insertDocument (pageId : Z) (content : string)
    (metadata : DbChunkMetadata) (sortOrder : nat) (d : Db) : Z * Db :=
  let rowid := nextRowid (doc_id <$> documents d) in
  (rowid,
   withDocuments d
     (documents d ++ [mkDocument rowid pageId content metadata sortOrder None])).

(** UPDATE documents SET embedding = ? WHERE id = ?, the first parameter
    being NULL when there is no vector to write. *)
Definition insertEmbedding (embedding : option Vector) (rowid : Z) (d : Db)
    : nat * Db :=
  (length (filter (fun doc => doc_id doc = rowid) (documents d)),
   withDocuments d
     ((fun doc =>
         if bool_decide (doc_id doc = rowid)
         then mkDocument (doc_id doc) (doc_page_id doc) (doc_content doc)
                         (doc_metadata doc) (doc_sort_order doc) embedding
         else doc) <$> documents d)).

(** The join [versions v JOIN libraries l ON v.library_id = l.id] under
    [l.name = ? AND COALESCE(v.name, '') = COALESCE(?, '')]. *)
Definition versionMatches (library version : string) (d : Db)
    (v : VersionRow) : Prop :=
  Exists (fun l => lib_id l = ver_library_id v /\ lib_name l = library)
         (libraries d)
  /\ coalesce (ver_name v) = version.

Definition pageMatches (library version : string) (d : Db) (p : PageRow) : Prop :=
  Exists (fun v => ver_id v = page_version_id p
                   /\ versionMatches library version d v) (versions d).

Definition documentMatches (library version : string) (d : Db)
    (doc : DocumentRow) : Prop :=
  Exists (fun p => page_id p = doc_page_id doc
                   /\ pageMatches library version d p) (pages d).

#[global] Instance versionMatches_dec library version d v :
  Decision (versionMatches library version d v).
Proof. unfold versionMatches. apply _. Defined.

#[global] Instance pageMatches_dec library version d p :
  Decision (pageMatches library version d p).
Proof. unfold pageMatches. apply _. Defined.

#[global] Instance documentMatches_dec library version d doc :
  Decision (documentMatches library version d doc).
Proof. unfold documentMatches. apply _. Defined.

Definition deleteDocuments (library version : string) (d : Db) : nat * Db :=
  (length (filter (documentMatches library version d) (documents d)),
   withDocuments d
     (filter (fun doc => ~ documentMatches library version d doc) (documents d))).

Definition deletePagesStmt (library version : string) (d : Db) : nat * Db :=
  (length (filter (pageMatches library version d) (pages d)),
   withPages d (filter (fun p => ~ pageMatches library version d p) (pages d))).

Definition checkExists (library version : string) (d : Db) : option Z :=
  doc_id <$> findFirst (documentMatches library version d) (documents d).

Definition getVersionId (library version : string) (d : Db) : option (Z * Z) :=
  (fun v => (ver_id v, ver_library_id v))
    <$> findFirst (versionMatches library version d) (versions d).

Definition deleteVersionById (versionId : Z) (d : Db) : nat * Db :=
  (length (filter (fun v => ver_id v = versionId) (versions d)),
   withVersions d (filter (fun v => ver_id v <> versionId) (versions d))).

Definition deleteLibraryById (libraryId : Z) (d : Db) : nat * Db :=
  (length (filter (fun l => lib_id l = libraryId) (libraries d)),
   withLibraries d (filter (fun l => lib_id l <> libraryId) (libraries d))).

Definition countVersionsByLibraryId (libraryId : Z) (d : Db) : nat :=
  length (filter (fun v => ver_library_id v = libraryId) (versions d)).

(** *** The store as the methods see it

    A method runs statements against the single connection.  The engine
    can refuse any statement (disk full, I/O error, busy): [faultAfter]
    is the number of statements it still executes before the next one
    raises; [None] is an engine that never raises.  [log] records the
    statements and the embedding requests in the order they are issued. *)

Inductive Stmt :=
| SInsertLibrary | SGetLibraryIdByName | SInsertVersion | SResolveVersionId
| SGetPageId | SDeleteDocumentsByPageId | SInsertPage | SInsertDocument
| SInsertEmbedding | SDeleteDocuments | SDeletePages | SCheckExists
| SGetVersionId | SDeleteVersionById | SDeleteLibraryById
| SCountVersionsByLibraryId.

Inductive Event :=
| Ran (s : Stmt)
| Refused (s : Stmt)
| Embedded (batch : list string)
| Begin | Commit | Rollback.

Record World := mkWorld {
  db : Db;
  log : list Event;
  faultAfter : option nat;
}.

Definition M (A : Type) : Type := World -> Outcome A * World.

#[global] Instance M_ret : MRet M := fun A a w => (Returns a, w).

#[global] Instance M_bind : MBind M := fun A B k m w =>
  match m w with
  | (Returns a, w') => k a w'
  | (Throws e, w') => (Throws e, w')
  | (Hangs, w') => (Hangs, w')
  end.

Definition throw {A} (error : Thrown) : M A := fun w => (Throws error, w).

Definition emit (events : list Event) (w : World) : World :=
  mkWorld (db w) (log w ++ events) (faultAfter w).

(** A statement's [run] (or [get], or [all]). *)
Definition exec {A} (s : Stmt) (run : Db -> A * Db) : M A := fun w =>
  match faultAfter w with
  | Some O => (Throws (JsError "SqliteError"), emit [Refused s] w)
  | budget =>
      let '(a, d) := run (db w) in
      (Returns a, mkWorld d (log w ++ [Ran s]) (Nat.pred <$> budget))
  end.

Definition query {A} (s : Stmt) (get : Db -> A) : M A :=
  exec s (fun d => (get d, d)).

(** [try { body } catch (error) { handler }] *)
Definition tryCatch {A} (body : M A) (handler : Thrown -> M A) : M A := fun w =>
  match body w with
  | (Throws e, w') => handler e w'
  | other => other
  end.

(** [this.db.transaction(fn)()]: commit when [fn] returns, roll back to
    the state at BEGIN and rethrow when it throws. *)
Definition transaction {A} (fn : M A) : M A := fun w =>
  match fn (emit [Begin] w) with
  | (Returns a, w') => (Returns a, emit [Commit] w')
  | (Throws e, w') =>
      (Throws e, mkWorld (db w) (log w' ++ [Rollback]) (faultAfter w'))
  | (Hangs, w') => (Hangs, w')
  end.

Record ScrapeResult := mkScrape {
  title : string;
  url : string;
  chunks : list Chunk;
  contentType : option string;
  etag : option string;
  lastModified : option string;
}.

(** [value || null] on an optional string: the empty string is falsy. *)
Definition orNull (value : option string) : option string :=
  match value with
  | Some EmptyString => None
  | other => other
  end.

Record RemoveResult := mkRemoved {
  documentsDeleted : nat;
  versionDeleted : bool;
  libraryDeleted : bool;
}.

Section Methods.
Variable isVectorSearchEnabled : bool.
Variable embedDocuments : list string -> Outcome (list Vector).
Variable schedule : list string -> Schedule.
Variables dbDimension embeddingBatchSize embeddingBatchChars : nat.

Definition padVector (vector : Vector) : M Vector :=
  if (dbDimension <? length vector)%nat then
    throw (JsError "Vector dimension exceeds database dimension")
  else if (length vector =? dbDimension)%nat then mret vector
  else mret (vector ++ replicate (dbDimension - length vector) 0%Q).

Definition embedLogged (texts : list string) : M (list Vector) := fun w =>
  let '(outcome, calls) := embedDocumentsWithRetry embedDocuments schedule texts in
  (outcome, emit (Embedded <$> calls) w).

(** The [for (const text of texts)] loop of [addDocuments] and the
    final batch after it. *)
Fixpoint embedBatches (texts currentBatch : list string)
    (currentBatchSize : nat) (rawEmbeddings : list Vector)
    : M (list Vector) :=
  match texts with
  | [] =>
      if (0 <? length currentBatch)%nat then
        batchEmbeddings ← embedLogged currentBatch;
        mret (rawEmbeddings ++ batchEmbeddings)
      else mret rawEmbeddings
  | text :: rest =>
      let textSize := String.length text in
      '(currentBatch, currentBatchSize, rawEmbeddings) ←
        (if (embeddingBatchChars <? currentBatchSize + textSize)%nat
            && (0 <? length currentBatch)%nat
         then batchEmbeddings ← embedLogged currentBatch;
              mret ([], 0%nat, rawEmbeddings ++ batchEmbeddings)
         else mret (currentBatch, currentBatchSize, rawEmbeddings));
      let currentBatch := currentBatch ++ [text] in
      let currentBatchSize := (currentBatchSize + textSize)%nat in
      '(currentBatch, currentBatchSize, rawEmbeddings) ←
        (if (embeddingBatchSize <=? length currentBatch)%nat
         then batchEmbeddings ← embedLogged currentBatch;
              mret ([], 0%nat, rawEmbeddings ++ batchEmbeddings)
         else mret (currentBatch, currentBatchSize, rawEmbeddings));
      embedBatches rest currentBatch currentBatchSize rawEmbeddings
  end.

Fixpoint padAll (rawEmbeddings : list Vector) : M (list Vector) :=
  match rawEmbeddings with
  | [] => mret []
  | vector :: rest =>
      padded ← padVector vector;
      others ← padAll rest;
      mret (padded :: others)
  end.

Definition embeddingText (title url : string) (chunk : Chunk) : string :=
  "<title>" +:+ title +:+ "</title>" +:+ JS.str JS.newline
  +:+ "<url>" +:+ url +:+ "</url>" +:+ JS.str JS.newline
  +:+ "<path>" +:+ JS.join " / " (path (section chunk)) +:+ "</path>"
  +:+ JS.str JS.newline +:+ content chunk.

Definition resolveVersionId (library version : string) : M Z :=
  let normalizedLibrary := toLowerCase library in
  let normalizedVersion := denormalizeVersionName (toLowerCase version) in
  _ ← exec SInsertLibrary (insertLibrary normalizedLibrary);
  libraryIdRow ← query SGetLibraryIdByName (getLibraryIdByName normalizedLibrary);
  match libraryIdRow with
  | None => throw (StoreError "Failed to resolve library_id")
  | Some libraryId =>
      _ ← exec SInsertVersion (insertVersion libraryId normalizedVersion);
      versionIdRow ← query SResolveVersionId
                       (resolveVersionIdStmt libraryId normalizedVersion);
      match versionIdRow with
      | None => throw (StoreError "Failed to resolve version_id")
      | Some versionId => mret versionId
      end
  end.

Definition chunkMetadata (chunk : Chunk) : DbChunkMetadata :=
  {| md_types := types chunk;
     md_level := level (section chunk);
     md_path := path (section chunk) |}.

(** The [for (let i = 0; i < chunks.length; i++)] loop inside the
    transaction; [chunks] is what is left from index [i] on.  An index
    past the end of [paddedEmbeddings] reads [undefined], which
    [JSON.stringify] hands on as [undefined] and the statement binds as
    NULL. *)
Fixpoint insertChunks (pageId : Z) (paddedEmbeddings : list Vector)
    (i docIndex : nat) (chunks : list Chunk) : M unit :=
  match chunks with
  | [] => mret tt
  | chunk :: rest =>
      rowId ← exec SInsertDocument
                (insertDocument pageId (content chunk) (chunkMetadata chunk) i);
      _ ← (if isVectorSearchEnabled && (0 <? length paddedEmbeddings)%nat then
             _ ← exec SInsertEmbedding
                   (insertEmbedding (paddedEmbeddings !! docIndex) rowId);
             mret tt
           else mret tt);
      insertChunks pageId paddedEmbeddings (S i) (S docIndex) rest
  end.

Definition addDocuments (library version : string) (depth : nat)
    (result : ScrapeResult) : M unit :=
  tryCatch
    (if (length (chunks result) =? 0)%nat then mret tt
     else
       paddedEmbeddings ←
         (if isVectorSearchEnabled then
            let texts := embeddingText (title result) (url result)
                           <$> chunks result in
            rawEmbeddings ← embedBatches texts [] 0 [];
            padAll rawEmbeddings
          else mret []);
       versionId ← resolveVersionId library version;
       existingPage ← query SGetPageId (getPageId versionId (url result));
       _ ← match existingPage with
           | Some pageId =>
               _ ← exec SDeleteDocumentsByPageId (deleteDocumentsByPageId pageId);
               mret tt
           | None => mret tt
           end;
       transaction
         (_ ← exec SInsertPage
                (insertPage versionId (url result) (title result)
                   (orNull (etag result)) (orNull (lastModified result))
                   (orNull (contentType result)) (Some depth));
          existingPage ← query SGetPageId (getPageId versionId (url result));
          match existingPage with
          | None => throw (StoreError "Failed to get page ID")
          | Some pageId =>
              insertChunks pageId paddedEmbeddings 0 0 (chunks result)
          end))
    (fun error =>
       throw (ConnectionError "Failed to add documents to store" error)).

Definition deletePages (library version : string) : M nat :=
  tryCatch
    (let normalizedVersion := toLowerCase version in
     changes ← exec SDeleteDocuments
                 (deleteDocuments (toLowerCase library) normalizedVersion);
     _ ← exec SDeletePages
           (deletePagesStmt (toLowerCase library) normalizedVersion);
     mret changes)
    (fun error => throw (ConnectionError "Failed to delete documents" error)).

Definition removeVersion (library version : string)
    (removeLibraryIfEmpty : bool) : M RemoveResult :=
  tryCatch
    (let normalizedLibrary := toLowerCase library in
     let normalizedVersion := toLowerCase version in
     versionResult ← query SGetVersionId
                       (getVersionId normalizedLibrary normalizedVersion);
     match versionResult with
     | None => mret (mkRemoved 0 false false)
     | Some (versionId, libraryId) =>
         documentsDeleted ← deletePages library version;
         _ ← exec SDeletePages
               (deletePagesStmt normalizedLibrary normalizedVersion);
         changes ← exec SDeleteVersionById (deleteVersionById versionId);
         let versionDeleted := (0 <? changes)%nat in
         libraryDeleted ←
           (if removeLibraryIfEmpty && versionDeleted then
              remainingVersions ← query SCountVersionsByLibraryId
                                    (countVersionsByLibraryId libraryId);
              if (remainingVersions =? 0)%nat then
                deleted ← exec SDeleteLibraryById (deleteLibraryById libraryId);
                mret (0 <? deleted)%nat
              else mret false
            else mret false);
         mret (mkRemoved documentsDeleted versionDeleted libraryDeleted)
     end)
    (fun error => throw (ConnectionError "Failed to remove version" error)).

Definition checkDocumentExists (library version : string) : M bool :=
  tryCatch
    (found ← query SCheckExists
               (checkExists (toLowerCase library) (toLowerCase version));
     mret (bool_decide (is_Some found)))
    (fun error =>
       throw (ConnectionError "Failed to check document existence" error)).

End Methods.

(** *** Vocabulary of the store properties *)

(** The chunks of a page, in rowid order. *)
Definition documentsOfPage (pageId : Z) (d : Db) : list DocumentRow :=
  filter (fun doc => doc_page_id doc = pageId) (documents d).

(** Every document belongs to a page of the table (the foreign key of
    [documents.page_id]). *)
Definition documentsHavePages (d : Db) : Prop :=
  Forall (fun doc => Exists (fun p => page_id p = doc_page_id doc) (pages d))
         (documents d).

(** The page a URL has in a library version, as [addDocuments] looks it
    up: library, version, page. *)
Definition pageOfUrl (library version url : string) (d : Db) : option Z :=
  libraryId ← getLibraryIdByName (toLowerCase library) d;
  versionId ← resolveVersionIdStmt libraryId
                (denormalizeVersionName (toLowerCase version)) d;
  getPageId versionId url d.

(** The chunks stored for a URL of a library version, looked up the way
    the methods do: the library by name, the version by library and
    name, the page by version and URL. *)
Definition pageChunks (library version url : string) (d : Db)
    : list DocumentRow :=
  match getLibraryIdByName (toLowerCase library) d with
  | Some libraryId =>
      match resolveVersionIdStmt libraryId
              (denormalizeVersionName (toLowerCase version)) d with
      | Some versionId =>
          match getPageId versionId url d with
          | Some pageId => documentsOfPage pageId d
          | None => []
          end
      | None => []
      end
  | None => []
  end.

(** What a stored chunk keeps of its input: body, metadata, position. *)
Definition rowView (doc : DocumentRow) : string * DbChunkMetadata * nat :=
  (doc_content doc, doc_metadata doc, doc_sort_order doc).

(** The chunks of a scrape result as they are to be stored, in input
    order, each with its index. *)
Definition expectedRows (chunks : list Chunk)
    : list (string * DbChunkMetadata * nat) :=
  imap (fun i chunk => (content chunk, chunkMetadata chunk, i)) chunks.

(** The sort orders of a page are 0, 1, ..., k-1 in rowid order: no gap,
    no duplicate. *)
Definition sortOrdersDense (pageId : Z) (d : Db) : Prop :=
  doc_sort_order <$> documentsOfPage pageId d
  = seq 0 (length (documentsOfPage pageId d)).

(** What a document row keeps when its embedding is written. *)
Definition view4 (doc : DocumentRow) : Z * string * DbChunkMetadata * nat :=
  (doc_page_id doc, doc_content doc, doc_metadata doc, doc_sort_order doc).

(** A computation that, however it ends, leaves the database as it was. *)
Definition keepsDb {A} (m : M A) : Prop := forall w, db (m w).2 = db w.

(** Whatever its outcome, the computation leaves [pages] and [documents]
    as they were. *)
Definition keepsChunks {A} (m : M A) : Prop :=
  forall w, pages (db (m w).2) = pages (db w)
            /\ documents (db (m w).2) = documents (db w).

(** *** A store for the examples

    One library, one version, one page with the two chunks [a] and [b];
    vector search is disabled. *)

Definition exampleChunk (body : string) : Chunk :=
  mkChunk ["content"] body (mkSection 1 ["Guide"]).

Definition exampleUrl : string := "https://docs.example.com/guide".

Definition exampleDb : Db :=
  mkDb [mkLibrary 1 "lib"]
       [mkVersion 1 1 (Some "1.0") "not_indexed"]
       [mkPage 1 1 exampleUrl "Guide" None None None (Some 0)]
       [mkDocument 1 1 "a" (chunkMetadata (exampleChunk "a")) 0 None;
        mkDocument 2 1 "b" (chunkMetadata (exampleChunk "b")) 1 None].

Definition noClient (batch : list string) : Outcome (list Vector) :=
  Throws (JsError "no embedding client").

Definition exampleAdd : string -> string -> nat -> ScrapeResult -> M unit :=
  addDocuments false noClient inOrder 4 100 2000.

Definition scrapeOf (bodies : list string) : ScrapeResult :=
  mkScrape "Guide" exampleUrl (exampleChunk <$> bodies) None None None.

End Store.

(** ** GreedySplitter: runs of base chunks and their text *)

Module SplitterText.
Import GreedySplitter.

(** Two bodies put together the way the merge does it: a newline between
    them unless the first one ends with one. *)
Definition glue (a b : string) : string :=
  a +:+ (if JS.endsWith a (JS.str JS.newline)
         then EmptyString else JS.str JS.newline) +:+ b.

(** The text of a sequence of chunk bodies. *)
Definition glueAll (bodies : list string) : string :=
  match bodies with
  | [] => EmptyString
  | first :: rest => foldl glue first rest
  end.

(** The chunk a run of consecutive base chunks is merged into: the clone
    of the first one, grown by the others in turn. *)
Definition mergeRun (run : list Chunk) : option Chunk :=
  match run with
  | [] => None
  | first :: rest => Some (foldl mergeChunks (cloneChunk first) rest)
  end.

(** The state after the base chunks [seen]: they are cut into [runs], the
    closed ones are in [concatenatedChunks], the last one is being grown. *)
Definition cutInto (seen : list Chunk) (runs : list (list Chunk))
    (st : list Chunk * option Chunk) : Prop :=
  concat runs = seen
  /\ match st.2 with
     | None => runs = [] /\ st.1 = []
     | Some cur =>
         exists closed open,
           runs = closed ++ [open]
           /\ Some <$> st.1 = mergeRun <$> closed
           /\ mergeRun open = Some cur
     end.

End SplitterText.


(** ** DocumentStore.escapeFtsQuery: the characters of the tokens *)

Module Tokens.
Import Fts.

(** The characters of the tokens, one token after the other. *)
Definition tokenChars (tokens : list string) : list ascii :=
  concat (list_ascii_of_string <$> tokens).

(** The characters the tokenizer has kept so far. *)
Definition keptChars (st : TokState) : list ascii :=
  tokenChars (tokens st) ++ list_ascii_of_string (currentToken st).

(** No blank has entered a token, and no phrase is open. *)
Definition spaceFree (st : TokState) : Prop :=
  inQuote st = false
  /\ Forall (fun t => JS.space ∉ list_ascii_of_string t) (tokens st)
  /\ JS.space ∉ list_ascii_of_string (currentToken st).

(** [s.split(" ")]: the pieces of [s] between its blanks. *)
Fixpoint splitBlanks (s : string) : list string :=
  match s with
  | EmptyString => [EmptyString]
  | String c s' =>
      if bool_decide (c = JS.space) then EmptyString :: splitBlanks s'
      else match splitBlanks s' with
           | [] => [JS.str c]
           | piece :: pieces => String c piece :: pieces
           end
  end.

(** The words of a text: the pieces between its blanks that are not
    empty, in their order. *)
Definition words (s : string) : list string :=
  filter (fun piece => piece <> EmptyString) (splitBlanks s).

End Tokens.


(** ** DocumentStore.assignRanks: ranks and scores *)

Module Ranks.
Import Rrf.

(** What the ranks of one index are to the scores of that index, over the
    ranked results: a result has a rank exactly when it has a score, the
    ranks run from 1 to the number of scored results, a strictly higher
    score has a strictly smaller rank, and no rank is given twice. *)
Definition ranksFollowScores (score : RawSearchResult -> option Q)
    (rank : RankedResult -> option nat) (ranked : list RankedResult) : Prop :=
  let n := length (filter (fun x => is_Some (score (raw x))) ranked) in
  (forall x, x ∈ ranked -> score (raw x) = None -> rank x = None)
  /\ (forall x, x ∈ ranked -> is_Some (score (raw x)) ->
        exists k, rank x = Some k /\ 1 <= k <= n)
  /\ (forall x y sx sy, x ∈ ranked -> y ∈ ranked ->
        score (raw x) = Some sx -> score (raw y) = Some sy -> (sy < sx)%Q ->
        exists kx ky, rank x = Some kx /\ rank y = Some ky /\ kx < ky)
  /\ (forall x y k, x ∈ ranked -> y ∈ ranked ->
        rank x = Some k -> rank y = Some k -> id (raw x) = id (raw y)).

(** The rank [a] is at least as good as the rank [b]: it is the smaller
    number, or [b] is no rank at all. *)
Definition atLeastAsGood (a b : option nat) : Prop :=
  match a, b with
  | Some x, Some y => (x <= y)%nat
  | _, None => True
  | None, Some _ => False
  end.

End Ranks.


(** ** DocumentStore.addDocuments: the embedding batches *)

Module Batches.
Import Embeddings Store.

(** The characters of a batch, as the loop of [addDocuments] counts
    them. *)
Definition batchChars (batch : list string) : nat :=
  foldr (fun text n => String.length text + n) 0 batch.

(** A batch the loop may send: it is not empty, holds no more texts than
    the batch size allows (one at least), and stays within the character
    budget unless it is a single text. *)
Definition withinLimits (embeddingBatchSize embeddingBatchChars : nat)
    (batch : list string) : Prop :=
  batch <> []
  /\ length batch <= Nat.max 1 embeddingBatchSize
  /\ (batchChars batch <= embeddingBatchChars \/ length batch = 1).

End Batches.


(** ** DocumentStore: the constraints of the schema *)

Module Schema.
Import GreedySplitter Embeddings Store.

(** The constraints the statements rely on: rowids are keys; the columns
    named by the ON CONFLICT clauses of [insertLibrary], [insertVersion]
    and [insertPage] are unique; a version has a name (the empty string
    for the unversioned one); and every row has its parent. *)
Record wellFormed (d : Db) : Prop := {
  library_ids : NoDup (lib_id <$> libraries d);
  library_names : NoDup (lib_name <$> libraries d);
  version_ids : NoDup (ver_id <$> versions d);
  version_names :
    NoDup ((fun v => (ver_library_id v, ver_name v)) <$> versions d);
  version_named : Forall (fun v => is_Some (ver_name v)) (versions d);
  version_library :
    Forall (fun v => Exists (fun l => lib_id l = ver_library_id v) (libraries d))
           (versions d);
  page_ids : NoDup (page_id <$> pages d);
  page_urls :
    NoDup ((fun p => (page_version_id p, page_url p)) <$> pages d);
  page_version :
    Forall (fun p => Exists (fun v => ver_id v = page_version_id p) (versions d))
           (pages d);
  document_ids : NoDup (doc_id <$> documents d);
  document_page : documentsHavePages d;
}.

(** [triple P m Q R]: run on a database that satisfies [P], the
    computation leaves one that satisfies [Q] when it returns and one that
    satisfies [R] when it throws or never settles. *)
Definition triple {A} (P : Db -> Prop) (m : M A) (Q : A -> Db -> Prop)
    (R : Db -> Prop) : Prop :=
  forall w, P (db w) ->
    match m w with
    | (Returns a, w') => Q a (db w')
    | (_, w') => R (db w')
    end.

End Schema.


(** ** DocumentStore: how the methods end *)

Module Outcomes.
Import GreedySplitter Embeddings Store.

(** The call ends, and if it throws, it throws a [ConnectionError] with
    the given message around the cause. *)
Definition endsWrapped {A} (message : string) (outcome : Outcome A) : Prop :=
  match outcome with
  | Returns _ => True
  | Throws error => exists cause, error = ConnectionError message cause
  | Hangs => False
  end.

(** A computation that settles in every world. *)
Definition settles {A} (m : M A) : Prop := forall w, (m w).1 <> Hangs.

(** The chunks of page [pageId] all carry a vector of [dimension]
    numbers. *)
Definition embedded (pageId : Z) (dimension : nat) (d : Db) : Prop :=
  Forall (fun doc => doc_page_id doc = pageId ->
                     exists vector, doc_embedding doc = Some vector
                                    /\ length vector = dimension)
         (documents d).

(** A store with two versions of one library, a page and a chunk each. *)
Definition twoVersionsDb : Db :=
  mkDb [mkLibrary 1 "lib"]
       [mkVersion 1 1 (Some "1.0") "not_indexed";
        mkVersion 2 1 (Some "2.0") "not_indexed"]
       [mkPage 1 1 exampleUrl "Guide" None None None (Some 0);
        mkPage 2 2 exampleUrl "Guide" None None None (Some 0)]
       [mkDocument 1 1 "a" (chunkMetadata (exampleChunk "a")) 0 None;
        mkDocument 2 2 "b" (chunkMetadata (exampleChunk "b")) 0 None].

End Outcomes.


(** ** DocumentStore: looking chunks up *)

Module Lookup.
Import GreedySplitter Embeddings Store Rrf.

(** A row of [documents d JOIN pages p ON d.page_id = p.id] with the
    columns the lookups select.  The [metadata] column is read through
    [json()] and parsed back by [parseMetadata]; it is modelled as the
    record it denotes.  The time stamps are left out. *)
Record DbPageChunk := mkPageChunk {
  pc_id : Z;
  pc_page_id : Z;
  pc_content : string;
  pc_metadata : DbChunkMetadata;
  pc_sort_order : nat;
  pc_embedding : option Vector;
  pc_url : string;
  pc_title : string;
  pc_content_type : option string;
}.

Definition selected (doc : DocumentRow) (p : PageRow) : DbPageChunk :=
  {| pc_id := doc_id doc;
     pc_page_id := doc_page_id doc;
     pc_content := doc_content doc;
     pc_metadata := doc_metadata doc;
     pc_sort_order := doc_sort_order doc;
     pc_embedding := doc_embedding doc;
     pc_url := page_url p;
     pc_title := page_title p;
     pc_content_type := page_content_type p |}.

(** The join of the four tables under
    [l.name = ? AND COALESCE(v.name, '') = COALESCE(?, '')], visited in
    the rowid order of [documents]. *)
Definition chunksOf (library version : string) (d : Db) : list DbPageChunk :=
  doc ← documents d;
  p ← filter (fun p => page_id p = doc_page_id doc
                       /\ pageMatches library version d p) (pages d);
  [selected doc p].

(** The key of [ORDER BY d.sort_order]; the sorts are those of
    [Rrf.sortBy], ascending for [a - b] and descending for [b - a]. *)
Definition sortKey (c : DbPageChunk) : Q := inject_Z (Z.of_nat (pc_sort_order c)).

Definition bySortOrder : DbPageChunk -> DbPageChunk -> Q :=
  fun a b => (sortKey a - sortKey b)%Q.
Definition bySortOrderDesc : DbPageChunk -> DbPageChunk -> Q :=
  fun a b => (sortKey b - sortKey a)%Q.

(** [(SELECT sort_order FROM documents WHERE id = ?)]: NULL without such a
    row, and then no comparison with it holds. *)
Definition sortOrderOf (rowid : Z) (d : Db) : option nat :=
  doc_sort_order <$> findFirst (fun doc => doc_id doc = rowid) (documents d).

(** *** Statements *)

Definition getByIdStmt (rowid : Z) (d : Db) : option DbPageChunk :=
  head (doc ← filter (fun doc => doc_id doc = rowid) (documents d);
        p ← filter (fun p => page_id p = doc_page_id doc) (pages d);
        [selected doc p]).



(** ... ORDER BY d.sort_order DESC LIMIT 1, read with [get]. *)
Definition getParentChunk (library version url : string) (path : list string)
    (rowid : Z) (d : Db) : option DbPageChunk :=
  match sortOrderOf rowid d with
  | None => None
  | Some reference =>
      head (take 1
              (sortBy bySortOrderDesc
                 (filter (fun c => pc_url c = url
                                   /\ md_path (pc_metadata c) = path
                                   /\ (pc_sort_order c < reference)%nat)
                         (chunksOf library version d))))
  end.

Definition chunksByUrl (library version url : string) (d : Db)
    : list DbPageChunk :=
  sortBy bySortOrder
    (filter (fun c => pc_url c = url) (chunksOf library version d)).

Definition deletePageStmt (pageId : Z) (d : Db) : nat * Db :=
  (length (filter (fun p => page_id p = pageId) (pages d)),
   withPages d (filter (fun p => page_id p <> pageId) (pages d))).

(** *** Methods *)

(** A statement that is not among those the log names: it runs, or is
    refused, like any other. *)
Definition statement {A} (run : Db -> A * Db) : M A := fun w =>
  match faultAfter w with
  | Some O => (Throws (JsError "SqliteError"), w)
  | budget =>
      let '(a, d) := run (db w) in
      (Returns a, mkWorld d (log w) (Nat.pred <$> budget))
  end.

Definition select {A} (get : Db -> A) : M A :=
  statement (fun d => (get d, d)).

(** An id is passed as a string; [BigInt(id)] gives the integer it
    denotes and throws a SyntaxError when it denotes none. *)
Definition bigInt (id : option Z) : M Z :=
  match id with
  | Some rowid => mret rowid
  | None => throw (JsError "SyntaxError: Cannot convert to a BigInt")
  end.

Definition getById (id : option Z) : M (option DbPageChunk) :=
  tryCatch
    (rowid ← bigInt id;
     row ← select (getByIdStmt rowid);
     mret row)
    (fun error => throw (ConnectionError "Failed to get document by ID" error)).



(** [path.slice(0, -1)] *)
Definition dropLast (path : list string) : list string :=
  take (length path - 1) path.

Definition findParentChunk (library version : string) (id : option Z)
    : M (option DbPageChunk) :=
  tryCatch
    (child ← getById id;
     match child with
     | None => mret None
     | Some child =>
         let path := md_path (pc_metadata child) in
         let parentPath := dropLast path in
         if (length parentPath =? 0)%nat then mret None
         else
           let normalizedVersion := toLowerCase version in
           rowid ← bigInt id;
           result ← select (getParentChunk (toLowerCase library)
                              normalizedVersion (pc_url child) parentPath rowid);
           mret result
     end)
    (fun error => mret None).

Definition findChunksByUrl (library version url : string)
    : M (list DbPageChunk) :=
  tryCatch
    (let normalizedVersion := toLowerCase version in
     rows ← select (chunksByUrl (toLowerCase library) normalizedVersion url);
     mret rows)
    (fun error =>
       throw (ConnectionError "Failed to fetch documents by URL" error)).

Definition deletePage (pageId : Z) : M unit :=
  tryCatch
    (docResult ← exec SDeleteDocumentsByPageId (deleteDocumentsByPageId pageId);
     pageResult ← statement (deletePageStmt pageId);
     mret tt)
    (fun error => throw (ConnectionError "Failed to delete page" error)).

(** *** Vocabulary of the lookups *)

(** In ascending and in descending order of [sort_order]. *)
Definition rising : DbPageChunk -> DbPageChunk -> Prop :=
  fun a b => (pc_sort_order a <= pc_sort_order b)%nat.
Definition falling : DbPageChunk -> DbPageChunk -> Prop :=
  fun a b => (pc_sort_order b <= pc_sort_order a)%nat.



(** A page with a heading and three chunks under its first section. *)
Definition guideDb : Db :=
  mkDb [mkLibrary 1 "lib"]
       [mkVersion 1 1 (Some "1.0") "not_indexed"]
       [mkPage 1 1 exampleUrl "Guide" None None None (Some 0)]
       [mkDocument 1 1 "Guide" (mkMetadata ["heading"] 1 ["Guide"]) 0 None;
        mkDocument 2 1 "a" (mkMetadata ["text"] 2 ["Guide"; "Install"]) 1 None;
        mkDocument 3 1 "b" (mkMetadata ["code"] 2 ["Guide"; "Install"]) 2 None;
        mkDocument 4 1 "c" (mkMetadata ["text"] 2 ["Guide"; "Install"]) 3 None].

(** What a chunk that is looked up keeps of its input. *)
Definition chunkView (c : DbPageChunk) : string * DbChunkMetadata * nat :=
  (pc_content c, pc_metadata c, pc_sort_order c).

End Lookup.

(** * Properties *)

Local Open Scope nat_scope.

(** ** Strings *)

Module StringFacts.


Lemma append_cons c (a b : string) : String c a +:+ b = String c (a +:+ b).
Proof. reflexivity. Qed.

Lemma append_nil_l (b : string) : EmptyString +:+ b = b.
Proof. reflexivity. Qed.

Lemma length_append (a b : string) :
  String.length (a +:+ b) = String.length a + String.length b.
Proof.
  induction a as [|c a IH]; [done|].
  rewrite append_cons. simpl. by rewrite IH.
Qed.

Lemma append_nil_r (a : string) : a +:+ EmptyString = a.
Proof. induction a as [|c a IH]; [done | by rewrite append_cons, IH]. Qed.

Lemma append_assoc (a b c : string) : (a +:+ b) +:+ c = a +:+ (b +:+ c).
Proof. induction a as [|x a IH]; [done | by rewrite !append_cons, IH]. Qed.

Lemma list_of_append (a b : string) :
  list_ascii_of_string (a +:+ b)
  = list_ascii_of_string a ++ list_ascii_of_string b.
Proof.
  induction a as [|c a IH]; [done|].
  rewrite append_cons. simpl. by rewrite IH.
Qed.

End StringFacts.

(** ** GreedySplitter: sizes of the output chunks *)

Module GreedyFacts.
Import GreedySplitter StringFacts.

Lemma cloneChunk_id c : cloneChunk c = c.
Proof. by destruct c as [t s [l p]]. Qed.

Lemma size_mergeChunks c x : size (mergeChunks c x) = combinedSize c x.
Proof.
  unfold size, combinedSize, mergeChunks, separator, separatorSize, size; simpl.
  rewrite !length_append.
  destruct (JS.endsWith _ _); simpl; lia.
Qed.

Lemma grown_from_size n b : grown_from n b -> size n <= size b.
Proof.
  induction 1 as [|c x _ IH].
  - by rewrite cloneChunk_id.
  - rewrite size_mergeChunks. unfold combinedSize. lia.
Qed.

Lemma grown_from_content n b :
  grown_from n b -> exists rest, content b = content n +:+ rest.
Proof.
  induction 1 as [|c x _ [rest IH]].
  - exists EmptyString. simpl. by rewrite append_nil_r.
  - exists (rest +:+ separator c +:+ content x). simpl. rewrite IH.
    by rewrite append_assoc.
Qed.

Section Neighbours.
Context (R : Chunk -> Chunk -> Prop).

Lemma neighbours_snoc l a b :
  neighbours R (l ++ [a]) -> R a b -> neighbours R (l ++ [a; b]).
Proof.
  induction l as [|x l IH]; simpl; [tauto|].
  destruct l as [|y l]; simpl in *; tauto.
Qed.

Lemma neighbours_last l a a' :
  neighbours R (l ++ [a]) -> (forall z, R z a -> R z a') ->
  neighbours R (l ++ [a']).
Proof.
  intros H Hz. induction l as [|x l IH]; simpl; [tauto|].
  destruct l as [|y l]; simpl in *; [split; [apply Hz|]; tauto|].
  tauto.
Qed.

Lemma neighbours_middle l1 a b l2 :
  neighbours R (l1 ++ a :: b :: l2) -> R a b.
Proof.
  induction l1 as [|x l1 IH]; simpl; [tauto|].
  destruct l1 as [|y l1]; simpl in *; tauto.
Qed.
End Neighbours.

Lemma neighbours_mono (R R' : Chunk -> Chunk -> Prop) l :
  (forall a b, R a b -> R' a b) -> neighbours R l -> neighbours R' l.
Proof.
  intros HR. induction l as [|x l IH]; simpl; [done|].
  destruct l as [|y l]; [done|]. intros [? ?]. split; auto.
Qed.

Section Invariant.
Variables minChunkSize preferredChunkSize maxChunkSize : nat.

Let step := step minChunkSize preferredChunkSize maxChunkSize.

Local Abbreviation within := (GreedySplitter.within maxChunkSize).
Local Abbreviation split_reason :=
  (GreedySplitter.split_reason minChunkSize maxChunkSize).
Local Abbreviation Inv := (GreedySplitter.Inv minChunkSize maxChunkSize).

Lemma within_mono seen x c : within seen c -> within (seen ++ [x]) c.
Proof. unfold within. set_solver. Qed.

Lemma split_reason_mono seen x a b :
  split_reason seen a b -> split_reason (seen ++ [x]) a b.
Proof. intros (n & ? & ?). exists n. set_solver. Qed.

Lemma within_clone seen x : within (seen ++ [x]) (cloneChunk x).
Proof.
  rewrite cloneChunk_id. unfold within.
  destruct (decide (size x <= maxChunkSize)); [by left|].
  right. split; [set_solver | lia].
Qed.

Lemma Inv_push seen out cur x :
  Inv seen (out, Some cur) ->
  (minChunkSize <= size cur \/ hard_limit_rejection maxChunkSize cur x) ->
  Inv (seen ++ [x]) (out ++ [cur], Some (cloneChunk x)).
Proof.
  intros [_ Hw Hs] Hwhy. simpl in *. split; simpl.
  - done.
  - apply Forall_app. split.
    + eapply Forall_impl; [exact Hw|]. intros; by apply within_mono.
    + apply Forall_singleton, within_clone.
  - rewrite <- app_assoc. simpl. apply neighbours_snoc.
    + eapply neighbours_mono; [|exact Hs].
      intros; by apply split_reason_mono.
    + exists x. split; [set_solver|]. split; [constructor | done].
Qed.

Lemma Inv_step seen st x : Inv seen st -> Inv (seen ++ [x]) (step st x).
Proof.
  destruct st as [out [cur|]]; intros HI.
  - unfold step, GreedySplitter.step.
    destruct (maxChunkSize <? combinedSize cur x) eqn:Hmax.
    { apply Inv_push; [done|]. right. by apply Nat.ltb_lt. }
    destruct ((minChunkSize <=? size cur) && startsNewMajorSection x
              && negb (isSameSection cur x)) eqn:Hsec.
    { apply Inv_push; [done|]. left.
      apply andb_prop in Hsec as [Hsec _]. apply andb_prop in Hsec as [Hsec _].
      by apply Nat.leb_le. }
    destruct ((preferredChunkSize <? combinedSize cur x)
              && (minChunkSize <=? size cur) && (minChunkSize <=? size x)) eqn:Hpref.
    { apply Inv_push; [done|]. left.
      apply andb_prop in Hpref as [Hpref _]. apply andb_prop in Hpref as [_ Hpref].
      by apply Nat.leb_le. }
    destruct HI as [_ Hw Hs]. simpl in *.
    apply Nat.ltb_ge in Hmax.
    apply Forall_app in Hw as [Hw _].
    split; simpl.
    + done.
    + apply Forall_app. split.
      * eapply Forall_impl; [exact Hw|]. intros; by apply within_mono.
      * apply Forall_singleton. left. by rewrite size_mergeChunks.
    + eapply neighbours_last.
      * eapply neighbours_mono; [|exact Hs].
        intros; by apply split_reason_mono.
      * intros z (n & ? & ? & ?). exists n. split; [done|].
        split; [by constructor | done].
  - destruct HI as [Hout _ _]. simpl in Hout. rewrite (Hout eq_refl).
    split; simpl.
    + done.
    + apply Forall_singleton, within_clone.
    + done.
Qed.

Lemma Inv_run initialChunks :
  Inv initialChunks (foldl step ([], None) initialChunks).
Proof.
  induction initialChunks as [|x l IH] using rev_ind.
  - split; simpl; auto.
  - rewrite foldl_snoc. by apply Inv_step.
Qed.

End Invariant.

(** C2, as the specification states it, fails on a base chunk that is
    already over the maximum: with a maximum of 2, the three-character
    chunk is returned as it came. *)
Lemma splitText_oversize_counterexample :
  ~ Forall (fun c => size c <= 2)
      (splitText 1 2 2 [mkChunk ["text"] "abc" (mkSection 1 ["Intro"])]).
Proof. intros H. apply Forall_inv in H. vm_compute in H. lia. Qed.

(** C2 (amended): every chunk of the output is within [maxChunkSize]
    unless it is a base chunk that was already over it, which is passed
    through unmerged; and two neighbours of the output that are both
    under [minChunkSize] are separated by a major section boundary or by
    a hard-limit rejection: the right one grew from a base chunk [n]
    whose merge into the left one was refused. *)
Theorem splitText_size_bounds
    (minChunkSize preferredChunkSize maxChunkSize : nat)
    (initialChunks : list Chunk) :
  let output :=
    splitText minChunkSize preferredChunkSize maxChunkSize initialChunks in
  Forall (fun c => size c <= maxChunkSize
                   \/ (c ∈ initialChunks /\ maxChunkSize < size c)) output
  /\ forall l1 a b l2,
       output = l1 ++ a :: b :: l2 ->
       size a < minChunkSize -> size b < minChunkSize ->
       exists n, n ∈ initialChunks /\ grown_from n b
                 /\ (major_section_boundary a n
                     \/ hard_limit_rejection maxChunkSize a n).
Proof.
  intros output.
  destruct (Inv_run minChunkSize preferredChunkSize maxChunkSize initialChunks)
    as [_ Hw Hs].
  split; [exact Hw|].
  intros l1 a b l2 Hout Ha _.
  fold (splitText minChunkSize preferredChunkSize maxChunkSize initialChunks)
    in Hs.
  fold output in Hs. rewrite Hout in Hs.
  apply neighbours_middle in Hs as (n & Hn & Hg & [Hmin | Hhard]).
  - lia.
  - exists n. auto.
Qed.

(** Two undersized neighbours do occur: with a minimum of 5 and a maximum
    of 6 the two four-character chunks cannot be merged. *)
Lemma splitText_size_bounds_witness :
  let a := mkChunk ["text"] "abcd" (mkSection 1 ["A"]) in
  let b := mkChunk ["text"] "efgh" (mkSection 3 ["A"; "B"]) in
  exists n, n ∈ [a; b] /\ grown_from n b
            /\ (major_section_boundary a n \/ hard_limit_rejection 6 a n).
Proof.
  intros a b.
  apply (proj2 (splitText_size_bounds 5 6 6 [a; b]) [] a b []);
    [reflexivity | vm_compute; lia | vm_compute; lia].
Defined.

End GreedyFacts.

(** ** escapeFtsQuery: shape and safety of the emitted query *)

Module FtsFacts.
Import Fts StringFacts.

Lemma lexRun_append q a b : lexRun q (a +:+ b) = lexRun (lexRun q a) b.
Proof. unfold lexRun. by rewrite list_of_append, foldl_app. Qed.

Lemma lexRun_body token :
  lexRun InString (JS.replaceAll JS.dquote twoQuotes token) = InString.
Proof.
  induction token as [|c t IH]; [reflexivity|].
  cbn [JS.replaceAll]. rewrite lexRun_append.
  assert (H : lexRun InString
                (if bool_decide (c = JS.dquote) then twoQuotes else JS.str c)
              = InString).
  { case_bool_decide; [reflexivity|].
    unfold lexRun; simpl. by rewrite bool_decide_false. }
  rewrite H. exact IH.
Qed.

Lemma lexRun_quoteToken token : lexRun ExpectString (quoteToken token) = AfterQuote.
Proof.
  unfold quoteToken. rewrite !lexRun_append.
  change (lexRun ExpectString (JS.str JS.dquote)) with InString.
  by rewrite lexRun_body.
Qed.

Lemma lexRun_terms tokens :
  tokens <> [] ->
  lexRun ExpectString (JS.join " OR " (map quoteToken tokens)) = AfterQuote.
Proof.
  induction tokens as [|t ts IH]; [done|]. intros _.
  destruct ts as [|t' ts]; [apply lexRun_quoteToken|].
  change (JS.join " OR " (map quoteToken (t :: t' :: ts)))
    with (quoteToken t +:+ " OR " +:+ JS.join " OR " (map quoteToken (t' :: ts))).
  rewrite !lexRun_append, lexRun_quoteToken.
  change (lexRun AfterQuote " OR ") with ExpectString.
  by apply IH.
Qed.

(** *** The characters of the tokens *)

(** A string that is written out holds no U+0000. *)
Local Ltac written_out :=
  unfold nulFree; apply (bool_decide_unpack _); vm_compute; reflexivity.

Lemma nulFree_append a b : nulFree (a +:+ b) <-> nulFree a /\ nulFree b.
Proof. unfold nulFree. rewrite list_of_append, not_elem_of_app. tauto. Qed.

Lemma cString_nulFree s : nulFree s -> cString s = s.
Proof.
  unfold nulFree. induction s as [|c s IH]; [done|]. simpl.
  rewrite not_elem_of_cons. intros [Hc Hs].
  rewrite bool_decide_false by done. by rewrite IH.
Qed.

Lemma nulFree_char c : c <> JS.nul -> nulFree (JS.str c).
Proof.
  intros Hc. unfold nulFree. simpl. rewrite not_elem_of_cons.
  split; [done|]. apply not_elem_of_nil.
Qed.

Lemma nulFree_replaceAll token :
  nulFree token -> nulFree (JS.replaceAll JS.dquote twoQuotes token).
Proof.
  induction token as [|c token IH]; [done|]. unfold nulFree at 1.
  cbn [JS.replaceAll list_ascii_of_string]. rewrite not_elem_of_cons.
  intros [Hc Ht]. rewrite nulFree_append. split; [|by apply IH].
  case_bool_decide; [written_out|]. apply nulFree_char. congruence.
Qed.

Lemma nulFree_quoteToken token : nulFree token -> nulFree (quoteToken token).
Proof.
  intros Ht. unfold quoteToken. rewrite !nulFree_append. split_and!.
  - written_out.
  - by apply nulFree_replaceAll.
  - written_out.
Qed.

Lemma nulFree_join sep parts :
  nulFree sep -> Forall nulFree parts -> nulFree (JS.join sep parts).
Proof.
  intros Hsep. induction 1 as [|p ps Hp Hps IH]; [written_out|].
  destruct ps as [|p' ps]; [done|].
  change (JS.join sep (p :: p' :: ps))
    with (p +:+ sep +:+ JS.join sep (p' :: ps)).
  rewrite !nulFree_append. auto.
Qed.

(** No character enters a token that is not in the query. *)
Lemma tokenize_nulFree query : nulFree query -> Forall nulFree (tokenize query).
Proof.
  set (inv := fun st => Forall nulFree (tokens st)
                        /\ nulFree (currentToken st)).
  assert (Hpush : forall st, inv st -> inv (pushCurrent st)).
  { intros st [Ht Hc]. unfold pushCurrent.
    destruct (0 <? String.length (currentToken st))%nat; [|done].
    split; simpl; [|written_out].
    apply Forall_app. split; [done|]. by apply Forall_singleton. }
  assert (Hstep : forall st c, c <> JS.nul -> inv st -> inv (stepChar st c)).
  { intros st c Hc Hst. unfold stepChar.
    case_bool_decide.
    { destruct (inQuote st); apply Hpush in Hst; by destruct Hst. }
    destruct (bool_decide (c = JS.space) && negb (inQuote st));
      [by apply Hpush|].
    destruct Hst as [Ht Hcur]. split; simpl; [done|].
    rewrite nulFree_append. split; [done|]. by apply nulFree_char. }
  assert (Hrun : forall l st,
             JS.nul ∉ l -> inv st -> inv (foldl stepChar st l)).
  { induction l as [|c l IH]; simpl; [done|]. intros st Hl Hst.
    apply not_elem_of_cons in Hl as [Hc Hl]. apply IH; [done|].
    apply Hstep; [congruence|done]. }
  intros Hq. unfold tokenize.
  apply Hpush, Hrun; [exact Hq|]. split; [constructor|written_out].
Qed.

Lemma nulFree_escapeFtsQuery query :
  nulFree query -> nulFree (escapeFtsQuery query).
Proof.
  intros Hq. apply tokenize_nulFree in Hq. unfold escapeFtsQuery.
  destruct (tokenize query) as [|t ts] eqn:Htok; [written_out|].
  cbn [length Nat.eqb].
  assert (Hall : Forall nulFree (map quoteToken (t :: ts))).
  { apply Forall_fmap. eapply Forall_impl; [exact Hq|].
    intros token. apply nulFree_quoteToken. }
  destruct ts as [|t' ts].
  { by apply Forall_cons in Hall as [? _]. }
  remember (t :: t' :: ts) as tokens.
  assert (Hshape : match map quoteToken tokens with
                   | [only] => only
                   | _ => quoteToken (JS.join " " tokens) +:+ " OR "
                          +:+ JS.join " OR " (map quoteToken tokens)
                   end
                   = quoteToken (JS.join " " tokens) +:+ " OR "
                     +:+ JS.join " OR " (map quoteToken tokens))
    by by subst tokens.
  rewrite Hshape, !nulFree_append. split_and!.
  - apply nulFree_quoteToken, nulFree_join; [written_out|done].
  - written_out.
  - apply nulFree_join; [written_out|done].
Qed.

(** For a query without U+0000 the emitted query is a sequence of quoted
    strings, every inner double quote doubled, joined by [OR] only, which
    is a query the FTS5 parser accepts. *)
Lemma escapeFtsQuery_is_quoted (query : string) :
  nulFree query -> quotedOrQuery (escapeFtsQuery query) = true.
Proof.
  intros Hq. unfold quotedOrQuery.
  rewrite cString_nulFree by by apply nulFree_escapeFtsQuery.
  unfold escapeFtsQuery.
  destruct (tokenize query) as [|t ts] eqn:Htok; [done|].
  cbn [length Nat.eqb map].
  destruct ts as [|t' ts]; cbn [map].
  - by rewrite lexRun_quoteToken.
  - rewrite !lexRun_append, lexRun_quoteToken.
    change (lexRun AfterQuote " OR ") with ExpectString.
    change (quoteToken t :: quoteToken t' :: map quoteToken ts)
      with (map quoteToken (t :: t' :: ts)).
    by rewrite lexRun_terms.
Qed.

(** C4 at the failing input, the query [a], U+0000, [b]: it is one token
    and is emitted between double quotes with the U+0000 in it; the engine
    reads the opening quote and [a], and the string is never closed. *)
Theorem escapeFtsQuery_nul_unterminated :
  let query := String "a" (String JS.nul "b") in
  escapeFtsQuery query = wrap query
  /\ cString (escapeFtsQuery query) = String JS.dquote "a"
  /\ lexRun ExpectString (cString (escapeFtsQuery query)) = InString
  /\ quotedOrQuery (escapeFtsQuery query) = false.
Proof. repeat split. Qed.

Lemma clean_pushCurrent st : clean st -> clean (pushCurrent st).
Proof.
  intros [Ht Hc]. unfold pushCurrent.
  destruct (0 <? String.length (currentToken st)) eqn:Hlen; [|done].
  split; simpl; [|unfold hasQuote; simpl; set_solver].
  apply Forall_app. split; [done|]. apply Forall_singleton. split; [done|].
  intros Heq. rewrite Heq in Hlen. done.
Qed.

Lemma clean_setInQuote b st : clean st -> clean (setInQuote b st).
Proof. done. Qed.

Lemma clean_stepChar st c : clean st -> clean (stepChar st c).
Proof.
  intros Hst. unfold stepChar.
  case_bool_decide as Hq.
  { destruct (inQuote st); by apply clean_setInQuote, clean_pushCurrent. }
  destruct (bool_decide (c = JS.space) && negb (inQuote st));
    [by apply clean_pushCurrent|].
  destruct Hst as [Ht Hc]. split; simpl; [done|].
  unfold hasQuote in *. rewrite list_of_append. simpl. set_solver.
Qed.

Lemma tokenize_clean query :
  Forall (fun t => ~ hasQuote t /\ t <> EmptyString) (tokenize query).
Proof.
  unfold tokenize.
  assert (H : forall l st, clean st -> clean (foldl stepChar st l)).
  { induction l as [|c l IH]; simpl; [done|].
    intros st Hst. by apply IH, clean_stepChar. }
  apply clean_pushCurrent, H. split; [constructor|].
  unfold hasQuote. simpl. set_solver.
Qed.

Lemma replaceAll_clean s :
  ~ hasQuote s -> JS.replaceAll JS.dquote twoQuotes s = s.
Proof.
  unfold hasQuote. induction s as [|c s IH]; [done|].
  simpl. intros Hn. rewrite bool_decide_false by set_solver.
  unfold JS.str. rewrite append_cons, append_nil_l, IH; [done | set_solver].
Qed.

Lemma join_clean tokens :
  Forall (fun t => ~ hasQuote t /\ t <> EmptyString) tokens ->
  ~ hasQuote (JS.join " " tokens).
Proof.
  unfold hasQuote.
  induction tokens as [|t ts IH]; [simpl; set_solver|].
  intros Hall. apply Forall_cons in Hall as [[Ht _] Hts].
  destruct ts as [|t' ts]; [done|].
  change (JS.join " " (t :: t' :: ts)) with (t +:+ " " +:+ JS.join " " (t' :: ts)).
  rewrite !list_of_append. specialize (IH Hts).
  unfold hasQuote in Ht. simpl (list_ascii_of_string " ").
  rewrite !elem_of_app, list_elem_of_singleton. intros [?|[?|?]]; [done| |done].
  discriminate.
Qed.

Lemma map_quoteToken_clean tokens :
  Forall (fun t => ~ hasQuote t /\ t <> EmptyString) tokens ->
  map quoteToken tokens = map wrap tokens.
Proof.
  induction 1 as [|t ts [Ht _] _ IH]; [done|]. simpl.
  unfold quoteToken at 1. rewrite replaceAll_clean by done. by rewrite IH.
Qed.

(** The query of the specification's scenario: an opening quote that is
    never closed still ends a word and starts a token. *)
Example tokenize_scenario :
  tokenize ("foo " +:+ JS.str JS.dquote +:+ "bar baz" +:+ JS.str JS.dquote
            +:+ " qux" +:+ JS.str JS.dquote +:+ "unbalanced")
  = ["foo"; "bar baz"; "qux"; "unbalanced"]%string.
Proof. reflexivity. Qed.

Example escapeFtsQuery_scenario :
  escapeFtsQuery ("foo " +:+ JS.str JS.dquote +:+ "bar baz" +:+ JS.str JS.dquote
                  +:+ " qux" +:+ JS.str JS.dquote +:+ "unbalanced")
  = wrap "foo bar baz qux unbalanced" +:+ " OR " +:+ wrap "foo" +:+ " OR "
    +:+ wrap "bar baz" +:+ " OR " +:+ wrap "qux" +:+ " OR " +:+ wrap "unbalanced".
Proof. reflexivity. Qed.

(** The recogniser does reject: a bare word, a string left open, an
    operator other than [OR], a parenthesis. *)
Example quotedOrQuery_rejects :
  quotedOrQuery "foo" = false
  /\ quotedOrQuery (JS.str JS.dquote +:+ "foo") = false
  /\ quotedOrQuery (wrap "foo" +:+ " AND " +:+ wrap "bar") = false
  /\ quotedOrQuery ("(" +:+ wrap "foo" +:+ ")") = false
  /\ quotedOrQuery (wrap "foo" +:+ " OR " +:+ wrap "bar") = true.
Proof. repeat split. Qed.

(** C3 at the failing input, the query [foo bar]: it has two tokens, and
    the emitted query is the three quoted strings joined by [OR] with no
    parenthesis, which is not the shape the claim and the documentation
    of the function show. *)
Theorem escapeFtsQuery_emits_no_parentheses :
  tokenize "foo bar" = ["foo"; "bar"]%string
  /\ escapeFtsQuery "foo bar"
     = wrap "foo bar" +:+ " OR " +:+ wrap "foo" +:+ " OR " +:+ wrap "bar"
  /\ parenthesisedShape (tokenize "foo bar")
     = "(" +:+ wrap "foo bar" +:+ ") OR (" +:+ wrap "foo" +:+ " OR "
       +:+ wrap "bar" +:+ ")"
  /\ escapeFtsQuery "foo bar" <> parenthesisedShape (tokenize "foo bar").
Proof. split_and!; [reflexivity..|vm_compute; discriminate]. Qed.

(** What is emitted instead, for every query: when the query has two
    tokens or more, the quoted exact match, made of the tokens joined by
    one blank, followed by every quoted token, all joined by [OR] and
    without parentheses; no token is empty or holds a double quote, so
    quoting a token puts it between double quotes unchanged. *)
Lemma escapeFtsQuery_shape (query : string) :
  2 <= length (tokenize query) ->
  escapeFtsQuery query
  = wrap (JS.join " " (tokenize query)) +:+ " OR "
    +:+ JS.join " OR " (map wrap (tokenize query))
  /\ escapeFtsQuery query
     = quoteToken (JS.join " " (tokenize query)) +:+ " OR "
       +:+ JS.join " OR " (map quoteToken (tokenize query))
  /\ Forall (fun t => ~ hasQuote t /\ t <> EmptyString) (tokenize query).
Proof.
  intros Hlen. pose proof (tokenize_clean query) as Hclean.
  split; [|split; [|done]];
    [|unfold escapeFtsQuery;
      by destruct (tokenize query) as [|t [|t' ts]]; simpl in Hlen; try lia].
  unfold escapeFtsQuery.
  destruct (tokenize query) as [|t [|t' ts]] eqn:Htok; simpl in Hlen; try lia.
  cbn [length Nat.eqb].
  change (map quoteToken (t :: t' :: ts))
    with (quoteToken t :: quoteToken t' :: map quoteToken ts).
  cbv iota beta.
  change (quoteToken t :: quoteToken t' :: map quoteToken ts)
    with (map quoteToken (t :: t' :: ts)).
  rewrite map_quoteToken_clean by done.
  unfold quoteToken. rewrite replaceAll_clean; [done|].
  by apply join_clean.
Qed.

Lemma escapeFtsQuery_shape_witness :
  2 <= length (tokenize "foo bar")
  /\ escapeFtsQuery "foo bar"
     = wrap "foo bar" +:+ " OR " +:+ (wrap "foo" +:+ " OR " +:+ wrap "bar").
Proof.
  assert (Hlen : 2 <= length (tokenize "foo bar")) by (vm_compute; lia).
  split; [exact Hlen|].
  exact (proj1 (escapeFtsQuery_shape "foo bar" Hlen)).
Defined.

End FtsFacts.

(** ** Rank fusion: what candidates are ranked, and how ties are ordered *)

Module RrfFacts.
Import Rrf.

Section SortFacts.
Context {A : Type} (key : A -> Q).

(** The comparator of both sorts: descending by [key]. *)
Let cmp (a b : A) : Q := (key b - key a)%Q.

Lemma insertBy_tied q x l :
  filter (tied key q) (insertBy cmp x l) = filter (tied key q) (x :: l).
Proof.
  induction l as [|y l IH]; [done|]. simpl.
  destruct (Qle_bool (cmp x y) 0) eqn:Hle; [done|].
  rewrite filter_cons, IH, !filter_cons.
  destruct (decide (tied key q y)) as [Hy|]; [|done].
  destruct (decide (tied key q x)) as [Hx|]; [|done].
  exfalso. unfold tied in *. apply Qeq_bool_iff in Hx, Hy.
  assert (Hfalse : Qle_bool (cmp x y) 0 = true);
    [|by rewrite Hfalse in Hle].
  apply Qle_bool_iff. unfold cmp. lra.
Qed.

(** Stability: the sort leaves every group of equal keys in the order
    it had. *)
Lemma sortBy_tied q l : filter (tied key q) (sortBy cmp l) = filter (tied key q) l.
Proof.
  induction l as [|x l IH]; [done|]. simpl.
  by rewrite insertBy_tied, !filter_cons, IH.
Qed.

Lemma insertBy_perm x l : insertBy cmp x l ≡ₚ x :: l.
Proof.
  induction l as [|y l IH]; [done|]. simpl.
  destruct (Qle_bool (cmp x y) 0); [done|].
  by rewrite IH, Permutation_swap.
Qed.

Lemma sortBy_perm l : sortBy cmp l ≡ₚ l.
Proof.
  induction l as [|x l IH]; [done|]. simpl.
  by rewrite insertBy_perm, IH.
Qed.

Lemma insertBy_sorted x l :
  StronglySorted (descending key) l -> StronglySorted (descending key) (insertBy cmp x l).
Proof.
  induction 1 as [|y l Hl IH Hy]; simpl.
  - repeat constructor.
  - destruct (Qle_bool (cmp x y) 0) eqn:Hle.
    + apply Qle_bool_iff in Hle. unfold cmp in Hle.
      constructor; [by constructor|].
      constructor; [unfold descending; lra|].
      eapply Forall_impl; [exact Hy|]. unfold descending. intros; lra.
    + constructor; [done|].
      rewrite insertBy_perm. constructor; [|done].
      unfold descending.
      destruct (Qlt_le_dec (key x) (key y)) as [?|Hge]; [lra|].
      assert (Hfalse : Qle_bool (cmp x y) 0 = true);
        [|by rewrite Hfalse in Hle].
      apply Qle_bool_iff. unfold cmp. lra.
Qed.

Lemma sortBy_sorted l : StronglySorted (descending key) (sortBy cmp l).
Proof.
  induction l as [|x l IH]; simpl; [constructor | by apply insertBy_sorted].
Qed.
End SortFacts.

Lemma filter_take {A} (P : A -> Prop) `{!forall x, Decision (P x)} n (l : list A) :
  exists k, filter P (take n l) = take k (filter P l).
Proof.
  revert n. induction l as [|x l IH]; intros [|n]; simpl;
    try (by exists 0).
  destruct (IH n) as [k Hk]. rewrite !filter_cons.
  destruct (decide (P x)); [exists (S k); simpl; by rewrite Hk | by exists k].
Qed.

Section Ascending.
Context {A : Type} (f : A -> Z).

Lemma ascending_cons x l :
  ascending f (x :: l) <-> Forall (fun y => (f x < f y)%Z) l /\ ascending f l.
Proof.
  unfold ascending. rewrite fmap_cons, StronglySorted_cons, Forall_fmap. done.
Qed.

Lemma ascending_filter (P : A -> Prop) `{!forall x, Decision (P x)} l :
  ascending f l -> ascending f (filter P l).
Proof.
  induction l as [|x l IH]; [done|].
  rewrite ascending_cons, filter_cons. intros [Hx Hl].
  destruct (decide (P x)); [|by apply IH].
  apply ascending_cons. split; [|by apply IH].
  apply Forall_forall. intros y Hy. apply list_elem_of_filter in Hy as [_ Hy].
  by eapply Forall_forall in Hx.
Qed.

Lemma ascending_take n l : ascending f l -> ascending f (take n l).
Proof.
  revert n. induction l as [|x l IH]; intros [|n]; simpl;
    try (intros; by constructor).
  rewrite !ascending_cons. intros [Hx Hl]. split; [|by apply IH].
  apply Forall_forall. intros y Hy.
  apply elem_of_take in Hy as (i & Hi & _).
  eapply Forall_forall in Hx; [done|]. by eapply list_elem_of_lookup_2.
Qed.
End Ascending.

(** The fold of [forEach]: an id gets a rank as soon as one of the sorted
    results carries it, and keeps one from then on. *)
Lemma ranks_fold_keeps (f : nat -> RawSearchResult -> nat * RawSearchResult)
    l (ranks : gmap Z nat) k :
  is_Some (ranks !! k) ->
  is_Some (foldl (fun (m : gmap Z nat) '(index, result) =>
                    <[id result := index + 1]> m) ranks (imap f l) !! k).
Proof.
  revert f ranks. induction l as [|x l IH]; intros f ranks Hk; [done|].
  simpl. apply IH. destruct (f 0 x) as [i r].
  destruct (decide (id r = k)) as [->|Hne].
  - rewrite lookup_insert_eq. by eexists.
  - by rewrite lookup_insert_ne.
Qed.

Lemma ranks_fold_covers l (ranks : gmap Z nat) i0 r :
  r ∈ l ->
  is_Some (foldl (fun (m : gmap Z nat) '(index, result) =>
                    <[id result := index + 1]> m) ranks
             (imap (fun i x => (i0 + i, x)) l) !! id r).
Proof.
  revert ranks i0. induction l as [|x l IH]; intros ranks i0 Hr.
  { by apply elem_of_nil in Hr. }
  apply elem_of_cons in Hr as [->|Hr]; simpl.
  - apply ranks_fold_keeps. rewrite lookup_insert_eq. by eexists.
  - specialize (IH (<[id x := i0 + 0 + 1]> ranks) (S i0) Hr).
    erewrite imap_ext; [exact IH|]. intros; simpl. f_equal. lia.
Qed.

Lemma ranksBy_covers score results r :
  r ∈ results -> is_Some (score r) ->
  is_Some (ranksBy score results !! id r).
Proof.
  intros Hr Hs. unfold ranksBy.
  apply (ranks_fold_covers _ ∅ 0).
  rewrite (sortBy_perm (fun x => orZero (score x))).
  by apply list_elem_of_filter.
Qed.

(** Both score columns of the hybrid statement are never NULL. *)
Lemma hybridSelect_scores rows vec_distances fts_scores :
  Forall (fun r => is_Some (vec_score r) /\ is_Some (fts_score r))
         (hybridSelect rows vec_distances fts_scores).
Proof.
  apply Forall_forall. intros r Hr. unfold hybridSelect in Hr.
  apply list_elem_of_omap in Hr as (row & _ & Hrow).
  destruct (_ && _) in Hrow; [|done].
  injection Hrow as <-. simpl. split; by eexists.
Qed.

(** Hence every candidate of the hybrid search gets a rank in both
    indexes, whether or not it appears in them. *)
Lemma findByContentHybrid_both_ranks wv wf limit rows vec_distances fts_scores :
  Forall (fun r => is_Some (vec_rank r) /\ is_Some (fts_rank r))
         (findByContentHybrid wv wf limit rows vec_distances fts_scores).
Proof.
  unfold findByContentHybrid, topResults.
  apply Forall_take.
  rewrite (sortBy_perm rrf_score).
  unfold assignRanks. apply Forall_fmap, Forall_forall. intros r Hr. simpl.
  pose proof (hybridSelect_scores rows vec_distances fts_scores) as Hs.
  eapply Forall_forall in Hs as [? ?]; [|exact Hr].
  split; by apply ranksBy_covers.
Qed.

(** The score is the fusion formula applied to the two ranks. *)
Lemma calculateRRF_fused weightVec weightFts vecRank ftsRank :
  (calculateRRF weightVec weightFts vecRank ftsRank
   == fusedScore weightVec weightFts vecRank ftsRank)%Q.
Proof.
  unfold calculateRRF, fusedScore. destruct vecRank, ftsRank; simpl; ring.
Qed.

Lemma ranks_fold_other (f : nat -> RawSearchResult -> nat * RawSearchResult)
    l (ranks : gmap Z nat) k :
  (forall i x, (f i x).2 = x) ->
  k ∉ id <$> l ->
  foldl (fun (m : gmap Z nat) '(index, result) =>
           <[id result := index + 1]> m) ranks (imap f l) !! k
  = ranks !! k.
Proof.
  intros Hf. revert f Hf ranks. induction l as [|x l IH]; intros f Hf ranks Hk;
    [done|].
  simpl. rewrite IH.
  - specialize (Hf 0 x). destruct (f 0 x) as [i r]. simpl in Hf. subst r.
    apply lookup_insert_ne. set_solver.
  - intros i y. apply Hf.
  - set_solver.
Qed.

(** The rank of a result is its 1-based position in the sorted list. *)
Lemma ranks_fold_position l (ranks : gmap Z nat) i0 i r :
  NoDup (id <$> l) -> l !! i = Some r ->
  foldl (fun (m : gmap Z nat) '(index, result) =>
           <[id result := index + 1]> m) ranks
    (imap (fun j x => (i0 + j, x)) l) !! id r
  = Some (i0 + i + 1).
Proof.
  revert ranks i0 i. induction l as [|x l IH]; intros ranks i0 i Hnd Hi; [done|].
  apply NoDup_cons in Hnd as [Hx Hnd]. destruct i as [|i]; simpl in *.
  - injection Hi as ->. rewrite ranks_fold_other by done.
    by rewrite lookup_insert_eq.
  - erewrite imap_ext; [rewrite (IH _ (S i0) i Hnd Hi); f_equal; lia|].
    intros; simpl. f_equal. lia.
Qed.

Lemma ranksBy_position score results i r :
  NoDup (id <$> results) ->
  sortBy (fun a b => (orZero (score b) - orZero (score a))%Q)
    (filter (fun r => is_Some (score r)) results) !! i = Some r ->
  ranksBy score results !! id r = Some (i + 1).
Proof.
  intros Hnd Hi. unfold ranksBy.
  apply (ranks_fold_position _ ∅ 0); [|done].
  rewrite (sortBy_perm (fun x => orZero (score x))).
  eapply sublist_NoDup; [exact Hnd|]. apply fmap_sublist, sublist_filter.
Qed.

(** The returned list is in descending order of the fused score, holds at
    most [limit] results, and every result in it is a ranked candidate. *)
Lemma StronglySorted_take {A} (R : A -> A -> Prop) n (l : list A) :
  StronglySorted R l -> StronglySorted R (take n l).
Proof.
  intros Hl. rewrite <- (take_drop n l) in Hl.
  by apply StronglySorted_app_1_l in Hl.
Qed.

Lemma topResults_sorted weightVec weightFts limit rawResults :
  StronglySorted (descending rrf_score)
    (topResults weightVec weightFts limit rawResults)
  /\ length (topResults weightVec weightFts limit rawResults)
     = Nat.min limit (length rawResults)
  /\ topResults weightVec weightFts limit rawResults
     ⊆ assignRanks weightVec weightFts rawResults.
Proof.
  unfold topResults. split_and!.
  - apply StronglySorted_take, (sortBy_sorted rrf_score).
  - rewrite length_take, (sortBy_perm rrf_score). unfold assignRanks.
    by rewrite length_fmap.
  - intros r Hr. apply elem_of_take in Hr as (i & Hi & _).
    apply list_elem_of_lookup_2 in Hi.
    by rewrite (sortBy_perm rrf_score) in Hi.
Qed.

(** Each candidate's ranks are its 1-based positions in the two lists
    sorted by descending score, and its score is the fusion formula on
    those ranks. *)
Lemma assignRanks_ranks weightVec weightFts rawResults r :
  NoDup (id <$> rawResults) ->
  r ∈ assignRanks weightVec weightFts rawResults ->
  (rrf_score r == fusedScore weightVec weightFts (vec_rank r) (fts_rank r))%Q
  /\ (forall i,
        sortBy (fun a b => (orZero (vec_score b) - orZero (vec_score a))%Q)
          (filter (fun x => is_Some (vec_score x)) rawResults) !! i = Some (raw r) ->
        vec_rank r = Some (i + 1))
  /\ (forall i,
        sortBy (fun a b => (orZero (fts_score b) - orZero (fts_score a))%Q)
          (filter (fun x => is_Some (fts_score x)) rawResults) !! i = Some (raw r) ->
        fts_rank r = Some (i + 1)).
Proof.
  intros Hnd Hr. unfold assignRanks in Hr.
  apply list_elem_of_fmap in Hr as (x & -> & Hx). simpl.
  split_and!.
  - apply calculateRRF_fused.
  - intros i Hi. by apply ranksBy_position.
  - intros i Hi. by apply ranksBy_position.
Qed.

(** C5 at the failing input: chunk 2 is returned by the vector index
    only, yet it gets the FTS rank 2 and the FTS term is added to its
    score. *)
Theorem findByContent_ranks_absent_candidate :
  leftJoin absentFts 2 = None
  /\ (fun r => (id (raw r), vec_rank r, fts_rank r))
       <$> findByContentHybrid 1 1 5 absentRows absentVec absentFts
     = [(1%Z, Some 2, Some 1); (2%Z, Some 1, Some 2)]
  /\ Forall (fun r => id (raw r) = 2%Z ->
                      ~ (rrf_score r == fusedScore 1 1 (vec_rank r) None)%Q)
            (findByContentHybrid 1 1 5 absentRows absentVec absentFts).
Proof.
  split; [reflexivity|]. split; [reflexivity|].
  vm_compute. repeat constructor; intros; discriminate.
Qed.

(** C6, as the specification states it, fails: chunk 1 has ranks 1 and 2,
    chunk 2 has ranks 2 and 1, the scores are equal, and the chunks come
    back in the order of the rows, chunk 2 first. *)
Lemma tie_by_ascending_id_counterexample :
  exists a b,
    findByContentHybrid 1 1 5 tieRows tieVec tieFts = [a; b]
    /\ (rrf_score a == rrf_score b)%Q
    /\ (vec_rank a, fts_rank a) = (Some 2, Some 1)
    /\ (vec_rank b, fts_rank b) = (Some 1, Some 2)
    /\ (id (raw b) < id (raw a))%Z.
Proof.
  eexists _, _. split; [vm_compute; reflexivity|].
  split; [reflexivity|]. split; [reflexivity|]. split; [reflexivity|].
  reflexivity.
Qed.

End RrfFacts.

(** ** Equal fused scores *)

Module DoubleFacts.
Import PrimFloat FloatOps FloatAxioms SpecFloat Doubles.

(** *** The difference of equal numbers *)

Lemma SFcompare_Eq_finite sx mx ex sy my ey :
  SFcompare (S754_finite sx mx ex) (S754_finite sy my ey) = Some Eq ->
  sx = sy /\ mx = my /\ ex = ey.
Proof.
  simpl. destruct sx, sy; try discriminate;
    destruct (Z.compare ex ey) eqn:He; try discriminate;
    apply Z.compare_eq in He; intros [= Hm].
  - apply (f_equal CompOpp) in Hm. rewrite CompOpp_involutive in Hm.
    simpl in Hm. apply Pos.compare_eq in Hm. auto.
  - apply Pos.compare_eq in Hm. auto.
Qed.

Lemma SFsub_diag_finite s m e :
  SF64sub (S754_finite s m e) (S754_finite s m e) = S754_zero false.
Proof. unfold SF64sub, SFsub. cbv zeta. rewrite Z.sub_diag. reflexivity. Qed.

Lemma SFeqb_sub_not_positive X Y :
  SFeqb X Y = true -> SFltb (S754_zero false) (SF64sub Y X) = false.
Proof.
  unfold SFeqb. destruct (SFcompare X Y) as [[| |]|] eqn:Hc; try discriminate.
  intros _.
  destruct X as [sx|sx| |sx mx ex], Y as [sy|sy| |sy my ey];
    try discriminate Hc;
    try (destruct sx, sy; try discriminate Hc; reflexivity).
  apply SFcompare_Eq_finite in Hc as (-> & -> & ->).
  by rewrite SFsub_diag_finite.
Qed.

(** The comparator [b - a] does not send [a] behind a [b] that is the
    same number: the difference is a zero, or NaN for two infinities. *)
Lemma tiedScores_not_positive a b :
  tiedScores a b -> ltb zero (sub (rrf_score b) (rrf_score a)) = false.
Proof.
  unfold tiedScores. rewrite eqb_spec, ltb_spec, sub_spec.
  change (Prim2SF zero) with (S754_zero false).
  apply SFeqb_sub_not_positive.
Qed.

(** *** The stable sort *)

Section SortFacts.
Context {A : Type} (cmp : A -> A -> float).

Lemma insertBy_split x l :
  exists l1 l2,
    insertBy cmp x l = l1 ++ x :: l2 /\ l = l1 ++ l2
    /\ Forall (fun y => ltb zero (cmp x y) = true) l1.
Proof.
  induction l as [|y l (l1 & l2 & Hins & Hl & Hall)]; simpl.
  - by exists [], [].
  - destruct (ltb zero (cmp x y)) eqn:Hxy.
    + exists (y :: l1), l2. rewrite Hins, Hl. by repeat constructor.
    + by exists [], (y :: l).
Qed.

Lemma sortBy_permutes l : sortBy cmp l ≡ₚ l.
Proof.
  induction l as [|x l IH]; [done|]. simpl.
  destruct (insertBy_split x (sortBy cmp l)) as (l1 & l2 & -> & Hl & _).
  rewrite <- IH, Hl. by rewrite Permutation_middle.
Qed.

(** An element is never moved behind a later one that the comparator
    does not put first. *)
Lemma sortBy_keeps_pair l x y :
  [x; y] `sublist_of` l -> ltb zero (cmp x y) = false ->
  [x; y] `sublist_of` sortBy cmp l.
Proof.
  intros Hsub Hxy. induction l as [|z l IH]; [by apply sublist_nil_r in Hsub|].
  simpl.
  destruct (insertBy_split z (sortBy cmp l)) as (l1 & l2 & -> & Hl & Hall).
  apply sublist_cons_r in Hsub as [Hsub|(rest & [= -> <-] & Hsub)].
  - etrans; [by apply IH|]. rewrite Hl.
    apply sublist_app; [done|]. by apply sublist_cons.
  - apply sublist_inserts_l. apply sublist_skip.
    assert (Hy : y ∈ l1 ++ l2).
    { rewrite <- Hl, sortBy_permutes. eapply elem_of_sublist; [|exact Hsub].
      by left. }
    apply elem_of_app in Hy as [Hy|Hy].
    + rewrite Forall_forall in Hall. specialize (Hall y Hy). congruence.
    + apply list_elem_of_split in Hy as (k1 & k2 & ->).
      apply sublist_inserts_l, sublist_skip, sublist_nil_l.
Qed.

End SortFacts.

Lemma sublist_of_lookups {A} (l : list A) i j a b :
  l !! i = Some a -> l !! j = Some b -> i < j -> [a; b] `sublist_of` l.
Proof.
  intros Hi Hj Hlt.
  rewrite <- (take_drop_middle l i a Hi).
  apply sublist_inserts_l, sublist_skip.
  assert (Hb : b ∈ drop (S i) l).
  { apply list_elem_of_lookup. exists (j - S i).
    rewrite lookup_drop. rewrite <- Hj. f_equal. lia. }
  apply list_elem_of_split in Hb as (k1 & k2 & ->).
  apply sublist_inserts_l, sublist_skip, sublist_nil_l.
Qed.

Lemma lookups_of_sublist {A} (l : list A) a b :
  [a; b] `sublist_of` l ->
  exists i j, i < j /\ l !! i = Some a /\ l !! j = Some b.
Proof.
  induction l as [|z l IH]; intros Hsub; [by apply sublist_nil_r in Hsub|].
  apply sublist_cons_r in Hsub as [Hsub|(rest & [= -> <-] & Hsub)].
  - destruct (IH Hsub) as (i & j & Hlt & Hi & Hj).
    exists (S i), (S j). split; [lia|done].
  - assert (Hb : b ∈ l) by (eapply elem_of_sublist; [|exact Hsub]; by left).
    apply list_elem_of_lookup in Hb as [j Hj].
    exists 0, (S j). split; [lia|done].
Qed.

Lemma ascending_lookups (ids : list Z) i j x y :
  StronglySorted Z.lt ids ->
  ids !! i = Some x -> ids !! j = Some y -> i < j -> (x < y)%Z.
Proof.
  intros Hasc. revert i j.
  induction Hasc as [|z ids Hids IH Hz]; intros i j Hi Hj Hlt; [done|].
  destruct i as [|i], j as [|j]; try lia; simpl in *.
  - injection Hi as <-. rewrite Forall_forall in Hz. apply Hz.
    by eapply list_elem_of_lookup_2.
  - apply (IH i j); [done|done|lia].
Qed.

(** *** Equal scores *)

Lemma assignRanks_rows weightVec weightFts rawResults :
  raw <$> assignRanks weightVec weightFts rawResults = rawResults.
Proof.
  unfold assignRanks. rewrite <- list_fmap_compose. apply list_fmap_id.
Qed.

(** C6 (amended): the sort by fused score is stable and compares nothing
    but the scores, so of two results whose scores are the same number
    the one whose row the statement returned first comes back first: when
    the later one is among the results returned, the earlier one is, and
    before it.  That is the one with the smaller id when the statement
    returns its rows in ascending id order.  The rows have distinct ids
    and no score is NaN. *)
Theorem topResults_ties_keep_row_order
    (weightVec weightFts : float) (limit : nat)
    (rawResults : list RawSearchResult) (i j : nat) (a b : RankedResult) :
  let ranked := assignRanks weightVec weightFts rawResults in
  let returned := topResults weightVec weightFts limit rawResults in
  NoDup (id <$> rawResults) ->
  Forall (fun r => is_nan (rrf_score r) = false) ranked ->
  ranked !! i = Some a -> ranked !! j = Some b -> i < j ->
  tiedScores a b ->
  raw <$> ranked = rawResults
  /\ (forall j', returned !! j' = Some b ->
                 exists i', i' < j' /\ returned !! i' = Some a)
  /\ (StronglySorted Z.lt (id <$> rawResults) ->
      (id (raw a) < id (raw b))%Z).
Proof.
  intros ranked returned Hnd _ Hi Hj Hlt Hab%tiedScores_not_positive.
  assert (Hraw : raw <$> ranked = rawResults) by apply assignRanks_rows.
  split; [done|]. split.
  - intros j' Hj'. subst returned. unfold topResults in *. fold ranked in Hj' |- *.
    set (sorted := sortBy (fun a b => sub (rrf_score b) (rrf_score a)) ranked)
      in *.
    assert (Hsub : [a; b] `sublist_of` sorted).
    { apply sortBy_keeps_pair; [|done]. by eapply sublist_of_lookups. }
    destruct (lookups_of_sublist _ _ _ Hsub) as (i0 & j0 & Hlt0 & Hi0 & Hj0).
    apply lookup_take_Some in Hj' as [Hj' Hlim].
    assert (Hsorted : NoDup sorted).
    { subst sorted. rewrite sortBy_permutes.
      apply (NoDup_fmap_1 (fun r => id (raw r))).
      rewrite (list_fmap_compose raw id), Hraw. exact Hnd. }
    assert (j0 = j') as -> by (eapply NoDup_lookup; eauto).
    exists i0. split; [done|]. rewrite lookup_take_lt by lia. done.
  - intros Hasc.
    assert (Hida : (id <$> rawResults) !! i = Some (id (raw a))).
    { rewrite <- Hraw, <- list_fmap_compose, list_lookup_fmap. by rewrite Hi. }
    assert (Hidb : (id <$> rawResults) !! j = Some (id (raw b))).
    { rewrite <- Hraw, <- list_fmap_compose, list_lookup_fmap. by rewrite Hj. }
    by eapply ascending_lookups.
Qed.

Lemma topResults_ties_keep_row_order_witness :
  let ranked := assignRanks 1 1 mirrored in
  let returned := topResults 1 1 5 mirrored in
  NoDup (id <$> mirrored)
  /\ Forall (fun r => is_nan (rrf_score r) = false) ranked
  /\ (exists a b,
        ranked !! 0 = Some a /\ ranked !! 1 = Some b /\ tiedScores a b
        /\ (vec_rank a, fts_rank a) = (Some 1, Some 2)
        /\ (vec_rank b, fts_rank b) = (Some 2, Some 1)
        /\ (id (raw b) < id (raw a))%Z
        /\ forall j', returned !! j' = Some b ->
                      exists i', i' < j' /\ returned !! i' = Some a).
Proof.
  intros ranked returned.
  assert (Hnd : NoDup (id <$> mirrored))
    by (apply (bool_decide_unpack _); reflexivity).
  assert (Hnan : Forall (fun r => is_nan (rrf_score r) = false) ranked)
    by (repeat constructor).
  split; [exact Hnd|]. split; [exact Hnan|].
  destruct (ranked !! 0) as [a|] eqn:Ha; [|discriminate Ha].
  destruct (ranked !! 1) as [b|] eqn:Hb; [|discriminate Hb].
  assert (Htie : tiedScores a b).
  { injection Ha as <-. injection Hb as <-. reflexivity. }
  exists a, b. split; [reflexivity|]. split; [reflexivity|].
  split; [exact Htie|].
  split; [by injection Ha as <-|]. split; [by injection Hb as <-|].
  split; [injection Ha as <-; by injection Hb as <-|].
  exact (proj1 (proj2 (topResults_ties_keep_row_order 1 1 5 mirrored 0 1 a b
                         Hnd Hnan Ha Hb ltac:(lia) Htie))).
Defined.

(** Scores that are equal as fractions need not be equal as the code
    computes them: with the weights 3 and 1 the ranks (3, 18) and (5, 10)
    both give 11/182, and the second comes out larger. *)
Example fused_scores_are_rounded :
  ltb (calculateRRF 3 1 (Some 3) (Some 18)) (calculateRRF 3 1 (Some 5) (Some 10))
  = true.
Proof. reflexivity. Qed.

End DoubleFacts.

(** ** embedDocumentsWithRetry: splitting, order, other errors *)

Module EmbeddingFacts.
Import Embeddings StringFacts.

Lemma substring_prefix m (s : string) :
  String.length (String.substring 0 m s) = Nat.min m (String.length s)
  /\ isPrefixOf (String.substring 0 m s) s.
Proof.
  revert m. induction s as [|c s IH]; intros [|m]; simpl;
    try (split; [done | by eexists]).
  destruct (IH m) as [Hlen [rest Hrest]]. split; [by rewrite Hlen|].
  exists rest. rewrite append_cons. by f_equal.
Qed.

Lemma isPrefixOf_trans a b c : isPrefixOf a b -> isPrefixOf b c -> isPrefixOf a c.
Proof.
  intros [r1 ->] [r2 ->]. exists (r1 +:+ r2). by rewrite append_assoc.
Qed.

Lemma retryMeasure_app a b : retryMeasure (a ++ b) = retryMeasure a + retryMeasure b.
Proof.
  unfold retryMeasure. rewrite length_app, foldr_app.
  induction a as [|t a IH]; simpl; [lia|]. simpl in IH. lia.
Qed.

Lemma retryMeasure_pos texts : texts <> [] -> 0 < retryMeasure texts.
Proof. destruct texts; [done|]. unfold retryMeasure. simpl. lia. Qed.

Lemma retryMeasure_halves texts :
  1 < length texts ->
  let midpoint := length texts / 2 in
  retryMeasure (take midpoint texts) < retryMeasure texts
  /\ retryMeasure (drop midpoint texts) < retryMeasure texts.
Proof.
  intros Hlen midpoint.
  assert (Hmid : 0 < midpoint < length texts).
  { subst midpoint. split.
    - apply Nat.div_str_pos. lia.
    - apply Nat.div_lt; lia. }
  rewrite <- (take_drop midpoint texts) at 2 4.
  rewrite retryMeasure_app.
  assert (0 < retryMeasure (take midpoint texts)).
  { apply retryMeasure_pos. intros E. apply (f_equal length) in E.
    rewrite length_take in E. simpl in E. lia. }
  assert (0 < retryMeasure (drop midpoint texts)).
  { apply retryMeasure_pos. intros E. apply (f_equal length) in E.
    rewrite length_drop in E. simpl in E. lia. }
  lia.
Qed.

Lemma retryMeasure_truncated text :
  text <> EmptyString ->
  retryMeasure [String.substring 0 (String.length text / 2) text]
  < retryMeasure [text].
Proof.
  intros Hne. unfold retryMeasure. cbn [length foldr].
  destruct (substring_prefix (String.length text / 2) text) as [-> _].
  assert (0 < String.length text) by (destruct text; [done | simpl; lia]).
  assert (String.length text / 2 < String.length text)
    by (apply Nat.div_lt; lia).
  lia.
Qed.

Section Retry.
Variable embedDocuments : list string -> Outcome (list Vector).
Variable schedule : list string -> Schedule.

Local Abbreviation embedRetry := (Embeddings.embedRetry embedDocuments schedule).
Local Abbreviation embedDocumentsWithRetry :=
  (Embeddings.embedDocumentsWithRetry embedDocuments schedule).

(** A refused batch that holds only the empty text is retried as it is,
    for ever. *)
Lemma embedRetry_empty_text error fuel :
  embedDocuments [EmptyString] = Throws error ->
  isInputSizeError error = true ->
  (embedRetry fuel [EmptyString]).1 = Hangs.
Proof.
  intros He Hsize. induction fuel as [|fuel IH]; simpl; rewrite He, Hsize;
    [done|].
  simpl in IH. change (String.substring 0 (0 / 2) "") with EmptyString.
  destruct (embedRetry fuel [EmptyString]) as [r calls]. simpl in *. done.
Qed.

(** Fuel beyond the measure does not change how the call ends. *)
Lemma embedRetry_fuel texts fuel1 fuel2 :
  retryMeasure texts <= fuel1 -> retryMeasure texts <= fuel2 ->
  (embedRetry fuel1 texts).1 = (embedRetry fuel2 texts).1.
Proof.
  remember (retryMeasure texts) as m eqn:Hm.
  revert texts Hm fuel1 fuel2.
  induction m as [m IH] using lt_wf_ind. intros texts -> fuel1 fuel2 H1 H2.
  destruct texts as [|text rest]; [by destruct fuel1, fuel2|].
  assert (Hpos : 0 < retryMeasure (text :: rest))
    by (by apply retryMeasure_pos).
  destruct fuel1 as [|fuel1]; [lia|]. destruct fuel2 as [|fuel2]; [lia|].
  cbn [Embeddings.embedRetry].
  destruct (embedDocuments (text :: rest)) as [vs|error|] eqn:Hembed;
    [done| |done].
  destruct (isInputSizeError error) eqn:Hsize; [|done].
  destruct (1 <? length (text :: rest)) eqn:Hlen.
  - apply Nat.ltb_lt in Hlen.
    destruct (retryMeasure_halves (text :: rest) Hlen) as [Hl Hr].
    cbv zeta in Hl, Hr.
    pose proof (IH _ Hl _ eq_refl fuel1 fuel2 ltac:(lia) ltac:(lia)) as E1.
    pose proof (IH _ Hr _ eq_refl fuel1 fuel2 ltac:(lia) ltac:(lia)) as E2.
    destruct (embedRetry fuel1 (take _ _)), (embedRetry fuel2 (take _ _)),
      (embedRetry fuel1 (drop _ _)), (embedRetry fuel2 (drop _ _)).
    simpl in *. by rewrite E1, E2.
  - apply Nat.ltb_ge in Hlen. simpl in Hlen.
    assert (rest = []) as -> by (destruct rest; [done | simpl in Hlen; lia]).
    destruct (decide (text = EmptyString)) as [->|Hne].
    + change (String.substring 0 (String.length "" / 2) "") with EmptyString.
      pose proof (embedRetry_empty_text error fuel1 Hembed Hsize) as E1.
      pose proof (embedRetry_empty_text error fuel2 Hembed Hsize) as E2.
      destruct (embedRetry fuel1 [EmptyString]), (embedRetry fuel2 [EmptyString]).
      simpl in *. congruence.
    + pose proof (retryMeasure_truncated text Hne) as Hlt.
      pose proof (IH _ Hlt _ eq_refl fuel1 fuel2 ltac:(lia) ltac:(lia)) as E.
      destruct (embedRetry fuel1 [_]), (embedRetry fuel2 [_]). simpl in *. done.
Qed.

Lemma embedDocumentsWithRetry_fuel texts fuel :
  retryMeasure texts <= fuel ->
  (embedRetry fuel texts).1 = (embedDocumentsWithRetry texts).1.
Proof. intros. by apply embedRetry_fuel. Qed.

(** Unless the client itself never answers, or refuses the empty text
    for its size, the call settles. *)
Lemma embedDocumentsWithRetry_settles texts :
  (forall batch, embedDocuments batch <> Hangs) ->
  (forall error, embedDocuments [EmptyString] = Throws error ->
                 isInputSizeError error = false) ->
  (embedDocumentsWithRetry texts).1 <> Hangs.
Proof.
  intros Hanswers Hempty. unfold Embeddings.embedDocumentsWithRetry.
  remember (retryMeasure texts) as m eqn:Hm. revert texts Hm.
  induction m as [m IH] using lt_wf_ind. intros texts ->.
  destruct texts as [|text rest]; [by destruct (retryMeasure [])|].
  assert (Hpos : 0 < retryMeasure (text :: rest))
    by (by apply retryMeasure_pos).
  destruct (retryMeasure (text :: rest)) as [|fuel] eqn:Hfuel; [lia|].
  cbn [Embeddings.embedRetry].
  destruct (embedDocuments (text :: rest)) as [vs|error|] eqn:Hembed;
    [done| |by apply Hanswers in Hembed].
  destruct (isInputSizeError error) eqn:Hsize; [|done].
  destruct (1 <? length (text :: rest)) eqn:Hlen.
  - apply Nat.ltb_lt in Hlen.
    destruct (retryMeasure_halves (text :: rest) Hlen) as [Hl Hr].
    cbv zeta in Hl, Hr. rewrite Hfuel in Hl, Hr.
    pose proof (IH _ Hl _ eq_refl) as E1.
    pose proof (IH _ Hr _ eq_refl) as E2.
    rewrite (embedRetry_fuel _ _ fuel) in E1 by lia.
    rewrite (embedRetry_fuel _ _ fuel) in E2 by lia.
    destruct (embedRetry fuel (take _ _)) as [[]], (embedRetry fuel (drop _ _)) as [[]];
      simpl in *; done.
  - apply Nat.ltb_ge in Hlen. simpl in Hlen.
    assert (rest = []) as -> by (destruct rest; [done | simpl in Hlen; lia]).
    destruct (decide (text = EmptyString)) as [->|Hne].
    + apply Hempty in Hembed. congruence.
    + pose proof (retryMeasure_truncated text Hne) as Hlt.
      rewrite Hfuel in Hlt.
      pose proof (IH _ Hlt _ eq_refl) as E.
      rewrite (embedRetry_fuel _ _ fuel) in E by lia.
      destruct (embedRetry fuel [_]). simpl in *. done.
Qed.

Lemma answered_nil_inv vectors :
  answeredInOrder embedDocuments [] vectors -> vectors = [].
Proof.
  inversion 1 as [|batch vs rest vs' Hne He Hrest Happ|]; [done|].
  apply app_eq_nil in Happ as [-> ->]. by destruct Hne.
Qed.

Lemma answered_app texts1 vectors1 texts2 vectors2 :
  answeredInOrder embedDocuments texts1 vectors1 ->
  answeredInOrder embedDocuments texts2 vectors2 ->
  answeredInOrder embedDocuments (texts1 ++ texts2) (vectors1 ++ vectors2).
Proof.
  induction 1 as [|batch vs rest vs' Hne He _ IH
                  |text part vs rest vs' Hp He _ IH]; intros H2; [done| |].
  - rewrite <- !app_assoc. constructor; auto.
  - rewrite <- app_assoc. simpl. econstructor; eauto.
Qed.

Lemma answered_truncate part text vectors :
  isPrefixOf part text ->
  answeredInOrder embedDocuments [part] vectors ->
  answeredInOrder embedDocuments [text] vectors.
Proof.
  intros Hp.
  inversion 1 as [|batch vs rest vs' Hne He Hrest Happ
                  |text' part' vs rest vs' Hp' He Hrest]; subst.
  - destruct batch as [|b batch]; [done|].
    injection Happ as -> Happ. apply app_eq_nil in Happ as [-> ->].
    apply answered_nil_inv in Hrest as ->.
    apply (answered_truncated _ text part vs [] []); [done|done|constructor].
  - apply answered_nil_inv in Hrest as ->.
    apply (answered_truncated _ text part' vs [] []); [|done|constructor].
    by eapply isPrefixOf_trans.
Qed.

(** The vectors come back in the order of the texts. *)
Lemma embedRetry_in_order fuel texts vectors :
  (embedRetry fuel texts).1 = Returns vectors ->
  answeredInOrder embedDocuments texts vectors.
Proof.
  revert texts vectors. induction fuel as [|fuel IH]; intros texts vectors;
    (destruct texts as [|text rest];
     [simpl; intros [= <-]; constructor|]);
    cbn [Embeddings.embedRetry];
    destruct (embedDocuments (text :: rest)) as [vs|error|] eqn:Hembed;
    try done;
    try (simpl; intros [= <-];
         rewrite <- (app_nil_r (text :: rest)), <- (app_nil_r vs);
         by constructor; [|exact Hembed|constructor]);
    destruct (isInputSizeError error) eqn:Hsize; try done.
  destruct (1 <? length (text :: rest)) eqn:Hlen.
  - pose proof (IH (take (length (text :: rest) / 2) (text :: rest))) as IH1.
    pose proof (IH (drop (length (text :: rest) / 2) (text :: rest))) as IH2.
    destruct (embedRetry fuel (take _ _)) as [[v1| |] c1],
      (embedRetry fuel (drop _ _)) as [[v2| |] c2]; simpl; try done.
    intros [= <-].
    rewrite <- (take_drop (length (text :: rest) / 2) (text :: rest)) at 1.
    apply answered_app; [by apply IH1 | by apply IH2].
  - apply Nat.ltb_ge in Hlen. simpl in Hlen.
    assert (rest = []) as -> by (destruct rest; [done | simpl in Hlen; lia]).
    pose proof (IH [String.substring 0 (String.length text / 2) text]) as IH1.
    destruct (embedRetry fuel [_]) as [r c]. simpl. intros ->.
    eapply answered_truncate; [|by apply IH1].
    apply substring_prefix.
Qed.

(** C9: a batch refused for its size is cut in the middle and both
    halves are retried the same way, at the same time: the call ends as
    [Promise.all] of the two retries does, with the rejection that arrives
    first when both are rejected.  A single refused text is retried on
    its first half only, the vectors come back in the order of the texts,
    and any other error is thrown again after the one call. *)
Theorem embedDocumentsWithRetry_splits (texts : list string) :
  (forall vectors,
      (embedDocumentsWithRetry texts).1 = Returns vectors ->
      answeredInOrder embedDocuments texts vectors)
  /\ forall error,
      embedDocuments texts = Throws error ->
      (isInputSizeError error = false -> texts <> [] ->
       embedDocumentsWithRetry texts = (Throws error, [texts]))
      /\ (isInputSizeError error = true -> 1 < length texts ->
          let midpoint := length texts / 2 in
          (embedDocumentsWithRetry texts).1
          = match promiseAll2 (firstRejectsFirst (schedule texts))
                    (embedDocumentsWithRetry (take midpoint texts)).1
                    (embedDocumentsWithRetry (drop midpoint texts)).1 with
            | Returns (firstEmbeddings, secondEmbeddings) =>
                Returns (firstEmbeddings ++ secondEmbeddings)
            | Throws e => Throws e
            | Hangs => Hangs
            end)
      /\ (isInputSizeError error = true ->
          forall text, texts = [text] ->
          (embedDocumentsWithRetry [text]).1
          = (embedDocumentsWithRetry
               [String.substring 0 (String.length text / 2) text]).1).
Proof.
  split; [intros vectors; apply embedRetry_in_order|].
  intros error Hembed. repeat split.
  - intros Hsize Hne. unfold Embeddings.embedDocumentsWithRetry.
    destruct texts as [|text rest]; [done|].
    destruct (retryMeasure (text :: rest));
      cbn [Embeddings.embedRetry]; by rewrite Hembed, Hsize.
  - intros Hsize Hlen midpoint.
    destruct (retryMeasure_halves texts Hlen) as [Hl Hr].
    fold midpoint in Hl, Hr.
    unfold Embeddings.embedDocumentsWithRetry at 1.
    destruct texts as [|text rest]; [simpl in Hlen; lia|].
    destruct (retryMeasure (text :: rest)) as [|fuel]; [lia|].
    cbn [Embeddings.embedRetry]. rewrite Hembed, Hsize.
    apply Nat.ltb_lt in Hlen. rewrite Hlen. fold midpoint.
    rewrite <- (embedDocumentsWithRetry_fuel (take _ _) fuel) by lia.
    rewrite <- (embedDocumentsWithRetry_fuel (drop _ _) fuel) by lia.
    destruct (embedRetry fuel (take _ _)), (embedRetry fuel (drop _ _)).
    done.
  - intros Hsize text ->.
    destruct (decide (text = EmptyString)) as [->|Hne]; [done|].
    pose proof (retryMeasure_truncated text Hne) as Hlt.
    unfold Embeddings.embedDocumentsWithRetry at 1.
    destruct (retryMeasure [text]) as [|fuel]; [lia|].
    cbn [Embeddings.embedRetry]. rewrite Hembed, Hsize.
    change (1 <? length [text]) with false. cbv iota.
    rewrite <- (embedDocumentsWithRetry_fuel [_] fuel) by lia.
    by destruct (embedRetry fuel [_]).
Qed.

End Retry.

(** When both halves are rejected, the error is the one that arrives
    first. *)
Example embedDocumentsWithRetry_first_rejection :
  (embedDocumentsWithRetry quarrelClient inOrder ["a"; "b"]%string).1
  = Throws (JsError "no a")
  /\ (embedDocumentsWithRetry quarrelClient (fun _ => mkSchedule false [])
        ["a"; "b"]%string).1
     = Throws (JsError "no b").
Proof. split; reflexivity. Qed.

(** A client that takes at most four characters a batch: the batch of
    two texts is split, and the two vectors come back in order. *)
Lemma embedDocumentsWithRetry_splits_witness :
  embedDocumentsWithRetry (sizeLimitedClient 4) inOrder ["ab"; "cde"]%string
  = (Returns [[2%Q]; [3%Q]], [["ab"; "cde"]; ["ab"]; ["cde"]]%string)
  /\ answeredInOrder (sizeLimitedClient 4) ["ab"; "cde"]%string [[2%Q]; [3%Q]].
Proof.
  split; [reflexivity|].
  apply (proj1 (embedDocumentsWithRetry_splits (sizeLimitedClient 4) inOrder
                  ["ab"; "cde"]%string)).
  reflexivity.
Defined.

End EmbeddingFacts.

(** ** The store: ingest, removal, and what a failed ingest leaves *)

Module StoreFacts.
Import GreedySplitter Embeddings Store.

(** *** Running a method to its return *)

Lemma bind_returns {A B} (m : M A) (k : A -> M B) w b w' :
  (m ≫= k) w = (Returns b, w') ->
  exists a w1, m w = (Returns a, w1) /\ k a w1 = (Returns b, w').
Proof.
  unfold mbind, M_bind. destruct (m w) as [[a|e|] w1]; try done. eauto.
Qed.

Lemma bind_runs {A B} (m : M A) (k : A -> M B) w a w1 :
  m w = (Returns a, w1) -> (m ≫= k) w = k a w1.
Proof. intros Hm. unfold mbind, M_bind. by rewrite Hm. Qed.

Lemma mret_returns {A} (a b : A) (w w' : World) :
  (mret a : M A) w = (Returns b, w') -> a = b /\ w = w'.
Proof. by intros [= -> ->]. Qed.

Lemma exec_returns {A} s (run : Db -> A * Db) w a w' :
  exec s run w = (Returns a, w') ->
  a = (run (db w)).1 /\ db w' = (run (db w)).2 /\ log w' = log w ++ [Ran s].
Proof.
  unfold exec. destruct (faultAfter w) as [[|n]|];
    destruct (run (db w)) as [a' d]; by intros [= <- <-].
Qed.

Lemma query_returns {A} s (get : Db -> A) w a w' :
  query s get w = (Returns a, w') ->
  a = get (db w) /\ db w' = db w /\ log w' = log w ++ [Ran s].
Proof. intros H. by apply exec_returns in H. Qed.

Lemma rethrow_returns {A} (body : M A) (wrap : Thrown -> Thrown) w a w' :
  tryCatch body (fun error => throw (wrap error)) w = (Returns a, w') ->
  body w = (Returns a, w').
Proof. unfold tryCatch. by destruct (body w) as [[?|?|] ?]. Qed.

Lemma transaction_returns {A} (fn : M A) w a w' :
  transaction fn w = (Returns a, w') ->
  exists w1, fn (emit [Begin] w) = (Returns a, w1) /\ db w' = db w1.
Proof.
  unfold transaction. destruct (fn _) as [[?|?|] w1]; try done.
  intros [= <- <-]. eauto.
Qed.

Lemma transaction_throws {A} (fn : M A) w e w' :
  transaction fn w = (Throws e, w') -> db w' = db w.
Proof.
  unfold transaction. destruct (fn _) as [[?|?|] w1]; try done.
  by intros [= <- <-].
Qed.

(** *** Running a method to an exception *)

Lemma bind_throws {A B} (m : M A) (k : A -> M B) w e w' :
  (m ≫= k) w = (Throws e, w') ->
  m w = (Throws e, w')
  \/ exists a w1, m w = (Returns a, w1) /\ k a w1 = (Throws e, w').
Proof.
  unfold mbind, M_bind. destruct (m w) as [[a|e0|] w1] eqn:Hm.
  2: { intros [= -> ->]. by left. }
  2: { intros H. discriminate H. }
  intros H. right. exists a, w1. by split.
Qed.

Lemma exec_throws {A} s (run : Db -> A * Db) w e w' :
  exec s run w = (Throws e, w') -> db w' = db w.
Proof.
  unfold exec. destruct (faultAfter w) as [[|n]|];
    destruct (run (db w)) as [a d]; try done. by intros [= _ <-].
Qed.

Lemma rethrow_throws {A} (body : M A) (wrap : Thrown -> Thrown) w e w' :
  tryCatch body (fun error => throw (wrap error)) w = (Throws e, w') ->
  exists e0, body w = (Throws e0, w').
Proof.
  unfold tryCatch, throw. destruct (body w) as [[?|e0|] w1]; try done.
  intros [= _ <-]. eauto.
Qed.

Lemma exec_no_fault {A} s (run : Db -> A * Db) w :
  faultAfter w = None ->
  exec s run w
  = (Returns (run (db w)).1, mkWorld (run (db w)).2 (log w ++ [Ran s]) None).
Proof. unfold exec. intros ->. by destruct (run (db w)). Qed.

(** *** The first row of a SELECT *)

Section FindFirst.
Context {A : Type} (P : A -> Prop) `{!forall x, Decision (P x)}.

Lemma findFirst_Some l x : findFirst P l = Some x -> P x /\ x ∈ l.
Proof.
  induction l as [|y l IH]; [done|]. simpl.
  destruct (decide (P y)).
  - intros [= ->]. split; [done | by left].
  - intros Hfind. destruct (IH Hfind). split; [done | by right].
Qed.

Lemma findFirst_None l : findFirst P l = None <-> Forall (fun x => ~ P x) l.
Proof.
  induction l as [|y l IH]; simpl; [by split; [constructor|]|].
  rewrite Forall_cons. destruct (decide (P y)); [|tauto].
  split; [done | tauto].
Qed.

Lemma findFirst_Exists l : Exists P l -> is_Some (findFirst P l).
Proof.
  intros HE. destruct (findFirst P l) eqn:Hf; [by eexists|].
  apply findFirst_None in Hf. apply Exists_exists in HE as (x & Hx & HP).
  by eapply Forall_forall in Hf.
Qed.

Lemma findFirst_app_r l1 l2 :
  findFirst P l1 = None -> findFirst P (l1 ++ l2) = findFirst P l2.
Proof.
  induction l1 as [|y l1 IH]; [done|]. simpl. by destruct (decide (P y)).
Qed.

Lemma findFirst_fmap (f : A -> A) l :
  (forall x, P (f x) <-> P x) ->
  findFirst P (f <$> l) = f <$> findFirst P l.
Proof.
  intros Hf. induction l as [|y l IH]; [done|]. simpl.
  destruct (decide (P (f y))) as [Hfy|Hfy], (decide (P y)) as [Hy|Hy];
    try done.
  - exfalso. apply Hy. by apply Hf.
  - exfalso. apply Hfy. by apply Hf.
Qed.
End FindFirst.

(** *** Filters that keep everything or nothing *)

Lemma filter_all {A} (P : A -> Prop) `{!forall x, Decision (P x)} (l : list A) :
  Forall P l -> filter P l = l.
Proof.
  induction 1 as [|x l Hx _ IH]; [done|].
  by rewrite filter_cons_True, IH.
Qed.

Lemma filter_none {A} (P : A -> Prop) `{!forall x, Decision (P x)} (l : list A) :
  Forall (fun x => ~ P x) l -> filter P l = [].
Proof.
  induction 1 as [|x l Hx _ IH]; [done|].
  by rewrite filter_cons_False.
Qed.

(** *** Rowids *)

Lemma nextRowid_fresh (ids : list Z) x : x ∈ ids -> (x < nextRowid ids)%Z.
Proof.
  unfold nextRowid. induction ids as [|y ids IH]; [by intros ?%elem_of_nil|].
  intros [->|Hx]%elem_of_cons; simpl; [lia|]. specialize (IH Hx). lia.
Qed.

(** *** What a document keeps when its embedding is written *)

Lemma view4_insertEmbedding embedding rowid d :
  view4 <$> documents (insertEmbedding embedding rowid d).2
  = view4 <$> documents d.
Proof.
  simpl. rewrite <- list_fmap_compose. apply list_fmap_ext.
  intros i doc _. simpl. by case_bool_decide.
Qed.

Lemma view4_page_ids' (docs : list DocumentRow) views :
  view4 <$> docs = views ->
  doc_page_id <$> docs
  = (fun v : Z * string * DbChunkMetadata * nat => v.1.1.1) <$> views.
Proof. intros <-. by rewrite <- list_fmap_compose. Qed.

Lemma rows_of_views pageId (docs : list DocumentRow) views :
  view4 <$> docs = views ->
  rowView <$> filter (fun doc => doc_page_id doc = pageId) docs
  = (fun v : Z * string * DbChunkMetadata * nat => (v.1.1.2, v.1.2, v.2))
      <$> filter (fun v => v.1.1.1 = pageId) views.
Proof.
  intros <-. induction docs as [|doc docs IH]; [done|].
  rewrite fmap_cons, !filter_cons. simpl.
  destruct (decide (doc_page_id doc = pageId)); [|done].
  rewrite !fmap_cons. by f_equal.
Qed.

Lemma imap_index {A} (l : list A) k :
  imap (fun i _ => k + i) l = seq k (length l).
Proof.
  revert k. induction l as [|x l IH]; intros k; [done|]. simpl.
  rewrite Nat.add_0_r. f_equal. rewrite <- IH. apply imap_ext.
  intros; simpl; lia.
Qed.

Lemma expectedRows_sort_order chunks :
  (fun row : string * DbChunkMetadata * nat => row.2) <$> expectedRows chunks
  = seq 0 (length chunks).
Proof.
  unfold expectedRows. rewrite fmap_imap, <- (imap_index chunks 0).
  by apply imap_ext.
Qed.

Lemma rowView_sortOrdersDense pageId d d' :
  rowView <$> documentsOfPage pageId d' = rowView <$> documentsOfPage pageId d ->
  sortOrdersDense pageId d -> sortOrdersDense pageId d'.
Proof.
  unfold sortOrdersDense. intros Hrows Hd.
  assert (Hso : forall l : list DocumentRow,
             doc_sort_order <$> l
             = (fun row : string * DbChunkMetadata * nat => row.2)
                 <$> (rowView <$> l)).
  { intros l. by rewrite <- list_fmap_compose. }
  rewrite (Hso (documentsOfPage pageId d')), Hrows, <- Hso, Hd.
  f_equal. apply (f_equal length) in Hrows. by rewrite !length_fmap in Hrows.
Qed.

Section Methods.
Variable isVectorSearchEnabled : bool.
Variable embedDocuments : list string -> Outcome (list Vector).
Variable schedule : list string -> Schedule.
Variables dbDimension embeddingBatchSize embeddingBatchChars : nat.

Local Abbreviation addDocuments :=
  (Store.addDocuments isVectorSearchEnabled embedDocuments schedule dbDimension
     embeddingBatchSize embeddingBatchChars).

Lemma addDocuments_no_chunks library version depth result w r w' :
  chunks result = [] ->
  addDocuments library version depth result w = (r, w') ->
  r = Returns tt /\ w' = w.
Proof.
  intros Hnone. unfold Store.addDocuments, tryCatch. rewrite Hnone.
  by intros [= <- <-].
Qed.

(** C10: with no chunks the call returns at once; it runs no statement
    and sends nothing to the embedding client, so the database, and with
    it the page and the chunks stored for the URL, is as before. *)
Theorem addDocuments_empty_is_noop
    (library version : string) (depth : nat) (result : ScrapeResult)
    (w : World) :
  chunks result = [] ->
  addDocuments library version depth result w = (Returns tt, w).
Proof.
  intros Hnone. unfold Store.addDocuments, tryCatch. by rewrite Hnone.
Qed.

(** **** The embedding phase leaves the database alone *)

Lemma keepsDb_bind {A B} (m : M A) (k : A -> M B) :
  keepsDb m -> (forall a, keepsDb (k a)) -> keepsDb (m ≫= k).
Proof.
  intros Hm Hk w. unfold mbind, M_bind. specialize (Hm w).
  destruct (m w) as [[a|e|] w1]; simpl in *; [|done|done].
  by rewrite Hk.
Qed.

Lemma keepsDb_embedLogged texts :
  keepsDb (embedLogged embedDocuments schedule texts).
Proof.
  intros w. unfold embedLogged.
  by destruct (embedDocumentsWithRetry embedDocuments schedule texts).
Qed.

Lemma keepsDb_padVector vector : keepsDb (padVector dbDimension vector).
Proof.
  unfold padVector. destruct (dbDimension <? length vector); [done|].
  by destruct (length vector =? dbDimension).
Qed.

Lemma keepsDb_padAll rawEmbeddings : keepsDb (padAll dbDimension rawEmbeddings).
Proof.
  induction rawEmbeddings as [|v l IH]; [done|]. simpl.
  apply keepsDb_bind; [apply keepsDb_padVector|]. intros padded.
  apply keepsDb_bind; [exact IH|]. intros others. done.
Qed.

Lemma keepsDb_embedBatches texts currentBatch currentBatchSize rawEmbeddings :
  keepsDb (embedBatches embedDocuments schedule embeddingBatchSize embeddingBatchChars
             texts currentBatch currentBatchSize rawEmbeddings).
Proof.
  revert currentBatch currentBatchSize rawEmbeddings.
  induction texts as [|text rest IH]; intros cb cbs raw; simpl.
  - destruct (0 <? length cb); [|done].
    apply keepsDb_bind; [apply keepsDb_embedLogged | done].
  - apply keepsDb_bind.
    { destruct (_ && _); [|done].
      apply keepsDb_bind; [apply keepsDb_embedLogged | done]. }
    intros [[cb1 cbs1] raw1].
    apply keepsDb_bind.
    { destruct (_ <=? _); [|done].
      apply keepsDb_bind; [apply keepsDb_embedLogged | done]. }
    intros [[cb2 cbs2] raw2]. apply IH.
Qed.

(** **** resolveVersionId *)

Lemma insertLibrary_frame name d :
  versions (insertLibrary name d).2 = versions d
  /\ pages (insertLibrary name d).2 = pages d
  /\ documents (insertLibrary name d).2 = documents d
  /\ is_Some (getLibraryIdByName name (insertLibrary name d).2).
Proof.
  unfold insertLibrary, getLibraryIdByName. case_bool_decide as HE; simpl.
  - repeat split. apply fmap_is_Some. by apply findFirst_Exists.
  - repeat split. apply fmap_is_Some, findFirst_Exists.
    apply Exists_app. right. by constructor.
Qed.

Lemma insertVersion_frame libraryId name d :
  libraries (insertVersion libraryId name d).2 = libraries d
  /\ pages (insertVersion libraryId name d).2 = pages d
  /\ documents (insertVersion libraryId name d).2 = documents d
  /\ is_Some (resolveVersionIdStmt libraryId name (insertVersion libraryId name d).2).
Proof.
  unfold insertVersion, resolveVersionIdStmt. case_bool_decide as HE; simpl.
  - repeat split. apply fmap_is_Some. by apply findFirst_Exists.
  - repeat split. apply fmap_is_Some, findFirst_Exists.
    apply Exists_app. right. by constructor.
Qed.

Lemma resolveVersionId_returns library version w versionId w1 :
  resolveVersionId library version w = (Returns versionId, w1) ->
  pages (db w1) = pages (db w)
  /\ documents (db w1) = documents (db w)
  /\ exists libraryId,
      getLibraryIdByName (toLowerCase library) (db w1) = Some libraryId
      /\ resolveVersionIdStmt libraryId
           (denormalizeVersionName (toLowerCase version)) (db w1)
         = Some versionId.
Proof.
  unfold resolveVersionId. intros H.
  apply bind_returns in H as (n1 & wa & Ha & H). apply exec_returns in Ha as (_ & Hda & _).
  apply bind_returns in H as (row & wb & Hb & H). apply query_returns in Hb as (-> & Hdb & _).
  destruct (getLibraryIdByName _ (db wa)) as [libraryId|] eqn:Hlib; [|done].
  apply bind_returns in H as (n2 & wc & Hc & H). apply exec_returns in Hc as (_ & Hdc & _).
  apply bind_returns in H as (row & wd & Hd & H). apply query_returns in Hd as (-> & Hdd & _).
  destruct (resolveVersionIdStmt _ _ (db wc)) as [vid|] eqn:Hver; [|done].
  apply mret_returns in H as [-> ->].
  destruct (insertLibrary_frame (toLowerCase library) (db w)) as (_ & Hp1 & Hd1 & _).
  destruct (insertVersion_frame libraryId
              (denormalizeVersionName (toLowerCase version)) (db wb))
    as (Hl2 & Hp2 & Hd2 & _).
  split; [by rewrite Hdd, Hdc, Hp2, Hdb, Hda, Hp1|].
  split; [by rewrite Hdd, Hdc, Hd2, Hdb, Hda, Hd1|].
  exists libraryId. split; [|by rewrite Hdd].
  unfold getLibraryIdByName in *. by rewrite Hdd, Hdc, Hl2, Hdb.
Qed.

(** **** The page upsert and the chunk inserts *)

Lemma insertPage_frame versionId url title etag lastModified contentType depth d :
  let d' := (insertPage versionId url title etag lastModified contentType
               depth d).2 in
  libraries d' = libraries d /\ versions d' = versions d
  /\ documents d' = documents d
  /\ getPageId versionId url d'
     = Some (default (nextRowid (page_id <$> pages d))
                     (getPageId versionId url d))
  /\ (forall p, p ∈ pages d -> Exists (fun p' => page_id p' = page_id p) (pages d')).
Proof.
  unfold insertPage, getPageId. case_bool_decide as HE; simpl.
  - repeat split.
    + rewrite findFirst_fmap.
      * destruct (findFirst_Exists _ _ HE) as [p Hp]. rewrite Hp. simpl.
        apply findFirst_Some in Hp as [Hp _].
        by rewrite bool_decide_true.
      * intros p. case_bool_decide as Hp; simpl; tauto.
    + intros p Hp. apply Exists_exists.
      eexists. split; [by apply list_elem_of_fmap_2|].
      by case_bool_decide.
  - repeat split.
    + assert (Hnone : findFirst (fun p => page_version_id p = versionId
                                        /\ page_url p = url) (pages d) = None).
      { apply findFirst_None, Forall_forall. intros p Hp HP.
        apply HE, Exists_exists. eauto. }
      rewrite findFirst_app_r, Hnone by done. simpl.
      by rewrite decide_True.
    + intros p Hp. apply Exists_exists. exists p. split; [|done].
      apply elem_of_app. by left.
Qed.

Lemma insertChunks_returns pageId paddedEmbeddings chunks :
  forall i docIndex w w',
    insertChunks isVectorSearchEnabled pageId paddedEmbeddings i docIndex
      chunks w = (Returns tt, w') ->
    libraries (db w') = libraries (db w)
    /\ versions (db w') = versions (db w)
    /\ pages (db w') = pages (db w)
    /\ view4 <$> documents (db w')
       = (view4 <$> documents (db w))
         ++ imap (fun k chunk =>
                    (pageId, content chunk, chunkMetadata chunk, i + k))
                 chunks.
Proof.
  induction chunks as [|chunk rest IH]; intros i docIndex w w' H.
  { apply mret_returns in H as [_ <-]. by rewrite app_nil_r. }
  cbn [insertChunks] in H.
  apply bind_returns in H as (rowId & wa & Ha & H).
  apply exec_returns in Ha as (_ & Hda & _).
  apply bind_returns in H as ([] & wb & Hb & H).
  assert (Hdb : libraries (db wb) = libraries (db wa)
                /\ versions (db wb) = versions (db wa)
                /\ pages (db wb) = pages (db wa)
                /\ view4 <$> documents (db wb) = view4 <$> documents (db wa)).
  { destruct (isVectorSearchEnabled && (0 <? length paddedEmbeddings)).
    - apply bind_returns in Hb as (n & wc & Hc & Hb).
      apply mret_returns in Hb as [_ <-].
      apply exec_returns in Hc as (_ & -> & _).
      repeat split. apply view4_insertEmbedding.
    - by apply mret_returns in Hb as [_ <-]. }
  destruct Hdb as (Hl & Hv & Hp & Hd).
  apply IH in H as (Hl' & Hv' & Hp' & Hd').
  rewrite Hl', Hv', Hp', Hd', Hl, Hv, Hp, Hd, Hda. simpl.
  repeat split. rewrite fmap_app, <- app_assoc. simpl.
  f_equal. unfold view4 at 1. simpl. rewrite Nat.add_0_r. f_equal.
  apply imap_ext. intros k c _. simpl. f_equal. lia.
Qed.

(** **** addDocuments, when it returns *)

Lemma keepsDb_run {A} (m : M A) w r w1 :
  keepsDb m -> m w = (r, w1) -> db w1 = db w.
Proof. intros Hm Hrun. specialize (Hm w). by rewrite Hrun in Hm. Qed.

Lemma addDocuments_returns library version depth result w w' :
  chunks result <> [] ->
  documentsHavePages (db w) ->
  addDocuments library version depth result w = (Returns tt, w') ->
  exists libraryId versionId pageId,
    getLibraryIdByName (toLowerCase library) (db w') = Some libraryId
    /\ resolveVersionIdStmt libraryId
         (denormalizeVersionName (toLowerCase version)) (db w')
       = Some versionId
    /\ getPageId versionId (url result) (db w') = Some pageId
    /\ (forall p, p ∈ pages (db w) ->
                  Exists (fun p' => page_id p' = page_id p) (pages (db w')))
    /\ view4 <$> documents (db w')
       = (view4 <$> filter (fun doc => doc_page_id doc <> pageId)
                           (documents (db w)))
         ++ imap (fun k chunk =>
                    (pageId, content chunk, chunkMetadata chunk, k))
                 (chunks result).
Proof.
  intros Hchunks Hfk H. apply rethrow_returns in H.
  destruct (length (chunks result) =? 0) eqn:Hlen.
  { apply Nat.eqb_eq in Hlen. by destruct (chunks result). }
  apply bind_returns in H as (paddedEmbeddings & we & He & H).
  assert (Hdbe : db we = db w).
  { destruct isVectorSearchEnabled.
    - eapply keepsDb_run; [|exact He].
      apply keepsDb_bind; [apply keepsDb_embedBatches|].
      intros raw. apply keepsDb_padAll.
    - by apply mret_returns in He as [_ <-]. }
  apply bind_returns in H as (versionId & w1 & H1 & H).
  apply resolveVersionId_returns in H1 as (Hp1 & Hd1 & libraryId & Hlib & Hver).
  rewrite Hdbe in Hp1, Hd1.
  apply bind_returns in H as (existingPage & w2 & H2 & H).
  apply query_returns in H2 as (-> & Hdb2 & _).
  apply bind_returns in H as ([] & w3 & H3 & H).
  apply transaction_returns in H as (w4 & H & Hdb4).
  apply bind_returns in H as (n & w5 & H5 & H).
  apply exec_returns in H5 as (_ & Hdb5 & _).
  apply bind_returns in H as (existingPage' & w6 & H6 & H).
  apply query_returns in H6 as (-> & Hdb6 & _).
  destruct (getPageId versionId (url result) (db w5)) as [pageId|] eqn:Hpage;
    [|done].
  apply insertChunks_returns in H as (Hl4 & Hv4 & Hp4 & Hd4).
  simpl in Hdb5.
  destruct (insertPage_frame versionId (url result) (title result)
              (orNull (etag result)) (orNull (lastModified result))
              (orNull (contentType result)) (Some depth) (db w3))
    as (Hl5 & Hv5 & Hd5 & Hget5 & Hids5).
  rewrite <- Hdb5 in Hl5, Hv5, Hd5, Hget5, Hids5.
  rewrite Hget5 in Hpage. injection Hpage as Hpage.
  (* the database after the delete *)
  assert (Hw3 : libraries (db w3) = libraries (db w1)
                /\ versions (db w3) = versions (db w1)
                /\ pages (db w3) = pages (db w)
                /\ documents (db w3)
                   = filter (fun doc => doc_page_id doc <> pageId)
                            (documents (db w))).
  { destruct (getPageId versionId (url result) (db w1)) as [pid|] eqn:Hexisting.
    - apply bind_returns in H3 as (k & wd & Hdel & H3).
      apply mret_returns in H3 as [_ <-].
      apply exec_returns in Hdel as (_ & Hdel & _).
      assert (Hsame : getPageId versionId (url result) (db wd) = Some pid).
      { unfold getPageId in *. rewrite Hdel. simpl. by rewrite Hdb2. }
      rewrite Hsame in Hpage. simpl in Hpage. subst pageId.
      rewrite Hdel. simpl. rewrite Hdb2. split_and!; try done.
      by rewrite Hd1.
    - apply mret_returns in H3 as [_ <-].
      assert (Hnone : getPageId versionId (url result) (db w2) = None).
      { unfold getPageId in *. by rewrite Hdb2. }
      rewrite Hnone in Hpage. simpl in Hpage.
      rewrite Hdb2. split_and!; try done.
      rewrite Hd1. symmetry. apply filter_all.
      eapply Forall_impl; [exact Hfk|]. intros doc Hdoc Heq.
      apply Exists_exists in Hdoc as (p & Hp & Hid).
      assert (Hlt : (page_id p < nextRowid (page_id <$> pages (db w2)))%Z).
      { apply nextRowid_fresh, list_elem_of_fmap_2.
        by rewrite Hdb2, Hp1. }
      rewrite <- Hpage in Heq. rewrite Heq in Hid. lia. }
  destruct Hw3 as (Hl3 & Hv3 & Hp3 & Hd3).
  exists libraryId, versionId, pageId. rewrite Hdb4.
  split_and!.
  - unfold getLibraryIdByName in *. by rewrite Hl4, Hdb6, Hl5, Hl3.
  - unfold resolveVersionIdStmt in *. by rewrite Hv4, Hdb6, Hv5, Hv3.
  - unfold getPageId in *. rewrite Hp4, Hdb6, Hget5. by rewrite Hpage.
  - intros p Hp. rewrite Hp4, Hdb6. apply Hids5. by rewrite Hp3.
  - rewrite Hd4, Hdb6, Hd5, Hd3. done.
Qed.

Lemma addDocuments_page_rows library version depth result w w' :
  chunks result <> [] ->
  documentsHavePages (db w) ->
  addDocuments library version depth result w = (Returns tt, w') ->
  documentsHavePages (db w')
  /\ exists pageId,
      pageChunks library version (url result) (db w')
      = documentsOfPage pageId (db w')
      /\ rowView <$> documentsOfPage pageId (db w')
         = expectedRows (chunks result)
      /\ forall q, q <> pageId ->
           rowView <$> documentsOfPage q (db w')
           = rowView <$> documentsOfPage q (db w).
Proof.
  intros Hchunks Hfk Hrun.
  destruct (addDocuments_returns _ _ _ _ _ _ Hchunks Hfk Hrun)
    as (libraryId & versionId & pageId & Hlib & Hver & Hpage & Hids & Hviews).
  split.
  - unfold documentsHavePages.
    apply (Forall_fmap doc_page_id
             (fun pid => Exists (fun p => page_id p = pid) (pages (db w')))).
    rewrite (view4_page_ids' _ _ Hviews), fmap_app. apply Forall_app. split.
    + rewrite <- list_fmap_compose. apply Forall_fmap, Forall_forall.
      intros doc Hdoc. apply list_elem_of_filter in Hdoc as [_ Hdoc]. simpl.
      eapply Forall_forall in Hfk; [|exact Hdoc].
      apply Exists_exists in Hfk as (p & Hp & Hid).
      rewrite <- Hid. by apply Hids.
    + apply Forall_forall. intros pid Hpid.
      apply list_elem_of_fmap in Hpid as (v & -> & Hv).
      apply elem_of_lookup_imap in Hv as (i & c & -> & _). simpl.
      unfold getPageId in Hpage.
      destruct (findFirst _ (pages (db w'))) as [p|] eqn:Hfind; [|done].
      injection Hpage as Hpage.
      apply findFirst_Some in Hfind as [_ Hin].
      apply Exists_exists. eauto.
  - exists pageId. split_and!.
    + unfold pageChunks. by rewrite Hlib, Hver, Hpage.
    + unfold documentsOfPage.
      rewrite (rows_of_views _ _ _ Hviews), filter_app.
      rewrite filter_none, filter_all; simpl.
      * unfold expectedRows. rewrite fmap_imap. by apply imap_ext.
      * apply Forall_forall. intros v Hv.
        apply elem_of_lookup_imap in Hv as (i & c & -> & _). done.
      * apply Forall_fmap, Forall_forall. intros doc Hdoc.
        by apply list_elem_of_filter in Hdoc as [? _].
    + intros q Hq. unfold documentsOfPage.
      rewrite (rows_of_views _ _ _ Hviews), filter_app.
      rewrite (filter_none _ (imap _ _)), app_nil_r.
      * rewrite <- (rows_of_views q (filter (fun doc => doc_page_id doc <> pageId)
                                      (documents (db w))) _ eq_refl).
        f_equal. rewrite list_filter_filter. apply list_filter_iff.
        intros doc. split; [tauto|]. intros Hdoc. split; [done|congruence].
      * apply Forall_forall. intros v Hv.
        apply elem_of_lookup_imap in Hv as (i & c & -> & _). simpl. congruence.
Qed.

(** C7: after a call that stores [n >= 1] chunks, the chunks of the page
    are the input chunks in input order with [sort_order] 0, 1, ..., n-1;
    whatever [n] is, every page whose sort orders were 0 .. k-1 without gap
    or duplicate still has such sort orders, and storing the same chunks
    again gives the same rows.  The database is one in which every document
    has its page, as the foreign key enforces; the call keeps it so. *)
Theorem addDocuments_sort_order
    (library version : string) (depth : nat) (result : ScrapeResult)
    (w w' : World) :
  documentsHavePages (db w) ->
  addDocuments library version depth result w = (Returns tt, w') ->
  (chunks result <> [] ->
   rowView <$> pageChunks library version (url result) (db w')
   = expectedRows (chunks result)
   /\ doc_sort_order <$> pageChunks library version (url result) (db w')
      = seq 0 (length (chunks result)))
  /\ documentsHavePages (db w')
  /\ (forall pageId, sortOrdersDense pageId (db w) -> sortOrdersDense pageId (db w'))
  /\ forall w2 w'',
       db w2 = db w' ->
       addDocuments library version depth result w2 = (Returns tt, w'') ->
       rowView <$> pageChunks library version (url result) (db w'')
       = rowView <$> pageChunks library version (url result) (db w').
Proof.
  intros Hfk Hrun.
  destruct (decide (chunks result = [])) as [Hnone|Hchunks].
  { apply addDocuments_no_chunks in Hrun as [_ ->]; [|done].
    split_and!; try done.
    intros w2 w'' Hdb Hrun2.
    apply addDocuments_no_chunks in Hrun2 as [_ ->]; [|done].
    by rewrite Hdb. }
  destruct (addDocuments_page_rows _ _ _ _ _ _ Hchunks Hfk Hrun)
    as (Hfk' & pageId & Hpc & Hrows & Hother).
  split_and!.
  - intros _. rewrite Hpc. split; [done|].
    rewrite <- expectedRows_sort_order, <- Hrows, <- list_fmap_compose. done.
  - done.
  - intros q Hq. destruct (decide (q = pageId)) as [->|Hne].
    + unfold sortOrdersDense.
      assert (Hlen : length (documentsOfPage pageId (db w'))
                     = length (chunks result)).
      { apply (f_equal length) in Hrows. unfold expectedRows in Hrows.
        by rewrite length_fmap, length_imap in Hrows. }
      rewrite Hlen, <- expectedRows_sort_order, <- Hrows, <- list_fmap_compose.
      done.
    + by eapply rowView_sortOrdersDense; [apply Hother|].
  - intros w2 w'' Hdb Hrun2.
    assert (Hfk2 : documentsHavePages (db w2)) by by rewrite Hdb.
    destruct (addDocuments_page_rows _ _ _ _ _ _ Hchunks Hfk2 Hrun2)
      as (_ & pageId2 & Hpc2 & Hrows2 & _).
    by rewrite Hpc, Hpc2, Hrows, Hrows2.
Qed.

(** **** removeVersion *)

Lemma versionMatches_mono library version d d' v :
  libraries d ⊆ libraries d' ->
  versionMatches library version d v -> versionMatches library version d' v.
Proof.
  intros Hl [HE Hn]. split; [|done].
  apply Exists_exists in HE as (l & Hin & Hl'). apply Exists_exists. eauto.
Qed.

Lemma pageMatches_mono library version d d' p :
  libraries d ⊆ libraries d' -> versions d ⊆ versions d' ->
  pageMatches library version d p -> pageMatches library version d' p.
Proof.
  intros Hl Hv HE. unfold pageMatches in *.
  apply Exists_exists in HE as (v & Hin & Hid & Hm). apply Exists_exists.
  exists v. split_and!; [auto|done|]. by eapply versionMatches_mono.
Qed.

Lemma documentMatches_mono library version d d' doc :
  libraries d ⊆ libraries d' -> versions d ⊆ versions d' ->
  pages d ⊆ pages d' ->
  documentMatches library version d doc -> documentMatches library version d' doc.
Proof.
  intros Hl Hv Hp HE. unfold documentMatches in *.
  apply Exists_exists in HE as (p & Hin & Hid & Hm). apply Exists_exists.
  exists p. split_and!; [auto|done|]. by eapply pageMatches_mono.
Qed.

Lemma filter_subseteq {A} (P : A -> Prop) `{!forall x, Decision (P x)}
    (l : list A) : filter P l ⊆ l.
Proof. intros x Hx. by apply list_elem_of_filter in Hx as [_ ?]. Qed.

Lemma removeVersion_returns library version removeLibraryIfEmpty w r w'
    versionId libraryId :
  getVersionId (toLowerCase library) (toLowerCase version) (db w)
  = Some (versionId, libraryId) ->
  removeVersion library version removeLibraryIfEmpty w = (Returns r, w') ->
  let lib := toLowerCase library in
  let ver := toLowerCase version in
  exists tail changes deleted,
    log w' = log w ++ [Ran SGetVersionId; Ran SDeleteDocuments; Ran SDeletePages;
                       Ran SDeletePages; Ran SDeleteVersionById] ++ tail
    /\ r = mkRemoved
             (length (filter (documentMatches lib ver (db w)) (documents (db w))))
             (0 <? changes) deleted
    /\ changes = length (filter (fun v => ver_id v = versionId) (versions (db w)))
    /\ documents (db w')
       = filter (fun doc => ~ documentMatches lib ver (db w) doc) (documents (db w))
    /\ pages (db w') ⊆ filter (fun p => ~ pageMatches lib ver (db w) p) (pages (db w))
    /\ versions (db w')
       = filter (fun v => ver_id v <> versionId) (versions (db w))
    /\ ((removeLibraryIfEmpty && (0 <? changes)
         && (countVersionsByLibraryId libraryId (db w') =? 0) = true
         /\ libraries (db w')
            = filter (fun l => lib_id l <> libraryId) (libraries (db w))
         /\ deleted = (0 <? length (filter (fun l => lib_id l = libraryId)
                                            (libraries (db w)))))
        \/ (removeLibraryIfEmpty && (0 <? changes)
            && (countVersionsByLibraryId libraryId (db w') =? 0) = false
            /\ libraries (db w') = libraries (db w)
            /\ deleted = false)).
Proof.
  intros Hfound H lib ver. apply rethrow_returns in H.
  apply bind_returns in H as (versionResult & wa & Ha & H).
  apply query_returns in Ha as (-> & Hda & Hla).
  rewrite Hfound in H. fold lib ver in Hfound.
  apply bind_returns in H as (documentsDeleted & wb & Hb & H).
  apply rethrow_returns in Hb.
  apply bind_returns in Hb as (n1 & wb1 & Hb1 & Hb).
  apply exec_returns in Hb1 as (-> & Hdb1 & Hlb1).
  apply bind_returns in Hb as (n2 & wb2 & Hb2 & Hb).
  apply exec_returns in Hb2 as (_ & Hdb2 & Hlb2).
  apply mret_returns in Hb as [<- <-].
  apply bind_returns in H as (n3 & wc & Hc & H).
  apply exec_returns in Hc as (_ & Hdc & Hlc).
  apply bind_returns in H as (changes & wd & Hd & H).
  apply exec_returns in Hd as (-> & Hdd & Hld).
  apply bind_returns in H as (deleted & we & He & H).
  apply mret_returns in H as [<- <-].
  fold lib ver in Hdb1, Hdb2, Hdc.
  rewrite Hda in Hdb1.
  (* the database before the library step *)
  assert (Hwd : libraries (db wd) = libraries (db w)
                /\ versions (db wd)
                   = filter (fun v => ver_id v <> versionId) (versions (db w))
                /\ pages (db wd)
                   ⊆ filter (fun p => ~ pageMatches lib ver (db w) p) (pages (db w))
                /\ documents (db wd)
                   = filter (fun doc => ~ documentMatches lib ver (db w) doc)
                            (documents (db w))
                /\ versions (db wc) = versions (db w)).
  { rewrite Hdd, Hdc, Hdb2, Hdb1. simpl. split_and!; try done.
    etrans; [apply filter_subseteq|].
    intros p Hp. apply list_elem_of_filter in Hp as [Hp Hin].
    apply list_elem_of_filter. split; [|done].
    intros Hm. apply Hp. revert Hm. by apply pageMatches_mono. }
  destruct Hwd as (Hl & Hv & Hp & Hdoc & Hvc).
  set (changes := (deleteVersionById versionId (db wc)).1) in *.
  assert (Hstep : exists tail,
             log we = log wd ++ tail
             /\ versions (db we) = versions (db wd)
             /\ pages (db we) = pages (db wd)
             /\ documents (db we) = documents (db wd)
             /\ ((removeLibraryIfEmpty && (0 <? changes)
                  && (countVersionsByLibraryId libraryId (db wd) =? 0) = true
                  /\ libraries (db we)
                     = filter (fun l => lib_id l <> libraryId) (libraries (db wd))
                  /\ deleted
                     = (0 <? length (filter (fun l => lib_id l = libraryId)
                                            (libraries (db wd)))))
                 \/ (removeLibraryIfEmpty && (0 <? changes)
                     && (countVersionsByLibraryId libraryId (db wd) =? 0) = false
                     /\ libraries (db we) = libraries (db wd)
                     /\ deleted = false))).
  { destruct (removeLibraryIfEmpty && (0 <? changes)).
    - apply bind_returns in He as (remaining & wq & Hq & He).
      apply query_returns in Hq as (-> & Hdq & Hlq).
      destruct (countVersionsByLibraryId libraryId (db wd) =? 0).
      + apply bind_returns in He as (n & wx & Hx & He).
        apply exec_returns in Hx as (-> & Hdx & Hlx).
        apply mret_returns in He as [<- <-].
        exists [Ran SCountVersionsByLibraryId; Ran SDeleteLibraryById].
        rewrite Hlx, Hlq, Hdx, Hdq, <- app_assoc. simpl.
        split_and!; try done. by left.
      + apply mret_returns in He as [<- <-].
        exists [Ran SCountVersionsByLibraryId]. rewrite Hlq, Hdq.
        split_and!; try done. by right.
    - apply mret_returns in He as [<- <-]. exists [].
      rewrite app_nil_r. split_and!; try done. by right. }
  destruct Hstep as (tail & Hle & Hve & Hpe & Hde & Hlibs).
  exists tail, changes, deleted.
  assert (Hcount : countVersionsByLibraryId libraryId (db we)
                   = countVersionsByLibraryId libraryId (db wd)).
  { unfold countVersionsByLibraryId. by rewrite Hve. }
  rewrite Hcount, Hde, Hve, Hdoc, Hv, <- Hl.
  split_and!; try done.
  - rewrite Hle, Hld, Hlc, Hlb2, Hlb1, Hla, <- !app_assoc. done.
  - by rewrite Hda.
  - unfold changes. simpl. by rewrite Hvc.
  - by rewrite Hpe.
Qed.


Lemma filter_length_pos {A} (P : A -> Prop) `{!forall x, Decision (P x)}
    (l : list A) x :
  x ∈ l -> P x -> 0 < length (filter P l).
Proof.
  intros Hin HP. assert (Hx : x ∈ filter P l) by by apply list_elem_of_filter.
  destruct (filter P l); [by apply elem_of_nil in Hx | simpl; lia].
Qed.

Lemma removeVersion_no_fault library version removeLibraryIfEmpty w :
  faultAfter w = None ->
  exists r w', removeVersion library version removeLibraryIfEmpty w
               = (Returns r, w').
Proof.
  destruct w as [d lg fa]. simpl. intros ->.
  unfold Store.removeVersion, tryCatch, deletePages, tryCatch, query, exec,
    mbind, M_bind, mret, M_ret. simpl.
  destruct (getVersionId _ _ d) as [[versionId libraryId]|]; [|by eauto].
  simpl.
  destruct (removeLibraryIfEmpty && _); simpl; [|by eauto].
  destruct (_ =? 0); simpl; by eauto.
Qed.

(** The count the statement returns is 0 exactly when no version row
    refers to the library. *)
Lemma countVersionsByLibraryId_zero libraryId d :
  countVersionsByLibraryId libraryId d = 0
  <-> Forall (fun v => ver_library_id v <> libraryId) (versions d).
Proof.
  unfold countVersionsByLibraryId. rewrite length_zero_iff_nil. split.
  - intros Hnil. apply Forall_forall. intros v Hv Hid.
    assert (Hin : v ∈ filter (fun v => ver_library_id v = libraryId)
                        (versions d)) by by apply list_elem_of_filter.
    rewrite Hnil in Hin. by apply elem_of_nil in Hin.
  - intros Hall. apply filter_none. eapply Forall_impl; [exact Hall|].
    by intros v Hv.
Qed.

(** C8: for an existing library version, [removeVersion] deletes the
    documents, then the pages, then the version, and returns the three
    results; no document of the version is left, so that
    [checkDocumentExists] answers false; the library row is deleted if
    and only if the caller asked for it and no version of the library
    remains. *)
Theorem removeVersion_cascades
    (library version : string) (removeLibraryIfEmpty : bool) (w : World)
    (versionId libraryId : Z) :
  let lib := toLowerCase library in
  let ver := toLowerCase version in
  getVersionId lib ver (db w) = Some (versionId, libraryId) ->
  (faultAfter w = None ->
   exists r w', removeVersion library version removeLibraryIfEmpty w
                = (Returns r, w'))
  /\ forall r w',
      removeVersion library version removeLibraryIfEmpty w = (Returns r, w') ->
      (exists tail,
          log w' = log w ++ [Ran SGetVersionId; Ran SDeleteDocuments;
                             Ran SDeletePages; Ran SDeletePages;
                             Ran SDeleteVersionById] ++ tail)
      /\ documentsDeleted r
         = length (filter (documentMatches lib ver (db w)) (documents (db w)))
      /\ versionDeleted r = true
      /\ (libraryDeleted r = true <->
          removeLibraryIfEmpty = true
          /\ Forall (fun v => ver_library_id v <> libraryId) (versions (db w')))
      /\ (libraryDeleted r = true <->
          ~ Exists (fun l => lib_id l = libraryId) (libraries (db w')))
      /\ Forall (fun v => ver_id v <> versionId) (versions (db w'))
      /\ Forall (fun p => page_version_id p <> versionId) (pages (db w'))
      /\ Forall (fun doc => ~ documentMatches lib ver (db w) doc)
                (documents (db w'))
      /\ forall w2,
          db w2 = db w' -> faultAfter w2 <> Some 0 ->
          (checkDocumentExists library version w2).1 = Returns false.
Proof.
  intros lib ver Hfound. split; [apply removeVersion_no_fault|].
  intros r w' Hrun.
  destruct (removeVersion_returns _ _ _ _ _ _ _ _ Hfound Hrun)
    as (tail & changes & deleted & Hlog & -> & Hchanges & Hdocs & Hpages
        & Hvers & Hlibs).
  fold lib ver in Hdocs, Hpages.
  (* the version row that was found, and its library *)
  unfold getVersionId in Hfound.
  destruct (findFirst _ (versions (db w))) as [v0|] eqn:Hv0; [|done].
  injection Hfound as Hvid Hlid.
  apply findFirst_Some in Hv0 as [[Hl0 Hname] Hin0].
  apply Exists_exists in Hl0 as (l0 & Hlin & Hl0id & Hl0name).
  assert (Hpos : 0 < changes).
  { rewrite Hchanges. by eapply filter_length_pos. }
  assert (Hlpos : 0 < length (filter (fun l => lib_id l = libraryId)
                                    (libraries (db w)))).
  { eapply filter_length_pos; [exact Hlin | congruence]. }
  apply Nat.ltb_lt in Hpos as Hposb. apply Nat.ltb_lt in Hlpos as Hlposb.
  simpl. split_and!.
  - by exists tail.
  - done.
  - done.
  - rewrite <- countVersionsByLibraryId_zero.
    destruct Hlibs as [(Hc & _ & ->)|(Hc & _ & ->)]; rewrite Hposb in Hc.
    + apply andb_prop in Hc as [Hc1 Hc2]. apply andb_prop in Hc1 as [Hc1 _].
      apply Nat.eqb_eq in Hc2. by rewrite Hlposb.
    + split; [done|]. intros [-> Hz]. rewrite Hz in Hc. done.
  - destruct Hlibs as [(_ & Hl & ->)|(_ & Hl & ->)]; rewrite Hl.
    + rewrite Hlposb. split; [|done]. intros _ HE.
      apply Exists_exists in HE as (l & Hin & Hid).
      by apply list_elem_of_filter in Hin as [? _].
    + split; [done|]. intros HE. exfalso. apply HE, Exists_exists.
      exists l0. split; [done | congruence].
  - rewrite Hvers. apply Forall_forall. intros v Hv.
    by apply list_elem_of_filter in Hv as [? _].
  - apply Forall_forall. intros p Hp Hpv. apply Hpages in Hp.
    apply list_elem_of_filter in Hp as [Hnot _]. apply Hnot.
    apply Exists_exists. exists v0. split_and!; [done|congruence|].
    split; [|done]. apply Exists_exists. eauto.
  - rewrite Hdocs. apply Forall_forall. intros doc Hdoc.
    by apply list_elem_of_filter in Hdoc as [? _].
  - intros w2 Hdb Hfault.
    assert (Hnone : checkExists lib ver (db w2) = None).
    { unfold checkExists. rewrite Hdb.
      assert (Hfind : findFirst (documentMatches lib ver (db w'))
                        (documents (db w')) = None); [|by rewrite Hfind].
      apply findFirst_None. rewrite Hdocs. apply Forall_forall.
      intros doc Hdoc. apply list_elem_of_filter in Hdoc as [Hnot _].
      intros Hm. apply Hnot. revert Hm. apply documentMatches_mono.
      - destruct Hlibs as [(_ & -> & _)|(_ & -> & _)];
          [apply filter_subseteq | done].
      - rewrite Hvers. apply filter_subseteq.
      - etrans; [exact Hpages | apply filter_subseteq]. }
    unfold checkDocumentExists, tryCatch, query, exec, mbind, M_bind.
    fold lib ver. rewrite Hnone.
    by destruct (faultAfter w2) as [[|n]|].
Qed.

(** **** Without faults and without embeddings the ingest returns *)

Lemma exec_runs {A} s (run : Db -> A * Db) w :
  faultAfter w = None ->
  exists w', exec s run w = (Returns (run (db w)).1, w')
             /\ db w' = (run (db w)).2 /\ faultAfter w' = None.
Proof. intros Hw. rewrite exec_no_fault by done. eauto. Qed.

Lemma insertChunks_no_fault pageId chunks :
  forall i docIndex w,
    faultAfter w = None ->
    exists w', insertChunks false pageId [] i docIndex chunks w = (Returns tt, w')
               /\ faultAfter w' = None.
Proof.
  induction chunks as [|chunk rest IH]; intros i docIndex w Hw; [by eauto|].
  cbn [insertChunks]. unfold mbind, M_bind.
  destruct (exec_runs SInsertDocument
              (insertDocument pageId (content chunk) (chunkMetadata chunk) i)
              w Hw) as (wa & -> & _ & Ha).
  simpl. by apply IH.
Qed.

Lemma resolveVersionId_no_fault library version w :
  faultAfter w = None ->
  exists versionId w',
    resolveVersionId library version w = (Returns versionId, w')
    /\ faultAfter w' = None.
Proof.
  intros Hw. unfold resolveVersionId, query, mbind, M_bind.
  destruct (exec_runs SInsertLibrary (insertLibrary (toLowerCase library)) w Hw)
    as (wa & -> & Hda & Ha).
  destruct (exec_runs SGetLibraryIdByName
              (fun d => (getLibraryIdByName (toLowerCase library) d, d)) wa Ha)
    as (wb & -> & Hdb & Hb). simpl in *.
  destruct (insertLibrary_frame (toLowerCase library) (db w))
    as (_ & _ & _ & [libraryId Hlib]).
  rewrite Hda, Hlib.
  destruct (exec_runs SInsertVersion
              (insertVersion libraryId
                 (denormalizeVersionName (toLowerCase version))) wb Hb)
    as (wc & -> & Hdc & Hc).
  destruct (exec_runs SResolveVersionId
              (fun d => (resolveVersionIdStmt libraryId
                           (denormalizeVersionName (toLowerCase version)) d, d))
              wc Hc)
    as (wd & -> & Hdd & Hd). simpl in *.
  destruct (insertVersion_frame libraryId
              (denormalizeVersionName (toLowerCase version)) (db wb))
    as (_ & _ & _ & [versionId Hver]).
  rewrite Hdc, Hver. by eauto.
Qed.

(** *** What a failed ingest leaves behind *)

Lemma keepsChunks_bind {A B} (m : M A) (k : A -> M B) :
  keepsChunks m -> (forall a, keepsChunks (k a)) -> keepsChunks (m ≫= k).
Proof.
  intros Hm Hk w. unfold mbind, M_bind. specialize (Hm w).
  destruct (m w) as [[a|e|] w1]; simpl in *; [|done|done].
  destruct (Hk a w1) as [-> ->]. done.
Qed.

Lemma keepsChunks_exec {A} s (run : Db -> A * Db) :
  (forall d, pages (run d).2 = pages d /\ documents (run d).2 = documents d) ->
  keepsChunks (exec s run).
Proof.
  intros Hrun w. unfold exec. specialize (Hrun (db w)).
  destruct (faultAfter w) as [[|n]|]; destruct (run (db w)) as [a d]; done.
Qed.

Lemma keepsChunks_resolveVersionId library version :
  keepsChunks (resolveVersionId library version).
Proof.
  unfold resolveVersionId.
  apply keepsChunks_bind.
  { apply keepsChunks_exec. intros d.
    by destruct (insertLibrary_frame (toLowerCase library) d) as (_ & ? & ? & _). }
  intros _. apply keepsChunks_bind; [by apply keepsChunks_exec|].
  intros [libraryId|]; [|done].
  apply keepsChunks_bind.
  { apply keepsChunks_exec. intros d.
    by destruct (insertVersion_frame libraryId
                   (denormalizeVersionName (toLowerCase version)) d)
      as (_ & ? & ? & _). }
  intros _. apply keepsChunks_bind; [by apply keepsChunks_exec|].
  by intros [versionId|].
Qed.

Lemma addDocuments_throws library version depth result w e w' :
  chunks result <> [] ->
  addDocuments library version depth result w = (Throws e, w') ->
  pages (db w') = pages (db w)
  /\ (documents (db w') = documents (db w)
      \/ exists pageId,
           pageOfUrl library version (url result) (db w') = Some pageId
           /\ pageChunks library version (url result) (db w') = []
           /\ documents (db w')
              = filter (fun doc => doc_page_id doc <> pageId)
                  (documents (db w))).
Proof.
  intros Hchunks H. apply rethrow_throws in H as [e0 H].
  destruct (length (chunks result) =? 0) eqn:Hlen.
  { apply Nat.eqb_eq in Hlen. by destruct (chunks result). }
  (* the embedding phase *)
  assert (Hembed : forall r we,
    (if isVectorSearchEnabled
     then rawEmbeddings ← embedBatches embedDocuments schedule embeddingBatchSize
                            embeddingBatchChars
                            (embeddingText (title result) (url result)
                               <$> chunks result) [] 0 [];
          padAll dbDimension rawEmbeddings
     else mret []) w = (r, we) -> db we = db w).
  { intros r we Hr. destruct isVectorSearchEnabled.
    - eapply keepsDb_run; [|exact Hr].
      apply keepsDb_bind; [apply keepsDb_embedBatches|].
      intros raw. apply keepsDb_padAll.
    - by injection Hr as _ <-. }
  apply bind_throws in H as [H|(paddedEmbeddings & we & He & H)].
  { apply Hembed in H. rewrite H. by split; [|left]. }
  apply Hembed in He. clear Hembed.
  (* library and version *)
  apply bind_throws in H as [H|(versionId & w1 & H1 & H)].
  { destruct (keepsChunks_resolveVersionId library version we) as [Hp Hd].
    rewrite H in Hp, Hd. simpl in Hp, Hd. rewrite Hp, Hd, He.
    by split; [|left]. }
  apply resolveVersionId_returns in H1 as (Hp1 & Hd1 & libraryId & Hlib & Hver).
  rewrite He in Hp1, Hd1.
  (* the page lookup and the delete *)
  apply bind_throws in H as [H|(existingPage & w2 & H2 & H)].
  { apply exec_throws in H. rewrite H. by split; [|left]. }
  apply query_returns in H2 as (-> & Hdb2 & _).
  apply bind_throws in H as [H|([] & w3 & H3 & H)].
  { destruct (getPageId versionId (url result) (db w1)); [|done].
    apply bind_throws in H as [H|(n & wd & _ & H)]; [|done].
    apply exec_throws in H. rewrite H, Hdb2. by split; [|left]. }
  (* the transaction *)
  apply transaction_throws in H. rewrite H.
  destruct (getPageId versionId (url result) (db w1)) as [pageId|] eqn:Hpage.
  - apply bind_returns in H3 as (n & wd & Hdel & H3).
    apply mret_returns in H3 as [_ <-].
    apply exec_returns in Hdel as (_ & Hdel & _).
    rewrite Hdel, Hdb2. simpl. split; [done|]. right.
    exists pageId. split_and!; [| |by rewrite Hd1].
    + unfold pageOfUrl, getLibraryIdByName, resolveVersionIdStmt, getPageId in *.
      simpl. rewrite Hlib. simpl. rewrite Hver. simpl. by rewrite Hpage.
    + unfold pageChunks, getLibraryIdByName, resolveVersionIdStmt, getPageId in *.
      simpl. rewrite Hlib, Hver, Hpage. unfold documentsOfPage. simpl.
      apply filter_none, Forall_forall. intros doc Hdoc.
      apply list_elem_of_filter in Hdoc as [Hne _]. tauto.
  - apply mret_returns in H3 as [_ <-]. rewrite Hdb2. by split; [|left].
Qed.

(** C1, as the code has it: the page upsert and the inserts of the new
    chunk set run in one transaction, which is entered after the prior
    chunk set has been deleted by a statement of its own.  A call that
    returns leaves the page with exactly the new chunk set (and changes
    nothing when no chunk is given).  A call that throws leaves no part of
    the new chunk set: the pages are as before, and either every chunk is
    as before, or the page of the URL has no chunk and the chunks of the
    other pages are as before. *)
Theorem addDocuments_replaces_chunks
    (library version : string) (depth : nat) (result : ScrapeResult)
    (w w' : World) (outcome : Outcome unit) :
  documentsHavePages (db w) ->
  addDocuments library version depth result w = (outcome, w') ->
  (outcome = Returns tt ->
   (chunks result = [] -> db w' = db w)
   /\ (chunks result <> [] ->
       rowView <$> pageChunks library version (url result) (db w')
       = expectedRows (chunks result)))
  /\ (forall error, outcome = Throws error ->
       pages (db w') = pages (db w)
       /\ (documents (db w') = documents (db w)
           \/ exists pageId,
                pageOfUrl library version (url result) (db w') = Some pageId
                /\ pageChunks library version (url result) (db w') = []
                /\ documents (db w')
                   = filter (fun doc => doc_page_id doc <> pageId)
                       (documents (db w)))).
Proof.
  intros Hfk Hrun. split.
  - intros ->. split; intros Hchunks.
    + by apply addDocuments_no_chunks in Hrun as [_ ->].
    + destruct (addDocuments_page_rows _ _ _ _ _ _ Hchunks Hfk Hrun)
        as (_ & pageId & -> & Hrows & _).
      exact Hrows.
  - intros error ->.
    destruct (decide (chunks result = [])) as [Hnone|Hchunks].
    + by apply addDocuments_no_chunks in Hrun as [? _].
    + by eapply addDocuments_throws.
Qed.

End Methods.

(** Without a refused statement and with vector search disabled, every
    ingest returns. *)
Lemma addDocuments_no_fault embedDocuments schedule dbDimension embeddingBatchSize
    embeddingBatchChars library version depth result w :
  faultAfter w = None ->
  exists w',
    addDocuments false embedDocuments schedule dbDimension embeddingBatchSize
      embeddingBatchChars library version depth result w = (Returns tt, w').
Proof.
  intros Hw. unfold addDocuments.
  match goal with
  | |- exists w', tryCatch ?body ?handler w = _ =>
      enough (exists w', body w = (Returns tt, w')) as [w' Hbody];
      [exists w'; unfold tryCatch; by rewrite Hbody|]
  end.
  destruct (length (chunks result) =? 0); [by eauto|].
  rewrite (bind_runs _ _ w [] w) by done.
  destruct (resolveVersionId_no_fault library version w Hw)
    as (versionId & w1 & Hres & H1).
  rewrite (bind_runs _ _ _ _ _ Hres).
  destruct (exec_runs SGetPageId
              (fun d => (getPageId versionId (url result) d, d)) w1 H1)
    as (w2 & Hq & Hd2 & H2).
  unfold query at 1. rewrite (bind_runs _ _ _ _ _ Hq). cbn [fst].
  assert (Hdel : exists w3,
             match getPageId versionId (url result) (db w1) with
             | Some pageId =>
                 exec SDeleteDocumentsByPageId (deleteDocumentsByPageId pageId)
                 ≫= fun _ => mret tt
             | None => mret tt
             end w2 = (Returns tt, w3) /\ faultAfter w3 = None).
  { destruct (getPageId versionId (url result) (db w1)) as [pageId|];
      [|by eauto].
    destruct (exec_runs SDeleteDocumentsByPageId
                (deleteDocumentsByPageId pageId) w2 H2) as (w3 & Hx & _ & H3).
    rewrite (bind_runs _ _ _ _ _ Hx). by eauto. }
  destruct Hdel as (w3 & Hdel & H3).
  rewrite (bind_runs _ _ _ _ _ Hdel).
  unfold transaction.
  destruct (exec_runs SInsertPage
              (insertPage versionId (url result) (title result)
                 (orNull (etag result)) (orNull (lastModified result))
                 (orNull (contentType result)) (Some depth))
              (emit [Begin] w3) H3) as (w4 & Hi & Hd4 & H4).
  rewrite (bind_runs _ _ _ _ _ Hi).
  destruct (exec_runs SGetPageId
              (fun d => (getPageId versionId (url result) d, d)) w4 H4)
    as (w5 & Hq5 & Hd5 & H5).
  unfold query. rewrite (bind_runs _ _ _ _ _ Hq5). cbn [fst].
  destruct (insertPage_frame versionId (url result) (title result)
              (orNull (etag result)) (orNull (lastModified result))
              (orNull (contentType result)) (Some depth) (db (emit [Begin] w3)))
    as (_ & _ & _ & Hget & _).
  rewrite Hd4, Hget. cbn [default from_option].
  match goal with
  | |- context [insertChunks false ?pageId [] 0 0 _ w5] =>
      destruct (insertChunks_no_fault pageId (chunks result) 0 0 w5 H5)
        as (w6 & -> & _)
  end.
  by eauto.
Qed.

(** *** The examples *)

(** C1 at a failing input: the page holds the chunks [a] and [b]; the
    engine refuses the ninth statement of the re-ingest, the first INSERT
    of the transaction.  The DELETE had run and committed before BEGIN, the
    rollback does not bring the old chunks back, and the page is left with
    neither the old chunk set nor the new one. *)
Lemma addDocuments_not_atomic_counterexample :
  let run := exampleAdd "lib" "1.0" 0 (scrapeOf ["c"])
               (mkWorld exampleDb [] (Some 8)) in
  run.1 = Throws (ConnectionError "Failed to add documents to store"
                    (JsError "SqliteError"))
  /\ log run.2
     = [Ran SInsertLibrary; Ran SGetLibraryIdByName; Ran SInsertVersion;
        Ran SResolveVersionId; Ran SGetPageId; Ran SDeleteDocumentsByPageId;
        Begin; Ran SInsertPage; Ran SGetPageId; Refused SInsertDocument;
        Rollback]
  /\ doc_content <$> pageChunks "lib" "1.0" exampleUrl exampleDb
     = ["a"; "b"]%string
  /\ pageChunks "lib" "1.0" exampleUrl (db run.2) = []
  /\ pageChunks "lib" "1.0" exampleUrl (db run.2)
     <> pageChunks "lib" "1.0" exampleUrl exampleDb
  /\ rowView <$> pageChunks "lib" "1.0" exampleUrl (db run.2)
     <> expectedRows (chunks (scrapeOf ["c"])).
Proof. by split_and!. Qed.

(** A client that answers with one vector whatever the batch: the
    second chunk is stored without a vector, and the call returns. *)
Example addDocuments_missing_vector :
  let run := addDocuments true (fun _ => Returns [[1%Q]]) inOrder 1 100 2000
               "lib" "1.0" 0 (scrapeOf ["c"; "d"])
               (mkWorld exampleDb [] None) in
  run.1 = Returns tt
  /\ (fun doc => (doc_content doc, doc_embedding doc))
       <$> pageChunks "lib" "1.0" exampleUrl (db run.2)
     = [("c", Some [1%Q]); ("d", None)]%string.
Proof. split; vm_compute; reflexivity. Qed.

Lemma addDocuments_replaces_chunks_witness :
  let w := mkWorld exampleDb [] (Some 8) in
  let run := exampleAdd "lib" "1.0" 0 (scrapeOf ["c"]) w in
  documentsHavePages (db w)
  /\ run.1 = Throws (ConnectionError "Failed to add documents to store"
                       (JsError "SqliteError"))
  /\ pages (db run.2) = pages (db w)
  /\ (documents (db run.2) = documents (db w)
      \/ exists pageId,
           pageOfUrl "lib" "1.0" exampleUrl (db run.2) = Some pageId
           /\ pageChunks "lib" "1.0" exampleUrl (db run.2) = []
           /\ documents (db run.2)
              = filter (fun doc => doc_page_id doc <> pageId)
                  (documents (db w))).
Proof.
  intros w run.
  assert (Hfk : documentsHavePages (db w)).
  { unfold documentsHavePages. simpl. repeat constructor. }
  split; [exact Hfk|]. split; [reflexivity|].
  exact (proj2 (addDocuments_replaces_chunks false noClient inOrder 4 100 2000
                  "lib" "1.0" 0 (scrapeOf ["c"]) w run.2 run.1
                  Hfk (surjective_pairing run))
           _ eq_refl).
Defined.

Lemma addDocuments_empty_is_noop_witness :
  let w := mkWorld exampleDb [] None in
  chunks (scrapeOf []) = []
  /\ exampleAdd "lib" "1.0" 0 (scrapeOf []) w = (Returns tt, w).
Proof.
  intros w. split; [reflexivity|].
  apply addDocuments_empty_is_noop. reflexivity.
Defined.

Lemma addDocuments_sort_order_witness :
  let w := mkWorld exampleDb [] None in
  let w' := (exampleAdd "lib" "1.0" 0 (scrapeOf ["c"; "d"; "e"]) w).2 in
  documentsHavePages (db w)
  /\ exampleAdd "lib" "1.0" 0 (scrapeOf ["c"; "d"; "e"]) w = (Returns tt, w')
  /\ doc_sort_order <$> pageChunks "lib" "1.0" exampleUrl (db w') = [0; 1; 2].
Proof.
  intros w w'.
  assert (Hfk : documentsHavePages (db w)).
  { unfold documentsHavePages. simpl. repeat constructor. }
  assert (Hrun : exampleAdd "lib" "1.0" 0 (scrapeOf ["c"; "d"; "e"]) w
                 = (Returns tt, w')) by reflexivity.
  split; [exact Hfk|]. split; [exact Hrun|].
  refine (proj2 (proj1 (addDocuments_sort_order false noClient inOrder 4 100 2000
                          "lib" "1.0" 0 (scrapeOf ["c"; "d"; "e"]) w w'
                          Hfk Hrun) _)).
  discriminate.
Defined.

Lemma removeVersion_cascades_witness :
  let w := mkWorld exampleDb [] None in
  let run := removeVersion "Lib" "1.0" true w in
  getVersionId "lib" "1.0" (db w) = Some (1%Z, 1%Z)
  /\ run.1 = Returns (mkRemoved 2 true true)
  /\ (checkDocumentExists "Lib" "1.0" run.2).1 = Returns false.
Proof.
  intros w run. split; [reflexivity|]. split; [reflexivity|].
  refine (proj2 (proj2 (proj2 (proj2 (proj2 (proj2 (proj2 (proj2
            (proj2 (removeVersion_cascades "Lib" "1.0" true w 1 1 eq_refl)
               (mkRemoved 2 true true) run.2 eq_refl)))))))) run.2 eq_refl _).
  discriminate.
Defined.

End StoreFacts.

(** ** GreedySplitter: sections, types, runs and text *)

Module SplitterFacts.
Import GreedySplitter SplitterText StringFacts GreedyFacts.

(** *** Paths *)

Lemma everyEqualAt_prefix (arr other : list string) :
  JS.everyEqualAt arr other = true <-> arr `prefix_of` other.
Proof.
  revert other. induction arr as [|x xs IH]; intros other; simpl.
  - split; [intros _; apply prefix_nil|done].
  - destruct other as [|y ys].
    + split; [done|]. intros [k Hk]. discriminate.
    + rewrite andb_true_iff, bool_decide_eq_true, IH. split.
      * intros [-> Hp]. by apply prefix_cons.
      * intros Hp. split.
        -- by apply prefix_cons_inv_1 in Hp.
        -- by apply prefix_cons_inv_2 in Hp.
Qed.

Lemma isPathIncluded_strict (parentPath childPath : list string) :
  isPathIncluded parentPath childPath = true
  <-> parentPath `prefix_of` childPath /\ length parentPath < length childPath.
Proof.
  unfold isPathIncluded.
  destruct (length childPath <=? length parentPath) eqn:Hlen.
  - apply Nat.leb_le in Hlen. split; [done|]. lia.
  - apply Nat.leb_gt in Hlen. rewrite everyEqualAt_prefix. tauto.
Qed.

Lemma prefix_length_eq' (p q : list string) :
  p `prefix_of` q -> length p = length q -> p = q.
Proof.
  intros [k ->]. rewrite length_app. intros Hlen.
  destruct k; [by rewrite app_nil_r|]. simpl in Hlen. lia.
Qed.

(** Two chunks are of the same section exactly when the path of one is an
    initial segment of the path of the other. *)
Theorem isSameSection_prefix (chunk1 chunk2 : Chunk) :
  isSameSection chunk1 chunk2 = true
  <-> path (section chunk1) `prefix_of` path (section chunk2)
      \/ path (section chunk2) `prefix_of` path (section chunk1).
Proof.
  unfold isSameSection.
  set (p1 := path (section chunk1)). set (p2 := path (section chunk2)).
  destruct (_ && _) eqn:Hexact.
  - apply andb_true_iff in Hexact as [_ Hp%everyEqualAt_prefix]. tauto.
  - rewrite orb_true_iff, !isPathIncluded_strict. split; [tauto|].
    apply andb_false_iff in Hexact.
    intros [Hp|Hp].
    + pose proof (prefix_length _ _ Hp) as Hle.
      destruct (decide (length p1 = length p2)) as [Heq|Hne]; [|left; split; [done|lia]].
      destruct Hexact as [Hexact|Hexact].
      * apply Nat.eqb_neq in Hexact. done.
      * apply everyEqualAt_prefix in Hp. congruence.
    + pose proof (prefix_length _ _ Hp) as Hle.
      destruct (decide (length p1 = length p2)) as [Heq|Hne]; [|right; split; [done|lia]].
      destruct Hexact as [Hexact|Hexact].
      * apply Nat.eqb_neq in Hexact. done.
      * symmetry in Heq. rewrite (prefix_length_eq' _ _ Hp Heq) in Hexact.
        assert (JS.everyEqualAt p1 p1 = true) by by apply everyEqualAt_prefix.
        congruence.
Qed.

Lemma findCommonPrefix_l path1 path2 :
  findCommonPrefix path1 path2 `prefix_of` path1.
Proof.
  revert path2. induction path1 as [|x xs IH]; intros [|y ys]; simpl;
    try apply prefix_nil.
  case_bool_decide; [|apply prefix_nil]. apply prefix_cons, IH.
Qed.

Lemma findCommonPrefix_r path1 path2 :
  findCommonPrefix path1 path2 `prefix_of` path2.
Proof.
  revert path2. induction path1 as [|x xs IH]; intros [|y ys]; simpl;
    try apply prefix_nil.
  case_bool_decide as Hxy; [|apply prefix_nil]. subst. apply prefix_cons, IH.
Qed.

Lemma findCommonPrefix_greatest path1 path2 p :
  p `prefix_of` path1 -> p `prefix_of` path2 ->
  p `prefix_of` findCommonPrefix path1 path2.
Proof.
  revert path1 path2. induction p as [|z p IH]; intros path1 path2 H1 H2;
    [apply prefix_nil|].
  destruct path1 as [|x xs]; [by destruct H1|].
  destruct path2 as [|y ys]; [by destruct H2|].
  pose proof (prefix_cons_inv_1 _ _ _ _ H1). pose proof (prefix_cons_inv_1 _ _ _ _ H2).
  subst. simpl. rewrite bool_decide_true by done.
  apply prefix_cons, IH; by eapply prefix_cons_inv_2.
Qed.

Lemma findCommonPrefix_of_prefix path1 path2 :
  path1 `prefix_of` path2 -> findCommonPrefix path1 path2 = path1.
Proof.
  intros Hp.
  pose proof (findCommonPrefix_l path1 path2) as Hl.
  pose proof (findCommonPrefix_greatest path1 path2 path1 (reflexivity _) Hp) as Hg.
  apply prefix_length_eq'; [done|].
  apply prefix_length in Hl, Hg. lia.
Qed.

(** [findCommonPrefix] is the longest common initial segment. *)
Theorem findCommonPrefix_longest (path1 path2 : list string) :
  findCommonPrefix path1 path2 `prefix_of` path1
  /\ findCommonPrefix path1 path2 `prefix_of` path2
  /\ forall p, p `prefix_of` path1 -> p `prefix_of` path2 ->
               p `prefix_of` findCommonPrefix path1 path2.
Proof.
  split; [apply findCommonPrefix_l|]. split; [apply findCommonPrefix_r|].
  apply findCommonPrefix_greatest.
Qed.

(** The merged section has the smaller level; its path is the deeper of
    the two paths when one is an initial segment of the other, and their
    longest common initial segment otherwise. *)
Theorem mergeSectionInfo_deeper_or_common (currentChunk nextChunk : Chunk) :
  let p1 := path (section currentChunk) in
  let p2 := path (section nextChunk) in
  level (mergeSectionInfo currentChunk nextChunk)
  = Nat.min (level (section currentChunk)) (level (section nextChunk))
  /\ path (mergeSectionInfo currentChunk nextChunk)
     = if decide (p1 `prefix_of` p2) then p2
       else if decide (p2 `prefix_of` p1) then p1
       else findCommonPrefix p1 p2.
Proof.
  intros p1 p2. unfold mergeSectionInfo. fold p1 p2.
  destruct (_ && _ && _) eqn:Hexact.
  - apply andb_true_iff in Hexact as [[Hl%Nat.eqb_eq Hn%Nat.eqb_eq]%andb_true_iff
                                        Hp%everyEqualAt_prefix].
    split; [lia|]. rewrite decide_True by done. by apply prefix_length_eq'.
  - destruct (isPathIncluded p1 p2) eqn:H12.
    { apply isPathIncluded_strict in H12 as [Hp _]. simpl.
      by rewrite decide_True. }
    destruct (isPathIncluded p2 p1) eqn:H21.
    { apply isPathIncluded_strict in H21 as [Hp Hlen]. simpl. split; [done|].
      rewrite decide_False, decide_True; [done..|].
      intros Hq%prefix_length. lia. }
    simpl. split; [done|].
    destruct (decide (p1 `prefix_of` p2)) as [Hp|_].
    { rewrite findCommonPrefix_of_prefix by done.
      pose proof (prefix_length _ _ Hp) as Hle.
      destruct (decide (length p1 = length p2)) as [Heq|Hne];
        [by apply prefix_length_eq'|].
      assert (isPathIncluded p1 p2 = true); [|congruence].
      apply isPathIncluded_strict. split; [done|lia]. }
    destruct (decide (p2 `prefix_of` p1)) as [Hp|_]; [|done].
    pose proof (prefix_length _ _ Hp) as Hle.
    destruct (decide (length p2 = length p1)) as [Heq|Hne].
    { pose proof (prefix_length_eq' _ _ Hp Heq) as Hpq. rewrite <- Hpq.
      by apply findCommonPrefix_of_prefix. }
    assert (isPathIncluded p2 p1 = true); [|congruence].
    apply isPathIncluded_strict. split; [done|lia].
Qed.

(** *** Types *)

Lemma uniq_go_elem seen arr x :
  x ∈ JS.uniq_go seen arr <-> x ∈ arr /\ x ∉ seen.
Proof.
  revert seen. induction arr as [|y ys IH]; intros seen; simpl.
  - rewrite elem_of_nil. tauto.
  - rewrite elem_of_cons. case_bool_decide as Hy.
    + rewrite IH. split; [tauto|]. intros [[->|Hx] Hn]; [done|tauto].
    + rewrite elem_of_cons, IH, not_elem_of_cons.
      destruct (decide (x = y)) as [->|Hxy]; tauto.
Qed.

Lemma uniq_go_NoDup seen arr : NoDup (JS.uniq_go seen arr).
Proof.
  revert seen. induction arr as [|y ys IH]; intros seen; simpl; [constructor|].
  case_bool_decide; [apply IH|]. constructor; [|apply IH].
  rewrite uniq_go_elem. set_solver.
Qed.

(** The merged types are the types of either chunk, each of them once. *)
Theorem mergeTypes_union (currentTypes nextTypes : list string) :
  NoDup (mergeTypes currentTypes nextTypes)
  /\ forall t, t ∈ mergeTypes currentTypes nextTypes
               <-> t ∈ currentTypes \/ t ∈ nextTypes.
Proof.
  unfold mergeTypes, JS.uniq. split; [apply uniq_go_NoDup|].
  intros t. rewrite uniq_go_elem, elem_of_app. set_solver.
Qed.

(** *** The loop cuts the base chunks into runs *)

Section Runs.
Variables minChunkSize preferredChunkSize maxChunkSize : nat.

Local Abbreviation step :=
  (GreedySplitter.step minChunkSize preferredChunkSize maxChunkSize).
Local Abbreviation splitText :=
  (GreedySplitter.splitText minChunkSize preferredChunkSize maxChunkSize).

Lemma cutInto_push seen closed open out cur x :
  concat (closed ++ [open]) = seen ->
  Some <$> out = mergeRun <$> closed ->
  mergeRun open = Some cur ->
  cutInto (seen ++ [x]) ((closed ++ [open]) ++ [[x]])
    (out ++ [cur], Some (cloneChunk x)).
Proof.
  intros Hseen Hout Hopen. split.
  - by rewrite concat_app, Hseen.
  - simpl. exists (closed ++ [open]), [x]. split; [done|]. split; [|done].
    rewrite !fmap_app, Hout. simpl. by rewrite Hopen.
Qed.

Lemma mergeRun_snoc open cur x :
  mergeRun open = Some cur -> mergeRun (open ++ [x]) = Some (mergeChunks cur x).
Proof.
  destruct open as [|first rest]; [done|]. simpl. intros [= <-].
  by rewrite foldl_app.
Qed.

Lemma cutInto_step seen runs st x :
  cutInto seen runs st ->
  exists runs', cutInto (seen ++ [x]) runs' (step st x).
Proof.
  destruct st as [out [cur|]]; intros [Hseen Hst]; simpl in Hst.
  - destruct Hst as (closed & open & -> & Hout & Hopen).
    unfold GreedySplitter.step.
    destruct (maxChunkSize <? combinedSize cur x);
      [eexists; by apply cutInto_push|].
    destruct (_ && _ && _); [eexists; by apply cutInto_push|].
    destruct (_ && _ && _); [eexists; by apply cutInto_push|].
    exists (closed ++ [open ++ [x]]). split.
    + rewrite concat_app in *. simpl in *. rewrite app_nil_r in *.
      by rewrite <- Hseen, <- !app_assoc.
    + simpl. exists closed, (open ++ [x]). split; [done|]. split; [done|].
      by apply mergeRun_snoc.
  - destruct Hst as [-> ->]. simpl in Hseen. subst seen.
    exists [[x]]. split; [done|]. simpl. by exists [], [x].
Qed.

Lemma cutInto_run initialChunks :
  exists runs, cutInto initialChunks runs (foldl step ([], None) initialChunks).
Proof.
  induction initialChunks as [|x l IH] using rev_ind.
  - exists []. by split.
  - destruct IH as [runs IH]. rewrite foldl_app. simpl.
    by eapply cutInto_step.
Qed.

Lemma splitText_runs initialChunks :
  exists runs,
    concat runs = initialChunks
    /\ Some <$> splitText initialChunks = mergeRun <$> runs.
Proof.
  destruct (cutInto_run initialChunks) as (runs & Hseen & Hst).
  exists runs. split; [done|]. unfold GreedySplitter.splitText.
  destruct (foldl _ _ _) as [out [cur|]]; simpl in *.
  - destruct Hst as (closed & open & -> & Hout & Hopen).
    rewrite !fmap_app, Hout. simpl. by rewrite Hopen.
  - by destruct Hst as [-> ->].
Qed.

Lemma runs_length (runs : list (list Chunk)) (out : list Chunk) :
  Some <$> out = mergeRun <$> runs -> length out <= length (concat runs).
Proof.
  revert out. induction runs as [|r runs IH]; intros [|c out]; try done.
  simpl. intros [= Hr Hout]. rewrite length_app. specialize (IH _ Hout).
  destruct r; [done|]. simpl. lia.
Qed.

(** [splitText] cuts the base chunks, in their order, into runs of
    consecutive chunks and returns one chunk per run: the clone of its
    first chunk grown by the others in turn.  No base chunk is left out,
    repeated or moved, there are no more chunks than base chunks, and none
    exactly when there is no base chunk. *)
Theorem splitText_merges_runs (initialChunks : list Chunk) :
  (exists runs,
      concat runs = initialChunks
      /\ Some <$> splitText initialChunks = mergeRun <$> runs)
  /\ length (splitText initialChunks) <= length initialChunks
  /\ (splitText initialChunks = [] <-> initialChunks = []).
Proof.
  destruct (splitText_runs initialChunks) as (runs & Hseen & Hout).
  split; [by exists runs|]. split.
  - etrans; [by apply runs_length|]. by rewrite Hseen.
  - split.
    + intros Hnil. rewrite Hnil in Hout. destruct runs; [by subst|done].
    + by intros ->.
Qed.

(** *** The text is kept *)

Lemma substring_last (x b : string) :
  b <> EmptyString ->
  String.substring (String.length (x +:+ b) - 1) 1 (x +:+ b)
  = String.substring (String.length b - 1) 1 b.
Proof.
  intros Hb. induction x as [|c x IH]; [done|].
  rewrite append_cons. cbn [String.length].
  assert (Hpos : 0 < String.length (x +:+ b)).
  { rewrite length_append. destruct b; [done|]. cbn [String.length]. lia. }
  replace (S (String.length (x +:+ b)) - 1)
    with (S (String.length (x +:+ b) - 1)) by lia.
  exact IH.
Qed.

Lemma endsWith_append (x b : string) :
  b <> EmptyString ->
  JS.endsWith (x +:+ b) (JS.str JS.newline) = JS.endsWith b (JS.str JS.newline).
Proof.
  intros Hb. unfold JS.endsWith.
  assert (1 <= String.length b) by (destruct b; [done|cbn [String.length]; lia]).
  assert (1 <= String.length (x +:+ b)) by (rewrite length_append; lia).
  change (String.length (JS.str JS.newline)) with 1.
  rewrite !(proj2 (Nat.leb_le _ _)) by done.
  by rewrite substring_last.
Qed.

Lemma glue_nonempty a b : a <> EmptyString -> glue a b <> EmptyString.
Proof. intros Ha. unfold glue. destruct a; [done|]. by rewrite append_cons. Qed.

Lemma glue_nonempty_r a b : b <> EmptyString -> glue a b <> EmptyString.
Proof.
  intros Hb Heq. apply (f_equal String.length) in Heq. unfold glue in Heq.
  rewrite !length_append in Heq. destruct b; [done|].
  cbn [String.length] in Heq. lia.
Qed.

Lemma glue_assoc x a b :
  a <> EmptyString -> glue x (glue a b) = glue (glue x a) b.
Proof.
  intros Ha. unfold glue at 1 3.
  assert (Hends : JS.endsWith (glue x a) (JS.str JS.newline)
                  = JS.endsWith a (JS.str JS.newline)).
  { unfold glue. rewrite <- append_assoc. by apply endsWith_append. }
  rewrite Hends. unfold glue. by rewrite !append_assoc.
Qed.

Lemma glueAll_snoc bodies x :
  bodies <> [] -> glueAll (bodies ++ [x]) = glue (glueAll bodies) x.
Proof. destruct bodies; [done|]. intros _. simpl. by rewrite foldl_app. Qed.

Lemma glueAll_snoc_glue bodies a b :
  a <> EmptyString ->
  glueAll (bodies ++ [glue a b]) = glue (glueAll (bodies ++ [a])) b.
Proof.
  intros Ha. destruct bodies as [|o os]; [done|].
  rewrite !glueAll_snoc by done. by apply glue_assoc.
Qed.

Lemma content_mergeChunks cur x :
  content (mergeChunks cur x) = glue (content cur) (content x).
Proof. reflexivity. Qed.

Lemma glueAll_step seen st x :
  content x <> EmptyString ->
  (st.2 = None -> st.1 = [] /\ seen = []) ->
  (forall cur, st.2 = Some cur -> content cur <> EmptyString) ->
  glueAll (content <$> finish st) = glueAll (content <$> seen) ->
  (forall cur, (step st x).2 = Some cur -> content cur <> EmptyString)
  /\ (step st x).2 <> None
  /\ glueAll (content <$> finish (step st x))
     = glueAll (content <$> (seen ++ [x])).
Proof.
  intros Hx Hnone Hcur Hglue. destruct st as [out [cur|]]; simpl in *.
  - specialize (Hcur cur eq_refl).
    assert (Hseen : content <$> seen <> []).
    { intros Hnil. rewrite Hnil in Hglue. rewrite fmap_app in Hglue.
      simpl in Hglue.
      assert (glueAll ((content <$> out) ++ [content cur]) <> EmptyString);
        [|done].
      destruct out as [|o os]; [done|]. rewrite glueAll_snoc by done.
      by apply glue_nonempty_r. }
    assert (Hpush : glueAll (content <$> (out ++ [cur]) ++ [cloneChunk x])
                    = glueAll (content <$> seen ++ [x])).
    { rewrite !fmap_app. simpl.
      rewrite (glueAll_snoc (content <$> seen)) by done.
      rewrite glueAll_snoc by by destruct (content <$> out).
      by rewrite <- Hglue, fmap_app. }
    destruct (maxChunkSize <? combinedSize cur x);
      [split_and!; [by intros ? [= <-]|done|done]|].
    destruct (_ && _ && _); [split_and!; [by intros ? [= <-]|done|done]|].
    destruct (_ && _ && _); [split_and!; [by intros ? [= <-]|done|done]|].
    cbn [fst snd finish]. split_and!; [|done|].
    + intros ? [= <-]. rewrite content_mergeChunks. by apply glue_nonempty.
    + rewrite !fmap_app.
      change (content <$> [mergeChunks cur x])
        with [glue (content cur) (content x)].
      change (content <$> [x]) with [content x].
      rewrite glueAll_snoc_glue by done.
      rewrite (glueAll_snoc (content <$> seen)) by done.
      by rewrite <- Hglue, fmap_app.
  - destruct (Hnone eq_refl) as [-> ->]. simpl.
    split_and!; [by intros ? [= <-]|done|done].
Qed.

(** When no base chunk is empty, the bodies of the chunks returned, put
    together with a newline wherever one does not end with one, give the
    text the base chunks give when put together the same way. *)
Theorem splitText_keeps_text (initialChunks : list Chunk) :
  Forall (fun chunk => content chunk <> EmptyString) initialChunks ->
  glueAll (content <$> splitText initialChunks)
  = glueAll (content <$> initialChunks).
Proof.
  intros Hall. unfold GreedySplitter.splitText.
  assert (H : let st := foldl step ([], None) initialChunks in
              (st.2 = None -> st.1 = [] /\ initialChunks = [])
              /\ (forall cur, st.2 = Some cur -> content cur <> EmptyString)
              /\ glueAll (content <$> finish st)
                 = glueAll (content <$> initialChunks)); [|apply H].
  induction initialChunks as [|x l IH] using rev_ind; [done|].
  apply Forall_app in Hall as [Hl Hx]. rewrite Forall_singleton in Hx.
  destruct (IH Hl) as (Hnone & Hcur & Hglue). clear IH.
  rewrite foldl_app. cbn [foldl].
  assert (Hnone' : (foldl step ([], None) l).2 = None
                   -> (foldl step ([], None) l).1 = [] /\ l = []) by done.
  destruct (glueAll_step l _ x Hx Hnone' Hcur Hglue) as (Hc & Hsome & Hg).
  split_and!; done.
Qed.

End Runs.

(** Three base chunks under a maximum of 8: the first two are merged, the
    third would take the chunk past the maximum. *)
Lemma splitText_keeps_text_witness :
  let chunks := [mkChunk ["text"] "ab" (mkSection 1 ["A"]);
                 mkChunk ["text"] "cd" (mkSection 3 ["A"; "B"]);
                 mkChunk ["code"] "efgh" (mkSection 3 ["A"; "B"])]%string in
  Forall (fun chunk => content chunk <> EmptyString) chunks
  /\ length (splitText 3 6 8 chunks) = 2
  /\ glueAll (content <$> splitText 3 6 8 chunks)
     = glueAll (content <$> chunks).
Proof.
  intros chunks.
  assert (Hall : Forall (fun chunk => content chunk <> EmptyString) chunks)
    by (repeat constructor; discriminate).
  split; [exact Hall|]. split; [reflexivity|].
  exact (splitText_keeps_text 3 6 8 chunks Hall).
Defined.

End SplitterFacts.


(** ** escapeFtsQuery: tokens *)

Module TokenFacts.
Import Fts Tokens StringFacts FtsFacts.

Lemma tokenChars_snoc tokens t :
  tokenChars (tokens ++ [t]) = tokenChars tokens ++ list_ascii_of_string t.
Proof.
  unfold tokenChars. rewrite fmap_app, concat_app. simpl. by rewrite app_nil_r.
Qed.

Lemma keptChars_pushCurrent st : keptChars (pushCurrent st) = keptChars st.
Proof.
  unfold pushCurrent, keptChars.
  destruct (0 <? String.length (currentToken st)); [|done].
  simpl. by rewrite tokenChars_snoc, app_nil_r.
Qed.

Lemma keptChars_stepChar st c :
  filter (fun a => a <> JS.space) (keptChars (stepChar st c))
  = filter (fun a => a <> JS.space) (keptChars st)
    ++ filter (fun a => a <> JS.space /\ a <> JS.dquote) [c].
Proof.
  unfold stepChar. case_bool_decide as Hq.
  { subst c.
    replace (filter (fun a => a <> JS.space /\ a <> JS.dquote) [JS.dquote])
      with (@nil ascii) by (rewrite filter_cons_False; [done|tauto]).
    rewrite app_nil_r.
    destruct (inQuote st);
      change (keptChars (setInQuote _ (pushCurrent st)))
        with (keptChars (pushCurrent st));
      by rewrite keptChars_pushCurrent. }
  destruct (bool_decide (c = JS.space) && negb (inQuote st)) eqn:Hs.
  { apply andb_true_iff in Hs as [Hs%bool_decide_eq_true _]. subst c.
    rewrite keptChars_pushCurrent.
    rewrite (filter_cons_False _ JS.space) by tauto. by rewrite app_nil_r. }
  unfold keptChars. simpl. rewrite list_of_append, app_assoc, filter_app.
  f_equal. simpl.
  destruct (decide (c = JS.space)) as [->|Hc].
  - rewrite !filter_cons_False; [done|tauto..].
  - rewrite !filter_cons_True; [done|tauto..].
Qed.

Lemma keptChars_run l st :
  filter (fun a => a <> JS.space) (keptChars (foldl stepChar st l))
  = filter (fun a => a <> JS.space) (keptChars st)
    ++ filter (fun a => a <> JS.space /\ a <> JS.dquote) l.
Proof.
  revert st. induction l as [|c l IH]; intros st; simpl.
  - by rewrite app_nil_r.
  - rewrite IH, keptChars_stepChar, <- app_assoc. f_equal.
    by rewrite <- filter_app.
Qed.

Lemma tokenize_kept (query : string) :
  filter (fun a => a <> JS.space) (tokenChars (tokenize query))
  = filter (fun a => a <> JS.space /\ a <> JS.dquote)
      (list_ascii_of_string query).
Proof.
  unfold tokenize.
  pose proof (keptChars_run (list_ascii_of_string query)
                (mkTok [] EmptyString false)) as Hrun.
  rewrite <- keptChars_pushCurrent in Hrun.
  set (st := pushCurrent _) in *.
  assert (Hcur : currentToken st = EmptyString).
  { unfold st, pushCurrent. destruct (0 <? _) eqn:Hlen; [done|].
    apply Nat.ltb_ge in Hlen. destruct (currentToken _); [done|].
    cbn [String.length] in Hlen. lia. }
  unfold keptChars in Hrun at 1. rewrite Hcur in Hrun. simpl in Hrun.
  by rewrite app_nil_r in Hrun.
Qed.

(** Every character of the query that is neither a blank nor a double
    quote ends up in a token, in its place; besides these the tokens hold
    blanks only (those of the phrases). *)
Theorem tokenize_keeps_characters (query : string) :
  filter (fun a => a <> JS.space) (tokenChars (tokenize query))
  = filter (fun a => a <> JS.space /\ a <> JS.dquote)
      (list_ascii_of_string query).
Proof. apply tokenize_kept. Qed.

Lemma filter_ext_in {A} (P Q : A -> Prop) `{!forall x, Decision (P x)}
    `{!forall x, Decision (Q x)} (l : list A) :
  (forall x, x ∈ l -> P x <-> Q x) -> filter P l = filter Q l.
Proof.
  induction l as [|x l IH]; intros Hext; [done|].
  rewrite !filter_cons, IH by (intros; apply Hext; by right).
  assert (Hx : P x <-> Q x) by (apply Hext; by left).
  destruct (decide (P x)), (decide (Q x)); tauto || done.
Qed.

Lemma tokenChars_elem c tokens :
  c ∈ tokenChars tokens <-> exists t, t ∈ tokens /\ c ∈ list_ascii_of_string t.
Proof.
  unfold tokenChars. induction tokens as [|t ts IH]; simpl.
  - split; [by intros ?%elem_of_nil|]. by intros (t & ?%elem_of_nil & _).
  - rewrite elem_of_app, IH. split.
    + intros [Hc|(t' & Ht & Hc)]; [exists t|exists t']; split; try done;
        [by left|by right].
    + intros (t' & [->|Ht]%elem_of_cons & Hc); [by left|right; eauto].
Qed.

(** *** Queries without a double quote *)

Lemma spaceFree_pushCurrent st : spaceFree st -> spaceFree (pushCurrent st).
Proof.
  intros (Hq & Ht & Hc). unfold pushCurrent.
  destruct (0 <? _); [|done]. split_and!; simpl; [done| |set_solver].
  apply Forall_app. split; [done|]. by apply Forall_singleton.
Qed.

Lemma spaceFree_stepChar st c :
  c <> JS.dquote -> spaceFree st -> spaceFree (stepChar st c).
Proof.
  intros Hc Hst. unfold stepChar. rewrite bool_decide_false by done.
  destruct Hst as (Hq & Ht & Hcur). rewrite Hq, andb_true_r.
  case_bool_decide as Hs; [by apply spaceFree_pushCurrent|].
  split_and!; simpl; [done..|].
  rewrite list_of_append. simpl. set_solver.
Qed.

Lemma spaceFree_run l st :
  JS.dquote ∉ l -> spaceFree st -> spaceFree (foldl stepChar st l).
Proof.
  revert st. induction l as [|c l IH]; intros st Hl Hst; simpl; [done|].
  apply not_elem_of_cons in Hl as [Hc Hl].
  apply IH; [done|]. by apply spaceFree_stepChar.
Qed.

Lemma splitBlanks_cons s : exists piece pieces, splitBlanks s = piece :: pieces.
Proof.
  induction s as [|c s (piece & pieces & IH)]; simpl; [by eauto|].
  case_bool_decide; [by eauto|]. rewrite IH. by eauto.
Qed.

Lemma splitBlanks_append cur s piece pieces :
  JS.space ∉ list_ascii_of_string cur ->
  splitBlanks s = piece :: pieces ->
  splitBlanks (cur +:+ s) = (cur +:+ piece) :: pieces.
Proof.
  intros Hcur Hs. induction cur as [|c cur IH]; [done|].
  simpl in Hcur. apply not_elem_of_cons in Hcur as [Hc Hcur].
  rewrite !append_cons. simpl. rewrite bool_decide_false by congruence.
  by rewrite IH.
Qed.

Lemma words_append_blank cur s :
  JS.space ∉ list_ascii_of_string cur ->
  words (cur +:+ String JS.space s)
  = (if (0 <? String.length cur)%nat then [cur] else []) ++ words s.
Proof.
  intros Hcur. unfold words.
  rewrite (splitBlanks_append cur (String JS.space s) EmptyString
             (splitBlanks s)) by done.
  rewrite append_nil_r, filter_cons.
  destruct cur as [|c cur];
    [by rewrite decide_False by auto | by rewrite decide_True by done].
Qed.

Lemma words_single cur :
  JS.space ∉ list_ascii_of_string cur ->
  words cur = if (0 <? String.length cur)%nat then [cur] else [].
Proof.
  intros Hcur. unfold words.
  rewrite <- (append_nil_r cur) at 1.
  rewrite (splitBlanks_append cur EmptyString EmptyString []) by done.
  rewrite append_nil_r, filter_cons.
  destruct cur as [|c cur];
    [by rewrite decide_False by auto | by rewrite decide_True by done].
Qed.

Lemma tokens_pushCurrent st :
  tokens (pushCurrent st)
  = tokens st ++ (if (0 <? String.length (currentToken st))%nat
                  then [currentToken st] else []).
Proof.
  unfold pushCurrent. destruct (0 <? _)%nat; simpl; [done|].
  by rewrite app_nil_r.
Qed.

Lemma tokenize_run (s : string) :
  forall st,
    ~ hasQuote s -> inQuote st = false ->
    JS.space ∉ list_ascii_of_string (currentToken st) ->
    tokens (pushCurrent (foldl stepChar st (list_ascii_of_string s)))
    = tokens st ++ words (currentToken st +:+ s).
Proof.
  unfold hasQuote. induction s as [|c s IH]; intros st Hs Hq Hcur.
  - simpl. rewrite append_nil_r, words_single by done.
    apply tokens_pushCurrent.
  - simpl in Hs. apply not_elem_of_cons in Hs as [Hc Hs].
    cbn [list_ascii_of_string foldl]. unfold stepChar at 2.
    rewrite bool_decide_false by congruence. rewrite Hq, andb_true_r.
    case_bool_decide as Hblank.
    + subst c. rewrite IH; [|done| |].
      * rewrite tokens_pushCurrent, words_append_blank by done.
        rewrite <- app_assoc. f_equal. f_equal.
        unfold pushCurrent.
        destruct (currentToken st) as [|c cur] eqn:Hcurrent; simpl;
          [by rewrite Hcurrent|done].
      * unfold pushCurrent. by destruct (0 <? _)%nat.
      * unfold pushCurrent. destruct (0 <? _)%nat; [|done]. simpl.
        apply not_elem_of_nil.
    + rewrite IH; simpl.
      * by rewrite append_assoc.
      * done.
      * done.
      * rewrite list_of_append. simpl. rewrite not_elem_of_app.
        split; [done|]. rewrite not_elem_of_cons. split; [congruence|].
        apply not_elem_of_nil.
Qed.
(** The tokens of a query without a double quote are its words, the
    pieces between its blanks that are not empty, in their order: none is
    empty, none contains a blank, and together they are the query
    without its blanks. *)
Theorem tokenize_words (query : string) :
  ~ hasQuote query ->
  tokenize query = words query
  /\ Forall (fun t => t <> EmptyString /\ JS.space ∉ list_ascii_of_string t)
            (tokenize query)
  /\ tokenChars (tokenize query)
     = filter (fun a => a <> JS.space) (list_ascii_of_string query).
Proof.
  intros Hq. split.
  { unfold tokenize.
    rewrite (tokenize_run query (mkTok [] EmptyString false));
      [done|done|done|apply not_elem_of_nil]. }
  assert (Hfree : Forall (fun t => JS.space ∉ list_ascii_of_string t)
                         (tokenize query)).
  { unfold tokenize.
    apply (spaceFree_pushCurrent (foldl stepChar _ _)),
      spaceFree_run; [done|]. split_and!; simpl; [done|constructor|set_solver]. }
  split.
  - pose proof (tokenize_clean query) as Hclean.
    rewrite Forall_forall in *. intros t Ht. split; [apply Hclean, Ht|].
    by apply Hfree.
  - pose proof (tokenize_kept query) as Hkeep.
    rewrite (StoreFacts.filter_all (fun a => a <> JS.space)) in Hkeep.
    + rewrite Hkeep. apply filter_ext_in. intros a Ha. split; [tauto|].
      intros Hs. split; [done|]. intros ->. by apply Hq.
    + apply Forall_forall. intros c (t & Ht & Hc)%tokenChars_elem ->.
      rewrite Forall_forall in Hfree. by apply (Hfree t).
Qed.

(** *** Blank queries *)

Lemma tokenChars_nil tokens :
  Forall (fun t => t <> EmptyString) tokens ->
  tokenChars tokens = [] -> tokens = [].
Proof.
  destruct 1 as [|t ts Ht _]; [done|]. unfold tokenChars. simpl.
  destruct t; [done|]. discriminate.
Qed.

(** A query of blanks only, the empty query among them, has no token and
    becomes the empty phrase. *)
Theorem escapeFtsQuery_blank (query : string) :
  Forall (fun c => c = JS.space) (list_ascii_of_string query) ->
  tokenize query = [] /\ escapeFtsQuery query = twoQuotes.
Proof.
  intros Hblank.
  assert (Htok : tokenize query = []).
  { apply tokenChars_nil.
    - eapply Forall_impl; [apply tokenize_clean|]. by intros t [_ Ht].
    - assert (Hfree : spaceFree
                (pushCurrent (foldl stepChar (mkTok [] EmptyString false)
                                (list_ascii_of_string query)))).
      { apply spaceFree_pushCurrent, spaceFree_run.
        - rewrite Forall_forall in Hblank. intros Hq%Hblank. discriminate.
        - split_and!; simpl; [done|constructor|set_solver]. }
      destruct Hfree as (_ & Hfree & _). fold (tokenize query) in Hfree.
      pose proof (tokenize_kept query) as Hkeep.
      rewrite (StoreFacts.filter_all (fun a => a <> JS.space)) in Hkeep.
      + rewrite Hkeep. apply StoreFacts.filter_none.
        eapply Forall_impl; [exact Hblank|]. intros c ->. tauto.
      + apply Forall_forall. intros c (t & Ht & Hc)%tokenChars_elem ->.
        rewrite Forall_forall in Hfree. by apply (Hfree t). }
  split; [done|]. unfold escapeFtsQuery. by rewrite Htok.
Qed.

(** *** Escaping loses nothing *)

Lemma replaceAll_inj (s1 s2 : string) :
  JS.replaceAll JS.dquote twoQuotes s1 = JS.replaceAll JS.dquote twoQuotes s2 ->
  s1 = s2.
Proof.
  revert s2. induction s1 as [|c1 s1 IH]; intros [|c2 s2]; cbn [JS.replaceAll].
  - done.
  - case_bool_decide; unfold twoQuotes, JS.str;
      rewrite ?append_cons, ?append_nil_l; discriminate.
  - case_bool_decide; unfold twoQuotes, JS.str;
      rewrite ?append_cons, ?append_nil_l; discriminate.
  - do 2 case_bool_decide; unfold twoQuotes, JS.str;
      rewrite ?append_cons, ?append_nil_l; intros Heq.
    + injection Heq as Heq. f_equal; [congruence|by apply IH].
    + injection Heq as Hc _. congruence.
    + injection Heq as Hc _. congruence.
    + injection Heq as Hc Heq. f_equal; [done|by apply IH].
Qed.

Lemma append_inj_r (a b c : string) : a +:+ c = b +:+ c -> a = b.
Proof.
  intros Heq. apply (f_equal list_ascii_of_string) in Heq.
  rewrite !list_of_append in Heq. apply app_inv_tail in Heq.
  rewrite <- (string_of_list_ascii_of_string a),
          <- (string_of_list_ascii_of_string b). by rewrite Heq.
Qed.

(** Different tokens are quoted differently. *)
Theorem quoteToken_inj (token1 token2 : string) :
  quoteToken token1 = quoteToken token2 <-> token1 = token2.
Proof.
  split; [|by intros ->]. unfold quoteToken, JS.str.
  rewrite !append_cons, !append_nil_l. intros [= Heq].
  by apply append_inj_r, replaceAll_inj in Heq.
Qed.

(** *** Phrases *)

Lemma foldl_stepChar_phrase l tokens current :
  JS.dquote ∉ l ->
  foldl stepChar (mkTok tokens current true) l
  = mkTok tokens (current +:+ string_of_list_ascii l) true.
Proof.
  revert current. induction l as [|c l IH]; intros current Hl; simpl.
  - by rewrite append_nil_r.
  - apply not_elem_of_cons in Hl as [Hc Hl].
    unfold stepChar at 2. rewrite bool_decide_false by done.
    simpl. rewrite andb_false_r, IH by done.
    by rewrite append_assoc.
Qed.

(** A query that is one phrase between double quotes is one token, blanks
    included, and comes out as it went in. *)
Theorem escapeFtsQuery_phrase (phrase : string) :
  ~ hasQuote phrase -> phrase <> EmptyString ->
  tokenize (wrap phrase) = [phrase]
  /\ escapeFtsQuery (wrap phrase) = wrap phrase.
Proof.
  intros Hq Hne.
  assert (Htok : tokenize (wrap phrase) = [phrase]).
  { unfold tokenize.
    change (list_ascii_of_string (wrap phrase))
      with (JS.dquote :: list_ascii_of_string (phrase +:+ JS.str JS.dquote)).
    rewrite list_of_append.
    change (list_ascii_of_string (JS.str JS.dquote)) with [JS.dquote].
    cbn [foldl]. rewrite foldl_app. cbn [foldl].
    change (stepChar (mkTok [] EmptyString false) JS.dquote)
      with (mkTok [] EmptyString true).
    rewrite foldl_stepChar_phrase by done.
    rewrite append_nil_l, string_of_list_ascii_of_string.
    cbn [foldl]. unfold stepChar. rewrite bool_decide_true by done.
    cbn [inQuote]. unfold pushCurrent at 2. cbn [currentToken tokens inQuote].
    destruct phrase as [|c p]; [done|]. cbn [String.length Nat.ltb Nat.leb].
    reflexivity. }
  split; [done|]. unfold escapeFtsQuery. rewrite Htok. simpl.
  unfold quoteToken, wrap. by rewrite replaceAll_clean.
Qed.

Lemma tokenize_words_witness :
  ~ hasQuote " foo  bar baz"
  /\ words " foo  bar baz" = ["foo"; "bar"; "baz"]%string
  /\ tokenize " foo  bar baz" = words " foo  bar baz".
Proof.
  assert (Hq : ~ hasQuote " foo  bar baz").
  { unfold hasQuote. apply (bool_decide_unpack _). reflexivity. }
  split; [exact Hq|]. split; [reflexivity|].
  exact (proj1 (tokenize_words " foo  bar baz" Hq)).
Defined.

Lemma escapeFtsQuery_blank_witness :
  Forall (fun c => c = JS.space) (list_ascii_of_string "   ")
  /\ tokenize "   " = [] /\ escapeFtsQuery "   " = twoQuotes.
Proof.
  assert (Hblank : Forall (fun c => c = JS.space) (list_ascii_of_string "   "))
    by (repeat constructor).
  split; [exact Hblank|]. exact (escapeFtsQuery_blank "   " Hblank).
Defined.

Lemma escapeFtsQuery_phrase_witness :
  ~ hasQuote "hello world" /\ "hello world"%string <> EmptyString
  /\ tokenize (wrap "hello world") = ["hello world"]%string
  /\ escapeFtsQuery (wrap "hello world") = wrap "hello world".
Proof.
  assert (Hq : ~ hasQuote "hello world").
  { unfold hasQuote. apply (bool_decide_unpack _). reflexivity. }
  assert (Hne : "hello world"%string <> EmptyString) by discriminate.
  split; [exact Hq|]. split; [exact Hne|].
  exact (escapeFtsQuery_phrase "hello world" Hq Hne).
Defined.

End TokenFacts.


(** ** assignRanks and calculateRRF *)

Module RankFacts.
Import Rrf Ranks RrfFacts.

Lemma StronglySorted_lookup_lt {A} (R : A -> A -> Prop) (l : list A) i j a b :
  StronglySorted R l -> l !! i = Some a -> l !! j = Some b -> i < j -> R a b.
Proof.
  intros Hl. revert i j. induction Hl as [|x l Hl IH Hx]; intros i j Hi Hj Hlt;
    [done|].
  destruct j as [|j]; [lia|]. destruct i as [|i]; simpl in *.
  - injection Hi as <-. rewrite Forall_forall in Hx.
    by eapply Hx, list_elem_of_lookup_2.
  - eapply IH; [done..|lia].
Qed.

Section Index.
Variable score : RawSearchResult -> option Q.
Variable results : list RawSearchResult.
Hypothesis distinct : NoDup (id <$> results).

Local Abbreviation scored :=
  (filter (fun r => is_Some (score r)) results).
Local Abbreviation sorted :=
  (sortBy (fun a b => (orZero (score b) - orZero (score a))%Q) scored).

Lemma sorted_perm : sorted ≡ₚ scored.
Proof. apply (sortBy_perm (fun x => orZero (score x))). Qed.

Lemma sorted_NoDup : NoDup (id <$> sorted).
Proof.
  rewrite sorted_perm. eapply sublist_NoDup; [exact distinct|].
  apply fmap_sublist, sublist_filter.
Qed.

Lemma ranksBy_unscored r :
  r ∈ results -> score r = None -> ranksBy score results !! id r = None.
Proof.
  intros Hr Hs. unfold ranksBy.
  rewrite (ranks_fold_other pair); [done..|].
  intros (r' & Hid & Hr')%list_elem_of_fmap.
  rewrite sorted_perm in Hr'. apply list_elem_of_filter in Hr' as [Hs' Hr'].
  assert (r = r'); [|subst; rewrite Hs in Hs'; by destruct Hs'].
  apply list_elem_of_lookup in Hr as [i Hi], Hr' as [j Hj].
  assert (i = j); [|congruence].
  eapply NoDup_lookup; [exact distinct|..];
    rewrite list_lookup_fmap; [by rewrite Hi|by rewrite Hj, Hid].
Qed.

Lemma ranksBy_scored r :
  r ∈ results -> is_Some (score r) ->
  exists i, sorted !! i = Some r
            /\ ranksBy score results !! id r = Some (i + 1)
            /\ i < length scored.
Proof.
  intros Hr Hs.
  assert (Hin : r ∈ sorted) by (rewrite sorted_perm; by apply list_elem_of_filter).
  apply list_elem_of_lookup in Hin as [i Hi]. exists i. split; [done|]. split.
  - by apply ranksBy_position.
  - apply lookup_lt_Some in Hi. by rewrite sorted_perm in Hi.
Qed.

Lemma ranksBy_order a b sa sb :
  a ∈ results -> b ∈ results ->
  score a = Some sa -> score b = Some sb -> (sb < sa)%Q ->
  exists ka kb, ranksBy score results !! id a = Some ka
                /\ ranksBy score results !! id b = Some kb /\ ka < kb.
Proof.
  intros Ha Hb Hsa Hsb Hlt.
  destruct (ranksBy_scored a Ha) as (i & Hi & Hra & _); [by rewrite Hsa|].
  destruct (ranksBy_scored b Hb) as (j & Hj & Hrb & _); [by rewrite Hsb|].
  exists (i + 1), (j + 1). split; [done|]. split; [done|].
  destruct (decide (i < j)) as [|Hge]; [lia|]. exfalso.
  destruct (decide (i = j)) as [->|Hne].
  - rewrite Hi in Hj. injection Hj as ->. rewrite Hsa in Hsb.
    injection Hsb as ->. by apply Qlt_irrefl in Hlt.
  - pose proof (sortBy_sorted (fun x => orZero (score x)) scored) as Hsorted.
    pose proof (StronglySorted_lookup_lt _ _ j i b a Hsorted Hj Hi) as Hd.
    unfold descending in Hd. rewrite Hsa, Hsb in Hd. simpl in Hd.
    assert (sa <= sb)%Q by (apply Hd; lia). lra.
Qed.

Lemma ranksBy_inj a b k :
  a ∈ results -> b ∈ results ->
  ranksBy score results !! id a = Some k ->
  ranksBy score results !! id b = Some k -> a = b.
Proof.
  intros Ha Hb Hka Hkb.
  destruct (score a) as [sa|] eqn:Hsa;
    [|by rewrite ranksBy_unscored in Hka].
  destruct (score b) as [sb|] eqn:Hsb;
    [|by rewrite ranksBy_unscored in Hkb].
  destruct (ranksBy_scored a Ha) as (i & Hi & Hra & _); [by rewrite Hsa|].
  destruct (ranksBy_scored b Hb) as (j & Hj & Hrb & _); [by rewrite Hsb|].
  assert (i = j) by (rewrite Hka in Hra; rewrite Hkb in Hrb; simplify_eq; lia).
  subst. congruence.
Qed.

End Index.

Lemma assignRanks_raw weightVec weightFts results :
  raw <$> assignRanks weightVec weightFts results = results.
Proof.
  unfold assignRanks. rewrite <- list_fmap_compose. apply list_fmap_id.
Qed.

Lemma ranksFollowScores_intro weightVec weightFts results score rank :
  NoDup (id <$> results) ->
  (forall x, x ∈ assignRanks weightVec weightFts results ->
             rank x = ranksBy score results !! id (raw x)) ->
  ranksFollowScores score rank (assignRanks weightVec weightFts results).
Proof.
  intros Hnd Hrank.
  assert (Hraw : forall x, x ∈ assignRanks weightVec weightFts results ->
                           raw x ∈ results).
  { intros x Hx. rewrite <- (assignRanks_raw weightVec weightFts results).
    by apply list_elem_of_fmap_2. }
  assert (Hn : length (filter (fun x => is_Some (score (raw x)))
                         (assignRanks weightVec weightFts results))
               = length (filter (fun r => is_Some (score r)) results)).
  { rewrite <- (assignRanks_raw weightVec weightFts results) at 2.
    generalize (assignRanks weightVec weightFts results).
    induction l as [|x l IH]; [done|]. rewrite fmap_cons, !filter_cons.
    destruct (decide (is_Some (score (raw x)))); simpl; by rewrite IH. }
  unfold ranksFollowScores. rewrite Hn. split_and!.
  - intros x Hx Hs. rewrite Hrank by done. by apply ranksBy_unscored; auto.
  - intros x Hx Hs. rewrite Hrank by done.
    destruct (ranksBy_scored score results Hnd (raw x)) as (i & _ & -> & Hi);
      auto.
    exists (i + 1). split; [done|lia].
  - intros x y sx sy Hx Hy Hsx Hsy Hlt. rewrite !Hrank by done.
    by eapply ranksBy_order; eauto.
  - intros x y k Hx Hy. rewrite !Hrank by done. intros Hkx Hky.
    f_equal. by eapply ranksBy_inj; eauto.
Qed.

(** When the rows have distinct ids, the vector ranks follow the vector
    scores and the full-text ranks follow the full-text scores: ranks go to
    the scored results only, run from 1 to their number, put a higher
    score strictly before a lower one, and are given once each. *)
Theorem assignRanks_follow_scores weightVec weightFts
    (results : list RawSearchResult) :
  NoDup (id <$> results) ->
  ranksFollowScores vec_score vec_rank (assignRanks weightVec weightFts results)
  /\ ranksFollowScores fts_score fts_rank
       (assignRanks weightVec weightFts results).
Proof.
  intros Hnd. split; apply ranksFollowScores_intro; try done.
  - intros x (r & -> & _)%list_elem_of_fmap. done.
  - intros x (r & -> & _)%list_elem_of_fmap. done.
Qed.

(** Three rows, the third without a vector score: the vector ranks are 2
    and 1, the full-text ranks 1, 3 and 2. *)
Lemma assignRanks_follow_scores_witness :
  let results := [mkRaw 1 "alpha" None None (Some (1 # 2)) (Some 3%Q);
                  mkRaw 2 "beta" None None (Some (2 # 3)) (Some 1%Q);
                  mkRaw 3 "gamma" None None None (Some 2%Q)]%string in
  NoDup (id <$> results)
  /\ vec_rank <$> assignRanks 1 1 results = [Some 2; Some 1; None]
  /\ fts_rank <$> assignRanks 1 1 results = [Some 1; Some 3; Some 2]
  /\ ranksFollowScores vec_score vec_rank (assignRanks 1 1 results).
Proof.
  intros results.
  assert (Hnd : NoDup (id <$> results)).
  { apply (bool_decide_unpack _). reflexivity. }
  split; [exact Hnd|]. split; [reflexivity|]. split; [reflexivity|].
  exact (proj1 (assignRanks_follow_scores 1 1 results Hnd)).
Defined.

(** *** The fused score *)

Lemma rrf_term_nonneg (weight : Q) (r : nat) :
  (0 <= weight)%Q -> (0 <= weight / inject_Z (Z.of_nat (60 + r)))%Q.
Proof.
  intros Hw. apply Qle_shift_div_l.
  - change 0%Q with (inject_Z 0). rewrite <- Zlt_Qlt. lia.
  - lra.
Qed.

Lemma rrf_term_antitone (weight : Q) (r r' : nat) :
  (0 <= weight)%Q -> r <= r' ->
  (weight / inject_Z (Z.of_nat (60 + r'))
   <= weight / inject_Z (Z.of_nat (60 + r)))%Q.
Proof.
  intros Hw Hr.
  assert (Hpos : forall n : nat, (0 < inject_Z (Z.of_nat (60 + n)))%Q).
  { intros n. change 0%Q with (inject_Z 0). rewrite <- Zlt_Qlt. lia. }
  assert (Hle : (inject_Z (Z.of_nat (60 + r)) <= inject_Z (Z.of_nat (60 + r')))%Q).
  { rewrite <- Zle_Qle. lia. }
  apply Qle_shift_div_l; [apply Hpos|].
  set (b := inject_Z (Z.of_nat (60 + r))) in *.
  set (b' := inject_Z (Z.of_nat (60 + r'))) in *.
  assert (Hb : (0 < b)%Q) by apply Hpos.
  assert (Hb' : (0 < b')%Q) by apply Hpos.
  assert (Hx : (0 <= weight / b')%Q) by by apply rrf_term_nonneg.
  assert (Heq : (weight / b' * b' == weight)%Q) by (field; lra).
  apply Qle_trans with (weight / b' * b')%Q; [|rewrite Heq; apply Qle_refl].
  apply Qmult_le_compat_nonneg; split; try done; try apply Qle_refl; lra.
Qed.

(** With weights that are not negative, a rank that is at least as good
    in both indexes never gives the lower fused score, and a candidate
    without any rank scores 0. *)
Theorem calculateRRF_better_rank (weightVec weightFts : Q)
    (vecRank vecRank' ftsRank ftsRank' : option nat) :
  (0 <= weightVec)%Q -> (0 <= weightFts)%Q ->
  atLeastAsGood vecRank vecRank' -> atLeastAsGood ftsRank ftsRank' ->
  (calculateRRF weightVec weightFts vecRank' ftsRank'
   <= calculateRRF weightVec weightFts vecRank ftsRank)%Q
  /\ (calculateRRF weightVec weightFts None None == 0)%Q.
Proof.
  intros Hv Hf Hvec Hfts. split; [|reflexivity].
  rewrite !calculateRRF_fused. unfold fusedScore.
  apply Qplus_le_compat.
  - destruct vecRank as [v|], vecRank' as [v'|]; simpl in *;
      first [by apply rrf_term_antitone | by apply rrf_term_nonneg
            | apply Qle_refl | done].
  - destruct ftsRank as [f|], ftsRank' as [f'|]; simpl in *;
      first [by apply rrf_term_antitone | by apply rrf_term_nonneg
            | apply Qle_refl | done].
Qed.

Lemma calculateRRF_better_rank_witness :
  (0 <= 1)%Q /\ atLeastAsGood (Some 1) (Some 3) /\ atLeastAsGood (Some 2) None
  /\ (calculateRRF 1 1 (Some 3%nat) None
      <= calculateRRF 1 1 (Some 1%nat) (Some 2%nat))%Q.
Proof.
  assert (Hw : (0 <= 1)%Q) by (vm_compute; discriminate).
  assert (Hv : atLeastAsGood (Some 1) (Some 3)) by (simpl; lia).
  assert (Hf : atLeastAsGood (Some 2) None) by exact I.
  split; [exact Hw|]. split; [exact Hv|]. split; [exact Hf|].
  exact (proj1 (calculateRRF_better_rank 1 1 (Some 1) (Some 3) (Some 2) None
                  Hw Hw Hv Hf)).
Defined.

End RankFacts.


(** ** The embedding client and its batches *)

Module BatchFacts.
Import Embeddings Store Batches EmbeddingFacts StoreFacts.

Section Client.
Variable embedDocuments : list string -> Outcome (list Vector).
Variable schedule : list string -> Schedule.

(** *** One vector per text *)

Hypothesis perText :
  forall batch vectors,
    embedDocuments batch = Returns vectors -> length vectors = length batch.

Lemma embedRetry_length fuel texts vectors calls :
  embedRetry embedDocuments schedule fuel texts = (Returns vectors, calls) ->
  length vectors = length texts.
Proof.
  revert texts vectors calls.
  induction fuel as [|fuel IH]; intros [|text rest] vectors calls; simpl;
    try by intros [= <- _].
  - destruct (embedDocuments (text :: rest)) as [v|e|] eqn:Hc; [|by destruct (isInputSizeError e)|done].
    intros [= <- _]. by apply perText in Hc.
  - destruct (embedDocuments (text :: rest)) as [v|e|] eqn:Hc; [| |done].
    { intros [= <- _]. by apply perText in Hc. }
    destruct (isInputSizeError e); [|done].
    destruct (1 <? S (length rest)) eqn:Hmany.
    + destruct (embedRetry _ _ fuel (take _ _)) as [first calls1] eqn:H1.
      destruct (embedRetry _ _ fuel (drop _ _)) as [second calls2] eqn:H2.
      destruct first as [v1|?|], second as [v2|?|]; simpl; try done.
      intros [= <- _]. rewrite length_app.
      rewrite (IH _ _ _ H1), (IH _ _ _ H2), <- length_app.
      by rewrite take_drop.
    + destruct (embedRetry _ _ fuel [_]) as [embedding calls'] eqn:H1.
      intros [= -> _]. apply IH in H1. simpl in H1.
      apply Nat.ltb_ge in Hmany. simpl. lia.
Qed.

End Client.

(** When the client answers every batch it accepts with one vector per
    text, a call that returns gives one vector per text, however the
    batch had to be split or its text shortened. *)
Theorem embedDocumentsWithRetry_one_per_text
    (embedDocuments : list string -> Outcome (list Vector))
    (schedule : list string -> Schedule)
    (texts : list string) (vectors : list Vector) (calls : list (list string)) :
  (forall batch answer,
      embedDocuments batch = Returns answer -> length answer = length batch) ->
  embedDocumentsWithRetry embedDocuments schedule texts = (Returns vectors, calls) ->
  length vectors = length texts.
Proof. intros Hclient. by apply embedRetry_length. Qed.

Lemma sizeLimitedClient_per_text limit batch answer :
  sizeLimitedClient limit batch = Returns answer ->
  length answer = length batch.
Proof.
  unfold sizeLimitedClient. destruct (limit <? _); [done|].
  intros [= <-]. by rewrite length_fmap.
Qed.

Lemma embedDocumentsWithRetry_one_per_text_witness :
  (forall batch answer,
      sizeLimitedClient 4 batch = Returns answer ->
      length answer = length batch)
  /\ embedDocumentsWithRetry (sizeLimitedClient 4) inOrder
       ["ab"; "cde"; "fghijk"]%string
     = (Returns [[2%Q]; [3%Q]; [3%Q]],
        [["ab"; "cde"; "fghijk"]; ["ab"]; ["cde"; "fghijk"]; ["cde"];
         ["fghijk"]; ["fgh"]]%string)
  /\ length [[2%Q]; [3%Q]; [3%Q]] = length ["ab"; "cde"; "fghijk"]%string.
Proof.
  split; [exact (sizeLimitedClient_per_text 4)|]. split; [reflexivity|].
  exact (embedDocumentsWithRetry_one_per_text (sizeLimitedClient 4) inOrder
           ["ab"; "cde"; "fghijk"]%string [[2%Q]; [3%Q]; [3%Q]] _
           (sizeLimitedClient_per_text 4) eq_refl).
Defined.

(** *** The batches of [addDocuments] *)

Lemma emit_emit events1 events2 w :
  emit events2 (emit events1 w) = emit (events1 ++ events2) w.
Proof. unfold emit. simpl. by rewrite app_assoc. Qed.

Lemma emit_nil w : emit [] w = w.
Proof. destruct w. unfold emit. simpl. by rewrite app_nil_r. Qed.

Lemma batchChars_snoc batch text :
  batchChars (batch ++ [text]) = batchChars batch + String.length text.
Proof. induction batch as [|t b IH]; simpl; [lia|]. rewrite IH. lia. Qed.

Section Loop.
Variable embedDocuments : list string -> Outcome (list Vector).
Variable schedule : list string -> Schedule.
Variable answer : list string -> list Vector.
Variables embeddingBatchSize embeddingBatchChars : nat.

Hypothesis accepts : forall batch, embedDocuments batch = Returns (answer batch).

Local Abbreviation embedBatches :=
  (Store.embedBatches embedDocuments schedule embeddingBatchSize
     embeddingBatchChars).
Local Abbreviation withinLimits :=
  (Batches.withinLimits embeddingBatchSize embeddingBatchChars).

Lemma embedLogged_accepts batch w :
  batch <> [] ->
  embedLogged embedDocuments schedule batch w
  = (Returns (answer batch), emit [Embedded batch] w).
Proof.
  intros Hne. unfold embedLogged, embedDocumentsWithRetry.
  destruct batch as [|text rest]; [done|].
  assert (Hretry : forall fuel,
             embedRetry embedDocuments schedule fuel (text :: rest)
             = (Returns (answer (text :: rest)), [text :: rest])).
  { intros [|fuel]; simpl; by rewrite accepts. }
  by rewrite Hretry.
Qed.

Lemma embedBatches_batches texts :
  forall currentBatch currentBatchSize rawEmbeddings w,
    currentBatchSize = batchChars currentBatch ->
    length currentBatch < Nat.max 1 embeddingBatchSize ->
    (batchChars currentBatch <= embeddingBatchChars \/ length currentBatch <= 1) ->
    exists batches,
      embedBatches texts currentBatch currentBatchSize rawEmbeddings w
      = (Returns (rawEmbeddings ++ concat (answer <$> batches)),
         emit (Embedded <$> batches) w)
      /\ concat batches = currentBatch ++ texts
      /\ Forall withinLimits batches.
Proof.
  induction texts as [|text rest IH];
    intros currentBatch currentBatchSize rawEmbeddings w -> Hlen Hchars.
  - cbn [Store.embedBatches].
    destruct (0 <? length currentBatch) eqn:Hpos.
    + apply Nat.ltb_lt in Hpos.
      assert (Hne : currentBatch <> []) by (intros ->; simpl in Hpos; lia).
      exists [currentBatch]. unfold mbind, M_bind.
      rewrite embedLogged_accepts by done. simpl.
      rewrite !app_nil_r. split_and!; [done..|].
      apply Forall_singleton. split_and!; [done|lia|].
      destruct Hchars; [by left|right; lia].
    + apply Nat.ltb_ge in Hpos. destruct currentBatch; [|simpl in Hpos; lia].
      exists []. simpl. by rewrite app_nil_r, emit_nil.
  - cbn [Store.embedBatches]. unfold mbind at 1, M_bind at 1.
    set (flushFirst := (embeddingBatchChars
                        <? batchChars currentBatch + String.length text)
                       && (0 <? length currentBatch)).
    (* the batch the text is added to, and what was sent before *)
    assert (Hfirst : exists sent batch,
      (if flushFirst
       then batchEmbeddings ← embedLogged embedDocuments schedule currentBatch;
            mret ([], 0, rawEmbeddings ++ batchEmbeddings)
       else mret (currentBatch, batchChars currentBatch, rawEmbeddings)) w
      = (Returns (batch, batchChars batch,
                  rawEmbeddings ++ concat (answer <$> sent)),
         emit (Embedded <$> sent) w)
      /\ concat sent ++ batch = currentBatch
      /\ Forall withinLimits sent
      /\ length batch < Nat.max 1 embeddingBatchSize
      /\ (batchChars batch + String.length text <= embeddingBatchChars
          \/ batch = [])).
    { destruct flushFirst eqn:Hflush; unfold flushFirst in Hflush.
      - apply andb_true_iff in Hflush as [_ Hpos%Nat.ltb_lt].
        assert (Hne : currentBatch <> []) by (intros ->; simpl in Hpos; lia).
        exists [currentBatch], []. unfold mbind, M_bind.
        rewrite embedLogged_accepts by done. simpl. rewrite !app_nil_r.
        split_and!; [done|done| |lia|by right].
        apply Forall_singleton. split_and!; [done|lia|].
        destruct Hchars; [by left|right; lia].
      - exists [], currentBatch. simpl. rewrite app_nil_r, emit_nil.
        split_and!; [done|done|constructor|done|].
        apply andb_false_iff in Hflush as [Hfit%Nat.ltb_ge|Hempty%Nat.ltb_ge].
        + by left.
        + right. destruct currentBatch; [done|simpl in Hempty; lia]. }
    destruct Hfirst as (sent & batch & Hrun & Hsent & Hok & Hlen' & Hfit).
    rewrite Hrun. clear Hrun.
    cbn iota beta.
    unfold mbind at 1, M_bind at 1.
    assert (Hadded : withinLimits (batch ++ [text])
                     \/ length (batch ++ [text]) < embeddingBatchSize).
    { rewrite length_app. simpl.
      destruct (decide (length batch + 1 < embeddingBatchSize)); [by right|].
      left. split_and!; [by destruct batch|rewrite length_app; simpl; lia|].
      rewrite batchChars_snoc, length_app. simpl.
      destruct Hfit as [? | ->]; [by left|by right]. }
    destruct (embeddingBatchSize <=? length (batch ++ [text])) eqn:Hfull.
    + apply Nat.leb_le in Hfull.
      destruct Hadded as [Hadded|?]; [|lia].
      unfold mbind at 1, M_bind at 1.
      rewrite embedLogged_accepts by (by destruct batch). cbn iota beta.
      unfold mret at 1, M_ret at 1. cbn iota beta.
      destruct (IH [] 0
                  ((rawEmbeddings ++ concat (answer <$> sent))
                   ++ answer (batch ++ [text]))
                  (emit [Embedded (batch ++ [text])]
                     (emit (Embedded <$> sent) w)))
        as (batches & Hrest & Hcat & Hall); [done|simpl; lia|left; simpl; lia|].
      rewrite Hrest.
      exists (sent ++ [batch ++ [text]] ++ batches). split_and!.
      * f_equal.
        -- rewrite !fmap_app, !concat_app. simpl.
           by rewrite app_nil_r, <- !(assoc_L (++)).
        -- rewrite !emit_emit, !fmap_app. simpl. by rewrite <- ?(assoc_L (++)).
      * rewrite !concat_app. simpl. rewrite app_nil_r, Hcat. simpl.
        by rewrite <- Hsent, <- !app_assoc.
      * apply Forall_app. split; [done|]. by constructor.
    + apply Nat.leb_gt in Hfull.
      unfold mret at 1, M_ret at 1. cbn iota beta.
      destruct (IH (batch ++ [text]) (batchChars batch + String.length text)
                  (rawEmbeddings ++ concat (answer <$> sent))
                  (emit (Embedded <$> sent) w))
        as (batches & Hrest & Hcat & Hall).
      * by rewrite batchChars_snoc.
      * lia.
      * rewrite batchChars_snoc, length_app. simpl.
        destruct Hfit as [? | ->]; [by left|by right].
      * rewrite Hrest. exists (sent ++ batches). split_and!.
        -- f_equal.
           ++ by rewrite fmap_app, concat_app, <- app_assoc.
           ++ by rewrite emit_emit, fmap_app.
        -- rewrite concat_app, Hcat, <- Hsent. by rewrite <- !app_assoc.
        -- by apply Forall_app.
Qed.

(** With a client that answers every batch, the embedding loop sends the
    texts in their order, cut into batches that are not empty, hold no
    more texts than the batch size (one at least) and no more characters
    than the budget unless they are a single text; it returns the answers
    put end to end. *)
Theorem embedBatches_cuts_in_order (texts : list string) (w : World) :
  exists batches,
    embedBatches texts [] 0 [] w
    = (Returns (concat (answer <$> batches)), emit (Embedded <$> batches) w)
    /\ concat batches = texts
    /\ Forall withinLimits batches.
Proof.
  destruct (embedBatches_batches texts [] 0 [] w) as (batches & H & ? & ?);
    [done|simpl; lia|left; simpl; lia|].
  by exists batches.
Qed.

End Loop.

(** A client that embeds every text as its length; batches of at most two
    texts and five characters. *)
Lemma embedBatches_cuts_in_order_witness :
  let client := fun batch : list string =>
    Returns ((fun t => [inject_Z (Z.of_nat (String.length t))]) <$> batch) in
  let answer := fun batch : list string =>
    (fun t => [inject_Z (Z.of_nat (String.length t))]) <$> batch in
  (forall batch, client batch = Returns (answer batch))
  /\ exists batches,
      Store.embedBatches client inOrder 2 5
        ["ab"; "cdef"; "g"; "hi"; "jklmnopq"]%string
        [] 0 [] (mkWorld exampleDb [] None)
      = (Returns (concat (answer <$> batches)),
         emit (Embedded <$> batches) (mkWorld exampleDb [] None))
      /\ concat batches = ["ab"; "cdef"; "g"; "hi"; "jklmnopq"]%string
      /\ Forall (withinLimits 2 5) batches.
Proof.
  intros client answer.
  assert (Hclient : forall batch, client batch = Returns (answer batch))
    by reflexivity.
  split; [exact Hclient|].
  exact (embedBatches_cuts_in_order client inOrder answer 2 5 Hclient
           ["ab"; "cdef"; "g"; "hi"; "jklmnopq"]%string
           (mkWorld exampleDb [] None)).
Defined.

End BatchFacts.


(** ** The store keeps its constraints *)

Module SchemaFacts.
Import GreedySplitter Embeddings Store Schema StoreFacts.

(** *** Rules *)

Lemma triple_bind {A B} P (m : M A) Q (k : A -> M B) Q' R :
  triple P m Q R -> (forall a, triple (Q a) (k a) Q' R) ->
  triple P (m ≫= k) Q' R.
Proof.
  intros Hm Hk w HP. specialize (Hm w HP). unfold mbind, M_bind.
  destruct (m w) as [[a|e|] w1]; [|done..]. by apply Hk.
Qed.

Lemma triple_ret {A} (P : Db -> Prop) (a : A) (Q : A -> Db -> Prop) R :
  (forall d, P d -> Q a d) -> triple P (mret a) Q R.
Proof. intros HQ w HP. by apply HQ. Qed.

Lemma triple_throw {A} (P : Db -> Prop) e (Q : A -> Db -> Prop) (R : Db -> Prop) :
  (forall d, P d -> R d) -> triple P (throw e) Q R.
Proof. intros HR w HP. by apply HR. Qed.

Lemma triple_exec {A} (P : Db -> Prop) s (run : Db -> A * Db)
    (Q : A -> Db -> Prop) (R : Db -> Prop) :
  (forall d, P d -> Q (run d).1 (run d).2) -> (forall d, P d -> R d) ->
  triple P (exec s run) Q R.
Proof.
  intros HQ HR w HP. unfold exec. specialize (HQ _ HP). specialize (HR _ HP).
  destruct (faultAfter w) as [[|n]|]; [done|..];
    by destruct (run (db w)) as [a d].
Qed.

Lemma triple_query {A} (P : Db -> Prop) s (get : Db -> A)
    (Q : A -> Db -> Prop) (R : Db -> Prop) :
  (forall d, P d -> Q (get d) d) -> (forall d, P d -> R d) ->
  triple P (query s get) Q R.
Proof. intros HQ HR. by apply triple_exec. Qed.

Lemma triple_rethrow {A} P (body : M A) (wrap : Thrown -> Thrown) Q R :
  triple P body Q R ->
  triple P (tryCatch body (fun error => throw (wrap error))) Q R.
Proof.
  intros Hb w HP. specialize (Hb w HP). unfold tryCatch, throw.
  by destruct (body w) as [[a|e|] w1].
Qed.

Lemma triple_transaction {A} (P : Db -> Prop) (fn : M A) Q (R : Db -> Prop) :
  triple P fn Q R -> (forall d, P d -> R d) -> triple P (transaction fn) Q R.
Proof.
  intros Hfn HR w HP. unfold transaction.
  specialize (Hfn (emit [Begin] w) HP).
  destruct (fn _) as [[a|e|] w1]; simpl; [done| |done]. by apply HR.
Qed.

Lemma triple_keepsDb {A} (P : Db -> Prop) (m : M A) :
  keepsDb m -> triple P m (fun _ => P) P.
Proof.
  intros Hm w HP. specialize (Hm w).
  destruct (m w) as [[a|e|] w1]; simpl in *; by rewrite Hm.
Qed.

Lemma triple_consequence {A} (P P' : Db -> Prop) (m : M A)
    (Q Q' : A -> Db -> Prop) (R R' : Db -> Prop) :
  triple P' m Q' R' ->
  (forall d, P d -> P' d) -> (forall a d, Q' a d -> Q a d) ->
  (forall d, R' d -> R d) ->
  triple P m Q R.
Proof.
  intros Hm HP HQ HR w Hw. specialize (Hm w (HP _ Hw)).
  destruct (m w) as [[a|e|] w1]; auto.
Qed.

(** *** The statements keep the constraints *)

Lemma NoDup_snoc {A} (l : list A) x : NoDup l -> x ∉ l -> NoDup (l ++ [x]).
Proof.
  intros Hl Hx. apply NoDup_app. split_and!; [done| |apply NoDup_singleton].
  intros y Hy ->%list_elem_of_singleton. done.
Qed.

Lemma nextRowid_new (ids : list Z) : nextRowid ids ∉ ids.
Proof. intros Hin%nextRowid_fresh. lia. Qed.

Lemma NoDup_filter_fmap {A B} (f : A -> B) (P : A -> Prop)
    `{!forall x, Decision (P x)} (l : list A) :
  NoDup (f <$> l) -> NoDup (f <$> filter P l).
Proof.
  intros Hl. eapply sublist_NoDup; [exact Hl|]. apply fmap_sublist, sublist_filter.
Qed.

Lemma Forall_filter_keep {A} (P Q : A -> Prop) `{!forall x, Decision (Q x)}
    (l : list A) :
  Forall P l -> Forall P (filter Q l).
Proof.
  rewrite !Forall_forall. intros Hl x [_ Hx]%list_elem_of_filter. by apply Hl.
Qed.

Lemma insertLibrary_wf name d :
  wellFormed d -> wellFormed (insertLibrary name d).2.
Proof.
  intros Hd. unfold insertLibrary. case_bool_decide as Hname; [done|].
  destruct Hd. constructor; simpl; try done.
  - rewrite fmap_app. apply NoDup_snoc; [done|apply nextRowid_new].
  - rewrite fmap_app. apply NoDup_snoc; [done|].
    intros (l & Hl & Hin)%list_elem_of_fmap. apply Hname, Exists_exists. eauto.
  - eapply Forall_impl; [done|]. intros v Hv. apply Exists_app. by left.
Qed.

Lemma insertVersion_wf libraryId name d :
  wellFormed d ->
  Exists (fun l => lib_id l = libraryId) (libraries d) ->
  wellFormed (insertVersion libraryId name d).2.
Proof.
  intros Hd Hlib. unfold insertVersion. case_bool_decide as Hname; [done|].
  destruct Hd. constructor; simpl; try done.
  - rewrite fmap_app. apply NoDup_snoc; [done|apply nextRowid_new].
  - rewrite fmap_app. apply NoDup_snoc; [done|].
    intros (v & [= Hl Hn] & Hin)%list_elem_of_fmap.
    apply Hname, Exists_exists. eauto.
  - apply Forall_app. split; [done|]. apply Forall_singleton. by eexists.
  - apply Forall_app. split; [done|]. by apply Forall_singleton.
  - eapply Forall_impl; [done|]. intros p Hp. apply Exists_app. by left.
Qed.

Lemma insertPage_wf versionId url title etag lastModified contentType depth d :
  wellFormed d ->
  Exists (fun v => ver_id v = versionId) (versions d) ->
  wellFormed (insertPage versionId url title etag lastModified contentType
                depth d).2.
Proof.
  intros Hd Hver. unfold insertPage. case_bool_decide as Hpage.
  - destruct Hd. constructor; simpl; try done.
    + rewrite <- list_fmap_compose.
      erewrite list_fmap_ext; [exact page_ids0|].
      intros i p _. simpl. by case_bool_decide.
    + rewrite <- list_fmap_compose.
      erewrite list_fmap_ext; [exact page_urls0|].
      intros i p _. simpl. case_bool_decide as Hp; [|done]. simpl.
      by destruct Hp as [-> ->].
    + apply Forall_fmap. eapply Forall_impl; [exact page_version0|].
      intros p Hp. simpl. case_bool_decide as Hkey; [|done]. simpl.
      by destruct Hkey as [<- _].
    + unfold documentsHavePages in *. simpl.
      eapply Forall_impl; [exact document_page0|]. intros doc Hdoc.
      apply Exists_fmap. eapply Exists_impl; [exact Hdoc|].
      intros p Hp. simpl. by case_bool_decide.
  - destruct Hd. constructor; simpl; try done.
    + rewrite fmap_app. apply NoDup_snoc; [done|apply nextRowid_new].
    + rewrite fmap_app. apply NoDup_snoc; [done|].
      intros (p & [= Hv Hu] & Hin)%list_elem_of_fmap.
      apply Hpage, Exists_exists. eauto.
    + apply Forall_app. split; [done|]. by apply Forall_singleton.
    + unfold documentsHavePages in *. simpl.
      eapply Forall_impl; [exact document_page0|]. intros doc Hdoc.
      apply Exists_app. by left.
Qed.

Lemma deleteDocumentsByPageId_wf pageId d :
  wellFormed d -> wellFormed (deleteDocumentsByPageId pageId d).2.
Proof.
  intros []. constructor; simpl; try done.
  - by apply NoDup_filter_fmap.
  - by apply Forall_filter_keep.
Qed.

Lemma insertDocument_wf pageId content metadata sortOrder d :
  wellFormed d ->
  Exists (fun p => page_id p = pageId) (pages d) ->
  wellFormed (insertDocument pageId content metadata sortOrder d).2.
Proof.
  intros [] Hpage. constructor; simpl; try done.
  - rewrite fmap_app. apply NoDup_snoc; [done|apply nextRowid_new].
  - apply Forall_app. split; [done|]. by apply Forall_singleton.
Qed.

Lemma insertEmbedding_wf embedding rowid d :
  wellFormed d -> wellFormed (insertEmbedding embedding rowid d).2.
Proof.
  intros []. constructor; simpl; try done.
  - rewrite <- list_fmap_compose.
    erewrite list_fmap_ext; [exact document_ids0|].
    intros i doc _. simpl. by case_bool_decide.
  - unfold documentsHavePages in *. simpl. apply Forall_fmap.
    eapply Forall_impl; [exact document_page0|]. intros doc Hdoc. simpl.
    by case_bool_decide.
Qed.

Lemma deleteDocuments_wf library version d :
  wellFormed d -> wellFormed (deleteDocuments library version d).2.
Proof.
  intros []. constructor; simpl; try done.
  - by apply NoDup_filter_fmap.
  - by apply Forall_filter_keep.
Qed.

Lemma deletePagesStmt_wf library version d :
  wellFormed d ->
  Forall (fun doc => ~ documentMatches library version d doc) (documents d) ->
  wellFormed (deletePagesStmt library version d).2.
Proof.
  intros [] Hnone. constructor; simpl; try done.
  - by apply NoDup_filter_fmap.
  - by apply NoDup_filter_fmap.
  - by apply Forall_filter_keep.
  - unfold documentsHavePages in *. simpl.
    rewrite Forall_forall in *. intros doc Hdoc.
    specialize (document_page0 doc Hdoc). specialize (Hnone doc Hdoc).
    apply Exists_exists in document_page0 as (p & Hp & Hid).
    apply Exists_exists. exists p. split; [|done].
    apply list_elem_of_filter. split; [|done].
    intros Hmatch. apply Hnone. apply Exists_exists. eauto.
Qed.

Lemma deleteVersionById_wf versionId d :
  wellFormed d ->
  Forall (fun p => page_version_id p <> versionId) (pages d) ->
  wellFormed (deleteVersionById versionId d).2.
Proof.
  intros [] Hnone. constructor; simpl; try done.
  - by apply NoDup_filter_fmap.
  - by apply NoDup_filter_fmap.
  - by apply Forall_filter_keep.
  - by apply Forall_filter_keep.
  - rewrite Forall_forall in *. intros p Hp.
    specialize (page_version0 p Hp). specialize (Hnone p Hp).
    apply Exists_exists in page_version0 as (v & Hv & Hid).
    apply Exists_exists. exists v. split; [|done].
    apply list_elem_of_filter. split; [congruence|done].
Qed.

Lemma deleteLibraryById_wf libraryId d :
  wellFormed d ->
  Forall (fun v => ver_library_id v <> libraryId) (versions d) ->
  wellFormed (deleteLibraryById libraryId d).2.
Proof.
  intros [] Hnone. constructor; simpl; try done.
  - by apply NoDup_filter_fmap.
  - by apply NoDup_filter_fmap.
  - rewrite Forall_forall in *. intros v Hv.
    specialize (version_library0 v Hv). specialize (Hnone v Hv).
    apply Exists_exists in version_library0 as (l & Hl & Hid).
    apply Exists_exists. exists l. split; [|done].
    apply list_elem_of_filter. split; [congruence|done].
Qed.

(** *** The methods keep the constraints *)

Lemma getLibraryIdByName_Some name d libraryId :
  getLibraryIdByName name d = Some libraryId ->
  Exists (fun l => lib_id l = libraryId /\ lib_name l = name) (libraries d).
Proof.
  unfold getLibraryIdByName.
  destruct (findFirst _ _) as [l|] eqn:Hl; [|done]. intros [= <-].
  apply findFirst_Some in Hl as [Hname Hin]. apply Exists_exists. eauto.
Qed.

Lemma resolveVersionIdStmt_Some libraryId name d versionId :
  resolveVersionIdStmt libraryId name d = Some versionId ->
  Exists (fun v => ver_id v = versionId /\ ver_library_id v = libraryId
                   /\ ver_name v = Some name) (versions d).
Proof.
  unfold resolveVersionIdStmt.
  destruct (findFirst _ _) as [v|] eqn:Hv; [|done]. intros [= <-].
  apply findFirst_Some in Hv as [[? ?] Hin]. apply Exists_exists. eauto.
Qed.

Lemma getPageId_Some versionId url d pageId :
  getPageId versionId url d = Some pageId ->
  Exists (fun p => page_id p = pageId /\ page_version_id p = versionId
                   /\ page_url p = url) (pages d).
Proof.
  unfold getPageId.
  destruct (findFirst _ _) as [p|] eqn:Hp; [|done]. intros [= <-].
  apply findFirst_Some in Hp as [[? ?] Hin]. apply Exists_exists. eauto.
Qed.

Lemma triple_resolveVersionId library version :
  triple wellFormed (resolveVersionId library version)
    (fun versionId d =>
       wellFormed d /\ Exists (fun v => ver_id v = versionId) (versions d))
    wellFormed.
Proof.
  unfold resolveVersionId.
  eapply triple_bind.
  { apply triple_exec with (Q := fun _ => wellFormed); [|done].
    intros d Hd. by apply insertLibrary_wf. }
  intros ?. eapply triple_bind.
  { apply triple_query
      with (Q := fun row d =>
                   wellFormed d
                   /\ row = getLibraryIdByName (toLowerCase library) d);
      [done|done]. }
  intros [libraryId|]; [|by apply triple_throw; intros d [? _]].
  eapply triple_bind.
  { apply triple_exec with (Q := fun _ => wellFormed) (R := wellFormed);
      [|by intros d [? _]].
    intros d [Hd Hlib]. apply insertVersion_wf; [done|].
    symmetry in Hlib. apply getLibraryIdByName_Some in Hlib.
    eapply Exists_impl; [exact Hlib|]. by intros l [? _]. }
  intros ?. eapply triple_bind.
  { apply triple_query
      with (Q := fun row d =>
                   wellFormed d
                   /\ row = resolveVersionIdStmt libraryId
                              (denormalizeVersionName (toLowerCase version)) d);
      [done|done]. }
  intros [versionId|]; [|by apply triple_throw; intros d [? _]].
  apply triple_ret. intros d [Hd Hver]. split; [done|].
  symmetry in Hver. apply resolveVersionIdStmt_Some in Hver.
  eapply Exists_impl; [exact Hver|]. by intros v [? _].
Qed.

Lemma triple_frame {A} (P : Db -> Prop) (m : M A) Q R :
  (forall d0, P d0 -> triple (fun d => d = d0) m Q R) -> triple P m Q R.
Proof. intros H w HP. by apply (H (db w) HP w). Qed.

Lemma triple_assume {A} (P : Db -> Prop) (fact : Prop) (m : M A) Q R :
  (fact -> triple P m Q R) -> triple (fun d => P d /\ fact) m Q R.
Proof. intros H w [HP Hfact]. by apply H. Qed.

Lemma getVersionId_Some library version d versionId libraryId :
  getVersionId library version d = Some (versionId, libraryId) ->
  Exists (fun v => ver_id v = versionId /\ ver_library_id v = libraryId
                   /\ versionMatches library version d v) (versions d).
Proof.
  unfold getVersionId.
  destruct (findFirst _ _) as [v|] eqn:Hv; [|done]. intros [= <- <-].
  apply findFirst_Some in Hv as [? Hin]. apply Exists_exists. eauto.
Qed.

Lemma filter_length_0 {A} (P : A -> Prop) `{!forall x, Decision (P x)}
    (l : list A) :
  length (filter P l) = 0 -> Forall (fun x => ~ P x) l.
Proof.
  intros Hlen. apply Forall_forall. intros x Hx HP.
  assert (Hin : x ∈ filter P l) by by apply list_elem_of_filter.
  destruct (filter P l); [by apply elem_of_nil in Hin|done].
Qed.

Lemma triple_deletePages library version libs vers :
  triple (fun d => wellFormed d /\ libraries d = libs /\ versions d = vers)
    (deletePages library version)
    (fun _ d =>
       wellFormed d /\ libraries d = libs /\ versions d = vers
       /\ Forall (fun doc => ~ documentMatches (toLowerCase library)
                                (toLowerCase version) d doc) (documents d))
    wellFormed.
Proof.
  unfold deletePages. apply triple_rethrow.
  eapply triple_bind
    with (Q := fun _ d =>
       wellFormed d /\ libraries d = libs /\ versions d = vers
       /\ Forall (fun doc => ~ documentMatches (toLowerCase library)
                                (toLowerCase version) d doc) (documents d)).
  { apply triple_exec; [|by intros d [? _]].
    intros d (Hd & Hl & Hv). split_and!; [by apply deleteDocuments_wf|done..|].
    simpl. apply Forall_forall. intros doc [Hn _]%list_elem_of_filter Hm.
    apply Hn. revert Hm. by apply documentMatches_mono. }
  intros changes.
  eapply triple_bind
    with (Q := fun _ d =>
       wellFormed d /\ libraries d = libs /\ versions d = vers
       /\ Forall (fun doc => ~ documentMatches (toLowerCase library)
                                (toLowerCase version) d doc) (documents d));
    [|intros ?; by apply triple_ret].
  apply triple_exec; [|by intros d [? _]].
  intros d (Hd & Hl & Hv & Hnone).
  split_and!; [by apply deletePagesStmt_wf|done..|].
  simpl. eapply Forall_impl; [exact Hnone|]. intros doc Hn Hm. apply Hn.
  revert Hm. apply documentMatches_mono; simpl; [done..|].
  apply filter_subseteq.
Qed.

Lemma triple_removeVersion library version removeLibraryIfEmpty :
  triple wellFormed (removeVersion library version removeLibraryIfEmpty)
    (fun _ => wellFormed) wellFormed.
Proof.
  unfold removeVersion. apply triple_rethrow.
  set (lib := toLowerCase library). set (ver := toLowerCase version).
  apply triple_frame. intros d0 Hd0.
  eapply triple_bind
    with (Q := fun row d => d = d0 /\ row = getVersionId lib ver d0).
  { apply triple_query; [by intros d ->|by intros d ->]. }
  intros [[versionId libraryId]|]; [|apply triple_ret; by intros d [-> _]].
  apply triple_assume. intros Hfound.
  set (found := fun d : Db =>
         wellFormed d /\ libraries d = libraries d0
         /\ versions d = versions d0).
  eapply triple_bind
    with (Q := fun _ d =>
       found d
       /\ Forall (fun doc => ~ documentMatches lib ver d doc) (documents d)).
  { eapply triple_consequence;
      [apply (triple_deletePages library version (libraries d0) (versions d0))
      | | |done].
    - by intros d ->.
    - intros n d (? & ? & ? & ?). by split. }
  intros documentsDeleted.
  eapply triple_bind
    with (Q := fun _ d =>
       found d /\ Forall (fun p => page_version_id p <> versionId) (pages d)).
  { apply triple_exec; [|by intros d [[? _] _]].
    intros d [(Hd & Hl & Hv) Hnone].
    split; [split_and!; [by apply deletePagesStmt_wf|done..]|].
    simpl. apply Forall_forall. intros p [Hn _]%list_elem_of_filter Hid.
    apply Hn. symmetry in Hfound. apply getVersionId_Some in Hfound.
    apply Exists_exists in Hfound as (v & Hin & Hvid & _ & Hm).
    apply Exists_exists. exists v. rewrite Hv. split; [done|].
    split; [congruence|]. revert Hm. apply versionMatches_mono. by rewrite Hl. }
  intros ?.
  eapply triple_bind with (Q := fun _ => wellFormed).
  { apply triple_exec; [|by intros d [[? _] _]].
    intros d [(Hd & _) Hnone]. by apply deleteVersionById_wf. }
  intros changes.
  eapply triple_bind with (Q := fun _ => wellFormed);
    [|intros ?; by apply triple_ret].
  destruct (removeLibraryIfEmpty && (0 <? changes)); [|by apply triple_ret].
  eapply triple_bind
    with (Q := fun n d =>
                 wellFormed d /\ n = countVersionsByLibraryId libraryId d).
  { by apply triple_query. }
  intros remainingVersions.
  destruct (remainingVersions =? 0) eqn:Hzero;
    [|apply triple_ret; by intros d [? _]].
  apply Nat.eqb_eq in Hzero. subst remainingVersions.
  eapply triple_bind with (Q := fun _ => wellFormed);
    [|intros ?; by apply triple_ret].
  apply triple_exec; [|by intros d [? _]].
  intros d [Hd Hcount]. apply deleteLibraryById_wf; [done|].
  apply (filter_length_0 (fun v => ver_library_id v = libraryId)).
  by rewrite Hcount.
Qed.

(** Whether it returns or throws, and wherever the engine stops it,
    [removeVersion] leaves the constraints of the schema in force: no
    chunk is left without its page, no page without its version, no
    version without its library. *)
Theorem removeVersion_keeps_constraints
    (library version : string) (removeLibraryIfEmpty : bool) (w : World) :
  wellFormed (db w) ->
  wellFormed (db (removeVersion library version removeLibraryIfEmpty w).2).
Proof.
  intros Hw.
  pose proof (triple_removeVersion library version removeLibraryIfEmpty w Hw)
    as H.
  by destruct (removeVersion _ _ _ _) as [[r|e|] w'].
Qed.

Section Methods.
Variable isVectorSearchEnabled : bool.
Variable embedDocuments : list string -> Outcome (list Vector).
Variable schedule : list string -> Schedule.
Variables dbDimension embeddingBatchSize embeddingBatchChars : nat.

Lemma triple_insertChunks pageId paddedEmbeddings chunks :
  forall i docIndex,
    triple (fun d => wellFormed d
                     /\ Exists (fun p => page_id p = pageId) (pages d))
      (insertChunks isVectorSearchEnabled pageId paddedEmbeddings i docIndex
         chunks)
      (fun _ => wellFormed) wellFormed.
Proof.
  induction chunks as [|chunk rest IH]; intros i docIndex; cbn [insertChunks].
  { apply triple_ret. by intros d [? _]. }
  eapply triple_bind.
  { apply triple_exec
      with (Q := fun _ d => wellFormed d
                            /\ Exists (fun p => page_id p = pageId) (pages d));
      [|by intros d [? _]].
    intros d [Hd Hpage]. split; [by apply insertDocument_wf|done]. }
  intros rowId. eapply triple_bind; [|intros ?; apply IH].
  destruct (isVectorSearchEnabled && (0 <? length paddedEmbeddings));
    [|by apply triple_ret].
  eapply triple_bind
    with (Q := fun _ d => wellFormed d
                          /\ Exists (fun p => page_id p = pageId) (pages d));
    [|intros ?; by apply triple_ret].
  apply triple_exec; [|by intros d [? _]].
  intros d [Hd Hpage]. split; [by apply insertEmbedding_wf|done].
Qed.

Lemma triple_addDocuments library version depth result :
  triple wellFormed
    (addDocuments isVectorSearchEnabled embedDocuments schedule dbDimension
       embeddingBatchSize embeddingBatchChars library version depth result)
    (fun _ => wellFormed) wellFormed.
Proof.
  unfold addDocuments. apply triple_rethrow.
  destruct (length (chunks result) =? 0); [by apply triple_ret|].
  eapply triple_bind.
  { apply triple_keepsDb. destruct isVectorSearchEnabled; [|done].
    apply keepsDb_bind; [apply keepsDb_embedBatches|].
    intros raw. apply keepsDb_padAll. }
  intros paddedEmbeddings.
  eapply triple_bind; [apply triple_resolveVersionId|].
  intros versionId. set (hasVersion := fun d : Db => wellFormed d
    /\ Exists (fun v => ver_id v = versionId) (versions d)).
  eapply triple_bind.
  { apply triple_query
      with (Q := fun _ => hasVersion) (R := wellFormed);
      [done|by intros d [? _]]. }
  intros existingPage. eapply triple_bind with (Q := fun _ => hasVersion).
  { destruct existingPage as [pageId|]; [|by apply triple_ret].
    eapply triple_bind with (Q := fun _ => hasVersion);
      [|intros ?; by apply triple_ret].
    apply triple_exec; [|by intros d [? _]].
    intros d [Hd Hver]. split; [by apply deleteDocumentsByPageId_wf|done]. }
  intros ?. apply triple_transaction; [|by intros d [? _]].
  eapply triple_bind.
  { apply triple_exec with (Q := fun _ => wellFormed) (R := wellFormed);
      [|by intros d [? _]].
    intros d [Hd Hver]. by apply insertPage_wf. }
  intros ?. eapply triple_bind.
  { apply triple_query
      with (Q := fun row d =>
                   wellFormed d /\ row = getPageId versionId (url result) d);
      [done|done]. }
  intros [pageId|]; [|by apply triple_throw; intros d [? _]].
  eapply triple_consequence; [apply triple_insertChunks| |done|done].
  intros d [Hd Hpage]. split; [done|].
  symmetry in Hpage. apply getPageId_Some in Hpage.
  eapply Exists_impl; [exact Hpage|]. by intros p [? _].
Qed.

(** Whether it returns or throws, [addDocuments] leaves the constraints
    of the schema in force: rowids and the columns of the ON CONFLICT
    clauses stay unique, every version keeps its library, every page its
    version and every chunk its page. *)
Theorem addDocuments_keeps_constraints
    (library version : string) (depth : nat) (result : ScrapeResult)
    (w : World) :
  wellFormed (db w) ->
  wellFormed
    (db (addDocuments isVectorSearchEnabled embedDocuments schedule dbDimension
           embeddingBatchSize embeddingBatchChars library version depth
           result w).2).
Proof.
  intros Hw. pose proof (triple_addDocuments library version depth result w Hw)
    as H.
  by destruct (addDocuments _ _ _ _ _ _ _ _ _ _) as [[[]|e|] w'].
Qed.

End Methods.

Lemma exampleDb_wellFormed : wellFormed exampleDb.
Proof.
  constructor; simpl;
    try (apply (bool_decide_unpack _); reflexivity);
    unfold documentsHavePages; simpl; repeat constructor; by eexists.
Qed.

Lemma addDocuments_keeps_constraints_witness :
  let w := mkWorld exampleDb [] (Some 8) in
  wellFormed (db w)
  /\ (exampleAdd "lib" "1.0" 0 (scrapeOf ["c"]) w).1
     = Throws (ConnectionError "Failed to add documents to store"
                 (JsError "SqliteError"))
  /\ wellFormed (db (exampleAdd "lib" "1.0" 0 (scrapeOf ["c"]) w).2).
Proof.
  intros w. split; [exact exampleDb_wellFormed|]. split; [reflexivity|].
  exact (addDocuments_keeps_constraints false noClient inOrder 4 100 2000
           "lib" "1.0" 0 (scrapeOf ["c"]) w exampleDb_wellFormed).
Defined.

Lemma removeVersion_keeps_constraints_witness :
  let w := mkWorld exampleDb [] (Some 3) in
  wellFormed (db w)
  /\ (removeVersion "lib" "1.0" true w).1
     = Throws (ConnectionError "Failed to remove version"
                 (JsError "SqliteError"))
  /\ wellFormed (db (removeVersion "lib" "1.0" true w).2).
Proof.
  intros w. split; [exact exampleDb_wellFormed|]. split; [reflexivity|].
  exact (removeVersion_keeps_constraints "lib" "1.0" true w
           exampleDb_wellFormed).
Defined.

End SchemaFacts.


(** ** The methods of the store *)

Module MethodFacts.
Import GreedySplitter Embeddings Store Schema Batches Outcomes.
Import StoreFacts SchemaFacts BatchFacts.

(** *** Methods that end *)

Lemma settles_bind {A B} (m : M A) (k : A -> M B) :
  settles m -> (forall a, settles (k a)) -> settles (m ≫= k).
Proof.
  intros Hm Hk w. unfold mbind, M_bind. specialize (Hm w).
  destruct (m w) as [[a|e|] w1]; [apply Hk|done|done].
Qed.

Lemma settles_ret {A} (a : A) : settles (mret a).
Proof. done. Qed.

Lemma settles_throw {A} e : settles (throw e : M A).
Proof. done. Qed.

Lemma settles_exec {A} s (run : Db -> A * Db) : settles (exec s run).
Proof.
  intros w. unfold exec.
  by destruct (faultAfter w) as [[|n]|]; destruct (run (db w)).
Qed.

Lemma settles_transaction {A} (fn : M A) : settles fn -> settles (transaction fn).
Proof.
  intros Hfn w. unfold transaction. specialize (Hfn (emit [Begin] w)).
  by destruct (fn _) as [[a|e|] w1].
Qed.

Lemma rethrow_endsWrapped {A} (body : M A) message w :
  settles body ->
  endsWrapped message
    (tryCatch body (fun error => throw (ConnectionError message error)) w).1.
Proof.
  intros Hb. unfold tryCatch, throw. specialize (Hb w).
  destruct (body w) as [[a|e|] w1]; simpl; [done|by eexists|done].
Qed.

Lemma settles_rethrow {A} (body : M A) (wrap : Thrown -> Thrown) :
  settles body -> settles (tryCatch body (fun error => throw (wrap error))).
Proof.
  intros Hb w. unfold tryCatch, throw. specialize (Hb w).
  by destruct (body w) as [[a|e|] w1].
Qed.

Lemma settles_resolveVersionId library version :
  settles (resolveVersionId library version).
Proof.
  unfold resolveVersionId.
  apply settles_bind; [apply settles_exec|]. intros _.
  apply settles_bind; [apply settles_exec|]. intros [libraryId|]; [|done].
  apply settles_bind; [apply settles_exec|]. intros _.
  apply settles_bind; [apply settles_exec|]. by intros [versionId|].
Qed.

Lemma settles_insertChunks enabled pageId paddedEmbeddings chunks :
  forall i docIndex,
    settles (insertChunks enabled pageId paddedEmbeddings i docIndex chunks).
Proof.
  induction chunks as [|chunk rest IH]; intros i docIndex; cbn [insertChunks];
    [done|].
  apply settles_bind; [apply settles_exec|]. intros rowId.
  apply settles_bind; [|intros _; apply IH].
  destruct (enabled && _); [|done].
  apply settles_bind; [apply settles_exec|done].
Qed.

Lemma settles_deletePages library version : settles (deletePages library version).
Proof.
  apply settles_rethrow.
  apply settles_bind; [apply settles_exec|]. intros changes.
  apply settles_bind; [apply settles_exec|done].
Qed.

(** With vector search disabled [addDocuments] always ends, and so do
    [deletePages], [removeVersion] and [checkDocumentExists]; whatever goes
    wrong inside them reaches the caller as a [ConnectionError] that
    carries the method's message and the cause. *)
Theorem store_methods_end_wrapped
    (embedDocuments : list string -> Outcome (list Vector))
    (schedule : list string -> Schedule)
    (dbDimension embeddingBatchSize embeddingBatchChars : nat)
    (library version : string) (depth : nat) (result : ScrapeResult)
    (removeLibraryIfEmpty : bool) (w : World) :
  endsWrapped "Failed to add documents to store"
    (addDocuments false embedDocuments schedule dbDimension embeddingBatchSize
       embeddingBatchChars library version depth result w).1
  /\ endsWrapped "Failed to delete documents" (deletePages library version w).1
  /\ endsWrapped "Failed to remove version"
       (removeVersion library version removeLibraryIfEmpty w).1
  /\ endsWrapped "Failed to check document existence"
       (checkDocumentExists library version w).1.
Proof.
  split_and!.
  - apply rethrow_endsWrapped.
    destruct (length (chunks result) =? 0); [done|].
    apply settles_bind; [done|]. intros paddedEmbeddings.
    apply settles_bind; [apply settles_resolveVersionId|]. intros versionId.
    apply settles_bind; [apply settles_exec|]. intros existingPage.
    apply settles_bind.
    { destruct existingPage; [|done].
      apply settles_bind; [apply settles_exec|done]. }
    intros _. apply settles_transaction.
    apply settles_bind; [apply settles_exec|]. intros _.
    apply settles_bind; [apply settles_exec|]. intros [pageId|]; [|done].
    apply settles_insertChunks.
  - apply rethrow_endsWrapped.
    apply settles_bind; [apply settles_exec|]. intros changes.
    apply settles_bind; [apply settles_exec|done].
  - apply rethrow_endsWrapped.
    apply settles_bind; [apply settles_exec|].
    intros [[versionId libraryId]|]; [|done].
    apply settles_bind; [apply settles_deletePages|]. intros documentsDeleted.
    apply settles_bind; [apply settles_exec|]. intros _.
    apply settles_bind; [apply settles_exec|]. intros changes.
    apply settles_bind; [|done].
    destruct (removeLibraryIfEmpty && _); [|done].
    apply settles_bind; [apply settles_exec|]. intros remainingVersions.
    destruct (remainingVersions =? 0); [|done].
    apply settles_bind; [apply settles_exec|done].
  - apply rethrow_endsWrapped.
    apply settles_bind; [apply settles_exec|done].
Qed.

(** *** resolveVersionId *)

Lemma insertLibrary_existing name d libraryId :
  getLibraryIdByName name d = Some libraryId -> insertLibrary name d = (0, d).
Proof.
  intros Hl%getLibraryIdByName_Some. unfold insertLibrary.
  rewrite bool_decide_true; [done|].
  eapply Exists_impl; [exact Hl|]. by intros l [_ ?].
Qed.

Lemma insertVersion_existing libraryId name d versionId :
  resolveVersionIdStmt libraryId name d = Some versionId ->
  insertVersion libraryId name d = (0, d).
Proof.
  intros Hv%resolveVersionIdStmt_Some. unfold insertVersion.
  rewrite bool_decide_true; [done|].
  eapply Exists_impl; [exact Hv|]. by intros v (_ & ? & ?).
Qed.

(** Once a library version has been resolved, resolving it again, under
    any spelling that differs in case only, gives the same id and adds no
    row. *)
Theorem resolveVersionId_again
    (library version : string) (w w1 : World) (versionId : Z)
    (library' version' : string) (w2 : World) :
  resolveVersionId library version w = (Returns versionId, w1) ->
  toLowerCase library' = toLowerCase library ->
  toLowerCase version' = toLowerCase version ->
  db w2 = db w1 -> faultAfter w2 = None ->
  (resolveVersionId library' version' w2).1 = Returns versionId
  /\ db (resolveVersionId library' version' w2).2 = db w1.
Proof.
  intros Hfirst Hl Hv Hdb Hfault.
  apply resolveVersionId_returns in Hfirst as (_ & _ & libraryId & Hlib & Hver).
  destruct w2 as [d lg fa]. simpl in *. subst d fa.
  unfold resolveVersionId, query, exec, mbind, M_bind. simpl.
  rewrite Hl, Hv.
  rewrite (insertLibrary_existing _ _ _ Hlib). simpl. rewrite Hlib. simpl.
  rewrite (insertVersion_existing _ _ _ _ Hver). simpl. rewrite Hver. done.
Qed.

(** *** Ingest and then look up *)

Lemma exec_ok {A} s (run : Db -> A * Db) w :
  faultAfter w <> Some 0 ->
  (exec s run w).1 = Returns (run (db w)).1
  /\ db (exec s run w).2 = (run (db w)).2.
Proof.
  intros Hw. unfold exec.
  by destruct (faultAfter w) as [[|n]|]; destruct (run (db w)).
Qed.

Lemma lookups_documentMatches library version url d libraryId versionId pageId doc :
  getLibraryIdByName (toLowerCase library) d = Some libraryId ->
  resolveVersionIdStmt libraryId (denormalizeVersionName (toLowerCase version)) d
  = Some versionId ->
  getPageId versionId url d = Some pageId ->
  doc_page_id doc = pageId ->
  documentMatches (toLowerCase library) (toLowerCase version) d doc.
Proof.
  intros Hl%getLibraryIdByName_Some Hv%resolveVersionIdStmt_Some
         Hp%getPageId_Some Hdoc.
  apply Exists_exists in Hl as (l & Hlin & Hlid & Hname).
  apply Exists_exists in Hv as (v & Hvin & Hvid & Hvlib & Hvname).
  apply Exists_exists in Hp as (p & Hpin & Hpid & Hpver & _).
  apply Exists_exists. exists p. split; [done|]. split; [congruence|].
  apply Exists_exists. exists v. split; [done|]. split; [congruence|].
  split.
  - apply Exists_exists. exists l. split; [done|]. split; [congruence|done].
  - by rewrite Hvname.
Qed.

Section Methods.
Variable isVectorSearchEnabled : bool.
Variable embedDocuments : list string -> Outcome (list Vector).
Variable schedule : list string -> Schedule.
Variables dbDimension embeddingBatchSize embeddingBatchChars : nat.

Local Abbreviation addDocuments :=
  (Store.addDocuments isVectorSearchEnabled embedDocuments schedule dbDimension
     embeddingBatchSize embeddingBatchChars).

(** After an ingest of at least one chunk has returned,
    [checkDocumentExists] answers true for the library version, under the
    spelling of the ingest. *)
Theorem addDocuments_then_checkDocumentExists
    (library version : string) (depth : nat) (result : ScrapeResult)
    (w w' w2 : World) :
  chunks result <> [] ->
  documentsHavePages (db w) ->
  addDocuments library version depth result w = (Returns tt, w') ->
  db w2 = db w' -> faultAfter w2 <> Some 0 ->
  (checkDocumentExists library version w2).1 = Returns true.
Proof.
  intros Hchunks Hfk Hrun Hdb Hfault.
  destruct (addDocuments_returns _ _ _ _ _ _ _ _ _ _ _ _ Hchunks Hfk Hrun)
    as (libraryId & versionId & pageId & Hlib & Hver & Hpage & _ & Hviews).
  assert (Hdoc : exists doc, doc ∈ documents (db w') /\ doc_page_id doc = pageId).
  { destruct (chunks result) as [|chunk rest] eqn:Hc; [done|].
    assert (Hin : (pageId, content chunk, chunkMetadata chunk, 0)
                  ∈ view4 <$> documents (db w')).
    { rewrite Hviews. apply elem_of_app. right. simpl. by left. }
    apply list_elem_of_fmap in Hin as (doc & Hview & Hin).
    exists doc. split; [done|]. unfold view4 in Hview. congruence. }
  destruct Hdoc as (doc & Hin & Hpid).
  assert (Hfound : is_Some (checkExists (toLowerCase library)
                              (toLowerCase version) (db w2))).
  { unfold checkExists. rewrite Hdb. apply fmap_is_Some, findFirst_Exists.
    apply Exists_exists. exists doc. split; [done|].
    by eapply lookups_documentMatches. }
  unfold checkDocumentExists, tryCatch, query, mbind, M_bind.
  destruct (exec_ok SCheckExists
              (fun d => (checkExists (toLowerCase library)
                           (toLowerCase version) d, d)) w2 Hfault) as [Hr _].
  destruct (exec _ _ w2) as [[found|e|] w3]; simpl in *; try done.
  injection Hr as ->. by rewrite bool_decide_true.
Qed.

End Methods.

(** *** removeVersion and the other library versions *)

Lemma NoDup_fmap_inj {A B} (f : A -> B) (l : list A) x y :
  NoDup (f <$> l) -> x ∈ l -> y ∈ l -> f x = f y -> x = y.
Proof.
  intros Hnd [i Hi]%list_elem_of_lookup [j Hj]%list_elem_of_lookup Hf.
  assert (i = j); [|congruence].
  eapply NoDup_lookup; [exact Hnd|..]; rewrite list_lookup_fmap.
  - by rewrite Hi.
  - rewrite Hj. simpl. by rewrite Hf.
Qed.

(** Under the constraints a version belongs to one library name and has
    one name, a page and a chunk to one library version. *)
Lemma versionMatches_unique d library1 version1 library2 version2 v :
  wellFormed d ->
  versionMatches library1 version1 d v -> versionMatches library2 version2 d v ->
  library1 = library2 /\ version1 = version2.
Proof.
  intros Hd [Hl1 Hv1] [Hl2 Hv2]. split; [|congruence].
  apply Exists_exists in Hl1 as (l1 & Hin1 & Hid1 & Hn1).
  apply Exists_exists in Hl2 as (l2 & Hin2 & Hid2 & Hn2).
  assert (l1 = l2); [|congruence].
  eapply (NoDup_fmap_inj lib_id); [apply Hd|done..|congruence].
Qed.

Lemma pageMatches_unique d library1 version1 library2 version2 p :
  wellFormed d ->
  pageMatches library1 version1 d p -> pageMatches library2 version2 d p ->
  library1 = library2 /\ version1 = version2.
Proof.
  intros Hd H1 H2.
  apply Exists_exists in H1 as (v1 & Hin1 & Hid1 & Hm1).
  apply Exists_exists in H2 as (v2 & Hin2 & Hid2 & Hm2).
  assert (v1 = v2).
  { eapply (NoDup_fmap_inj ver_id); [apply Hd|done..|congruence]. }
  subst. by eapply versionMatches_unique.
Qed.

Lemma documentMatches_unique d library1 version1 library2 version2 doc :
  wellFormed d ->
  documentMatches library1 version1 d doc ->
  documentMatches library2 version2 d doc ->
  library1 = library2 /\ version1 = version2.
Proof.
  intros Hd H1 H2.
  apply Exists_exists in H1 as (p1 & Hin1 & Hid1 & Hm1).
  apply Exists_exists in H2 as (p2 & Hin2 & Hid2 & Hm2).
  assert (p1 = p2).
  { eapply (NoDup_fmap_inj page_id); [apply Hd|done..|congruence]. }
  subst. by eapply pageMatches_unique.
Qed.

Lemma removeVersion_missing library version removeLibraryIfEmpty w r w' :
  getVersionId (toLowerCase library) (toLowerCase version) (db w) = None ->
  removeVersion library version removeLibraryIfEmpty w = (Returns r, w') ->
  r = mkRemoved 0 false false /\ db w' = db w.
Proof.
  intros Hnone H. apply rethrow_returns in H.
  apply bind_returns in H as (row & wa & Ha & H).
  apply query_returns in Ha as (-> & Hda & _). rewrite Hnone in H.
  apply mret_returns in H as [<- <-]. by rewrite Hda.
Qed.

(** The pages of the other library versions stay. *)
Lemma triple_removeVersion_pages library version removeLibraryIfEmpty d0 :
  let kept := fun d : Db =>
    libraries d ⊆ libraries d0 /\ versions d ⊆ versions d0
    /\ forall p, p ∈ pages d0 ->
          ~ pageMatches (toLowerCase library) (toLowerCase version) d0 p ->
          p ∈ pages d in
  triple (fun d => d = d0)
    (removeVersion library version removeLibraryIfEmpty)
    (fun _ => kept) (fun _ => True).
Proof.
  intros kept. unfold removeVersion. apply triple_rethrow.
  set (lib := toLowerCase library). set (ver := toLowerCase version).
  assert (Hpages : forall d, kept d ->
            kept (deletePagesStmt lib ver d).2).
  { intros d (Hl & Hv & Hp). split_and!; [done..|]. intros p Hin Hn. simpl.
    apply list_elem_of_filter. split; [|by apply Hp].
    intros Hm. apply Hn. revert Hm. by apply pageMatches_mono. }
  eapply triple_bind with (Q := fun _ => kept).
  { apply triple_query; [|done]. by intros d ->. }
  intros [[versionId libraryId]|]; [|by apply triple_ret].
  eapply triple_bind with (Q := fun _ => kept).
  { unfold deletePages. apply triple_rethrow.
    eapply triple_bind with (Q := fun _ => kept).
    { apply triple_exec; [|done]. by intros d (? & ? & ?). }
    intros ?. eapply triple_bind with (Q := fun _ => kept);
      [|intros ?; by apply triple_ret].
    apply triple_exec; [|done]. apply Hpages. }
  intros ?. eapply triple_bind with (Q := fun _ => kept).
  { apply triple_exec; [|done]. apply Hpages. }
  intros ?. eapply triple_bind with (Q := fun _ => kept).
  { apply triple_exec; [|done]. intros d (Hl & Hv & Hp).
    split_and!; [done| |done]. simpl. etrans; [apply filter_subseteq|done]. }
  intros changes. eapply triple_bind with (Q := fun _ => kept);
    [|intros ?; by apply triple_ret].
  destruct (removeLibraryIfEmpty && _); [|by apply triple_ret].
  eapply triple_bind with (Q := fun _ => kept); [by apply triple_query|].
  intros remaining. destruct (remaining =? 0); [|by apply triple_ret].
  eapply triple_bind with (Q := fun _ => kept);
    [|intros ?; by apply triple_ret].
  apply triple_exec; [|done]. intros d (Hl & Hv & Hp).
  split_and!; [|done..]. simpl. etrans; [apply filter_subseteq|done].
Qed.

Lemma filter_filter_ext {A} (P Q R : A -> Prop) `{!forall x, Decision (P x)}
    `{!forall x, Decision (Q x)} `{!forall x, Decision (R x)} (l : list A) :
  (forall x, x ∈ l -> (Q x /\ P x) <-> R x) ->
  filter P (filter Q l) = filter R l.
Proof.
  induction l as [|x l IH]; intros Hext; [done|].
  assert (Hx : (Q x /\ P x) <-> R x) by (apply Hext; by left).
  rewrite (filter_cons Q), (filter_cons R).
  destruct (decide (Q x)) as [HQ|HQ], (decide (R x)) as [HR|HR].
  - rewrite filter_cons_True by tauto. f_equal. apply IH.
    intros; apply Hext; by right.
  - rewrite filter_cons_False by tauto. apply IH.
    intros; apply Hext; by right.
  - tauto.
  - apply IH. intros; apply Hext; by right.
Qed.

(** [removeVersion] leaves the chunks of every other library version as
    they are, and when the library version does not exist it reports
    nothing deleted and changes nothing. *)
Theorem removeVersion_spares_other_versions
    (library version : string) (removeLibraryIfEmpty : bool) (w w' : World)
    (r : RemoveResult) :
  wellFormed (db w) ->
  removeVersion library version removeLibraryIfEmpty w = (Returns r, w') ->
  (forall library' version',
      (library', version') <> (toLowerCase library, toLowerCase version) ->
      filter (documentMatches library' version' (db w')) (documents (db w'))
      = filter (documentMatches library' version' (db w)) (documents (db w)))
  /\ (getVersionId (toLowerCase library) (toLowerCase version) (db w) = None ->
      r = mkRemoved 0 false false /\ db w' = db w).
Proof.
  intros Hw Hrun. split; [|intros Hnone; by eapply removeVersion_missing].
  intros library' version' Hother.
  set (lib := toLowerCase library) in *. set (ver := toLowerCase version) in *.
  destruct (getVersionId lib ver (db w)) as [[versionId libraryId]|] eqn:Hfound.
  2: { destruct (removeVersion_missing _ _ _ _ _ _ Hfound Hrun) as [_ ->]. done. }
  pose proof (triple_removeVersion_pages library version removeLibraryIfEmpty
                (db w) w eq_refl) as Hkept.
  rewrite Hrun in Hkept. destruct Hkept as (Hlibs & Hvers & Hpages).
  destruct (removeVersion_returns _ _ _ _ _ _ _ _ Hfound Hrun)
    as (tail & changes & deleted & _ & _ & _ & Hdocs & Hpsub & Hvs & Hls).
  fold lib ver in Hdocs, Hpsub, Hpages.
  rewrite Hdocs. apply filter_filter_ext. intros doc Hdoc. split.
  - intros [_ Hm]. revert Hm. apply documentMatches_mono; [done..|].
    etrans; [exact Hpsub|apply filter_subseteq].
  - intros Hm. split.
    { intros Hm'. apply Hother.
      destruct (documentMatches_unique _ _ _ _ _ _ Hw Hm Hm') as [-> ->]. done. }
    apply Exists_exists in Hm as (p & Hpin & Hpid & Hpm).
    apply Exists_exists. exists p. split_and!; [|done|].
    { apply Hpages; [done|]. intros Hpm'. apply Hother.
      destruct (pageMatches_unique _ _ _ _ _ _ Hw Hpm Hpm') as [-> ->]. done. }
    apply Exists_exists in Hpm as (v & Hvin & Hvid & Hvm).
    apply getVersionId_Some, Exists_exists in Hfound
      as (v0 & Hv0in & Hv0id & Hv0lib & Hv0m).
    assert (Hvne : ver_id v <> versionId).
    { intros Heq. assert (v = v0).
      { eapply (NoDup_fmap_inj ver_id); [apply Hw|done..|congruence]. }
      subst v0. apply Hother.
      destruct (versionMatches_unique _ _ _ _ _ _ Hw Hvm Hv0m) as [-> ->].
      done. }
    assert (Hvin' : v ∈ versions (db w')).
    { rewrite Hvs. by apply list_elem_of_filter. }
    apply Exists_exists. exists v. split_and!; [done..|].
    destruct Hvm as [Hl Hname]. split; [|done].
    apply Exists_exists in Hl as (l & Hlin & Hlid & Hlname).
    apply Exists_exists. exists l. split; [|done].
    destruct Hls as [(Hcond & -> & _)|(_ & -> & _)]; [|done].
    apply list_elem_of_filter. split; [|done]. intros Hlid'.
    apply andb_true_iff in Hcond as [_ Hcount%Nat.eqb_eq].
    unfold countVersionsByLibraryId in Hcount.
    apply (filter_length_0 (fun v => ver_library_id v = libraryId)) in Hcount.
    rewrite Forall_forall in Hcount. apply (Hcount v Hvin'). congruence.
Qed.

(** *** The embedding phase of addDocuments *)

Section Refusing.
Variable embedDocuments : list string -> Outcome (list Vector).
Variable schedule : list string -> Schedule.
Variable cause : Thrown.
Variables dbDimension embeddingBatchSize embeddingBatchChars : nat.

Hypothesis refuses : forall batch, embedDocuments batch = Throws cause.
Hypothesis notSize : isInputSizeError cause = false.

Lemma embedLogged_refuses batch w :
  batch <> [] ->
  embedLogged embedDocuments schedule batch w
  = (Throws cause, emit [Embedded batch] w).
Proof.
  intros Hne. unfold embedLogged, embedDocumentsWithRetry.
  destruct batch as [|text rest]; [done|].
  assert (Hretry : forall fuel,
             embedRetry embedDocuments schedule fuel (text :: rest)
             = (Throws cause, [text :: rest])).
  { intros [|fuel]; simpl; by rewrite refuses, notSize. }
  by rewrite Hretry.
Qed.

Lemma embedBatches_refuses texts :
  forall currentBatch currentBatchSize rawEmbeddings w,
    currentBatch ++ texts <> [] ->
    exists batch,
      embedBatches embedDocuments schedule embeddingBatchSize embeddingBatchChars
        texts currentBatch currentBatchSize rawEmbeddings w
      = (Throws cause, emit [Embedded batch] w).
Proof.
  induction texts as [|text rest IH];
    intros currentBatch currentBatchSize rawEmbeddings w Hne.
  - rewrite app_nil_r in Hne. cbn [embedBatches].
    destruct currentBatch as [|t b]; [done|]. simpl.
    exists (t :: b). unfold mbind, M_bind. by rewrite embedLogged_refuses.
  - cbn [embedBatches]. unfold mbind at 1, M_bind at 1.
    destruct (_ && _) eqn:Hflush.
    { apply andb_true_iff in Hflush as [_ Hpos%Nat.ltb_lt].
      exists currentBatch. unfold mbind, M_bind.
      rewrite embedLogged_refuses; [done|]. intros ->. simpl in Hpos. lia. }
    unfold mret at 1, M_ret at 1. cbn iota beta.
    unfold mbind at 1, M_bind at 1.
    destruct (embeddingBatchSize <=? _).
    { exists (currentBatch ++ [text]). unfold mbind, M_bind.
      rewrite embedLogged_refuses; [done|]. by destruct currentBatch. }
    unfold mret at 1, M_ret at 1. cbn iota beta.
    apply IH. by destruct currentBatch.
Qed.

(** With vector search enabled and a client that refuses every batch for
    a reason other than its size, an ingest of at least one chunk throws
    the [ConnectionError] around the client's error after a single
    request: no statement has run and the database is as it was. *)
Theorem addDocuments_embedding_failure
    (library version : string) (depth : nat) (result : ScrapeResult)
    (w : World) :
  chunks result <> [] ->
  exists batch,
    addDocuments true embedDocuments schedule dbDimension embeddingBatchSize
      embeddingBatchChars library version depth result w
    = (Throws (ConnectionError "Failed to add documents to store" cause),
       emit [Embedded batch] w).
Proof.
  intros Hchunks. unfold addDocuments, tryCatch.
  destruct (length (chunks result) =? 0) eqn:Hlen.
  { apply Nat.eqb_eq in Hlen. by destruct (chunks result). }
  destruct (embedBatches_refuses
              (embeddingText (title result) (url result) <$> chunks result)
              [] 0 [] w) as [batch Hbatch].
  { simpl. by destruct (chunks result). }
  exists batch. unfold mbind, M_bind. by rewrite Hbatch.
Qed.

End Refusing.

(** *** The vectors that are stored *)

Section Vectors.
Variable embedDocuments : list string -> Outcome (list Vector).
Variable schedule : list string -> Schedule.
Variables dbDimension embeddingBatchSize embeddingBatchChars : nat.

Hypothesis perText :
  forall batch vectors,
    embedDocuments batch = Returns vectors -> length vectors = length batch.

Lemma padVector_returns vector w padded w' :
  padVector dbDimension vector w = (Returns padded, w') ->
  length padded = dbDimension.
Proof.
  unfold padVector. destruct (dbDimension <? length vector) eqn:Hlong; [done|].
  apply Nat.ltb_ge in Hlong.
  destruct (length vector =? dbDimension) eqn:Hsame.
  - apply Nat.eqb_eq in Hsame. by intros [= <- _].
  - intros [= <- _]. rewrite length_app, length_replicate. lia.
Qed.

Lemma padAll_returns rawEmbeddings :
  forall w padded w',
    padAll dbDimension rawEmbeddings w = (Returns padded, w') ->
    length padded = length rawEmbeddings
    /\ Forall (fun vector => length vector = dbDimension) padded.
Proof.
  induction rawEmbeddings as [|vector rest IH]; intros w padded w' H.
  { apply mret_returns in H as [<- _]. by split. }
  cbn [padAll] in H.
  apply bind_returns in H as (first & wa & Ha & H).
  apply bind_returns in H as (others & wb & Hb & H).
  apply mret_returns in H as [<- _].
  apply padVector_returns in Ha. apply IH in Hb as [Hlen Hall].
  split; [simpl; by rewrite Hlen|by constructor].
Qed.

Lemma embedLogged_length batch w vectors w' :
  embedLogged embedDocuments schedule batch w = (Returns vectors, w') ->
  length vectors = length batch.
Proof.
  unfold embedLogged, embedDocumentsWithRetry.
  destruct (embedRetry _ _ _) as [outcome calls] eqn:Hretry.
  intros [= -> _]. by eapply embedRetry_length.
Qed.

Lemma embedBatches_length texts :
  forall currentBatch currentBatchSize rawEmbeddings w vectors w',
    embedBatches embedDocuments schedule embeddingBatchSize embeddingBatchChars
      texts currentBatch currentBatchSize rawEmbeddings w
    = (Returns vectors, w') ->
    length vectors
    = length rawEmbeddings + length currentBatch + length texts.
Proof.
  induction texts as [|text rest IH];
    intros currentBatch currentBatchSize rawEmbeddings w vectors w' H;
    cbn [embedBatches] in H.
  - destruct (0 <? length currentBatch) eqn:Hpos.
    + apply bind_returns in H as (batchEmbeddings & wa & Ha & H).
      apply mret_returns in H as [<- _]. apply embedLogged_length in Ha.
      rewrite length_app. simpl. lia.
    + apply mret_returns in H as [<- _]. apply Nat.ltb_ge in Hpos. simpl. lia.
  - apply bind_returns in H as ([[batch1 size1] raw1] & wa & Ha & H).
    assert (H1 : length raw1 + length batch1
                 = length rawEmbeddings + length currentBatch).
    { destruct (_ && _).
      - apply bind_returns in Ha as (batchEmbeddings & wx & Hx & Ha).
        apply mret_returns in Ha as [[= <- _ <-] _].
        apply embedLogged_length in Hx. rewrite length_app. simpl. lia.
      - by apply mret_returns in Ha as [[= <- _ <-] _]. }
    apply bind_returns in H as ([[batch2 size2] raw2] & wb & Hb & H).
    assert (H2 : length raw2 + length batch2 = length raw1 + length batch1 + 1).
    { destruct (_ <=? _).
      - apply bind_returns in Hb as (batchEmbeddings & wx & Hx & Hb).
        apply mret_returns in Hb as [[= <- _ <-] _].
        apply embedLogged_length in Hx. rewrite length_app in *. simpl in *. lia.
      - apply mret_returns in Hb as [[= <- _ <-] _]. rewrite length_app.
        simpl. lia. }
    apply IH in H. simpl. lia.
Qed.

Lemma insertChunks_embedded pageId (paddedEmbeddings : list Vector) chunks :
  Forall (fun vector => length vector = dbDimension) paddedEmbeddings ->
  forall i docIndex w w',
    docIndex + length chunks <= length paddedEmbeddings ->
    insertChunks true pageId paddedEmbeddings i docIndex chunks w
    = (Returns tt, w') ->
    embedded pageId dbDimension (db w) -> embedded pageId dbDimension (db w').
Proof.
  intros Hall. induction chunks as [|chunk rest IH];
    intros i docIndex w w' Hrange H Hw.
  { by apply mret_returns in H as [_ <-]. }
  cbn [insertChunks] in H. simpl in Hrange.
  apply bind_returns in H as (rowId & wa & Ha & H).
  apply exec_returns in Ha as (-> & Hda & _).
  apply bind_returns in H as ([] & wb & Hb & H).
  apply (IH (S i) (S docIndex) wb w' ltac:(lia) H). clear H IH.
  assert (Hpos : (0 <? length paddedEmbeddings) = true)
    by (apply Nat.ltb_lt; lia).
  rewrite Hpos in Hb. simpl in Hb.
  destruct (lookup_lt_is_Some_2 paddedEmbeddings docIndex ltac:(lia))
    as [embedding Hget].
  rewrite Hget in Hb.
  apply bind_returns in Hb as (n & wc & Hc & Hb).
  apply mret_returns in Hb as [_ <-].
  apply exec_returns in Hc as (_ & -> & _).
  rewrite Hda. simpl. unfold embedded in *. simpl.
  assert (Hlen : length embedding = dbDimension).
  { rewrite Forall_forall in Hall. by eapply Hall, list_elem_of_lookup_2. }
  rewrite fmap_app. apply Forall_app. split.
  - apply Forall_fmap. eapply Forall_impl; [exact Hw|]. intros doc Hdoc. simpl.
    case_bool_decide; [|done]. simpl. intros _. by exists embedding.
  - apply Forall_singleton. simpl. rewrite bool_decide_true by done. simpl.
    intros _. by exists embedding.
Qed.

(** With vector search enabled and a client that answers a batch it
    accepts with one vector per text, every chunk of the page carries,
    after an ingest that returned, a vector of exactly the database
    dimension. *)
Theorem addDocuments_stores_padded_vectors
    (library version : string) (depth : nat) (result : ScrapeResult)
    (w w' : World) :
  chunks result <> [] ->
  documentsHavePages (db w) ->
  addDocuments true embedDocuments schedule dbDimension embeddingBatchSize
    embeddingBatchChars library version depth result w = (Returns tt, w') ->
  pageChunks library version (url result) (db w') <> []
  /\ Forall (fun doc => exists vector,
                doc_embedding doc = Some vector
                /\ length vector = dbDimension)
       (pageChunks library version (url result) (db w')).
Proof.
  intros Hchunks Hfk Hrun.
  destruct (addDocuments_page_rows _ _ _ _ _ _ _ _ _ _ _ _ Hchunks Hfk Hrun)
    as (_ & pageId' & Hpc & Hrows & _).
  split.
  { rewrite Hpc. intros Hnil. rewrite Hnil in Hrows. simpl in Hrows.
    destruct (chunks result); [done|discriminate]. }
  destruct (addDocuments_returns _ _ _ _ _ _ _ _ _ _ _ _ Hchunks Hfk Hrun)
    as (libraryId & versionId' & pageId & Hlib & Hver & Hpage & _ & _).
  assert (Hpage' : pageChunks library version (url result) (db w')
                   = documentsOfPage pageId (db w')).
  { unfold pageChunks. by rewrite Hlib, Hver, Hpage. }
  rewrite Hpage'. clear Hpc Hrows pageId'.
  (* the run, step by step *)
  apply rethrow_returns in Hrun.
  destruct (length (chunks result) =? 0) eqn:Hlen.
  { apply Nat.eqb_eq in Hlen. by destruct (chunks result). }
  apply bind_returns in Hrun as (paddedEmbeddings & we & He & H).
  apply bind_returns in He as (rawEmbeddings & wr & Hr & He).
  assert (Hdbe : db we = db w).
  { apply (keepsDb_run _ _ _ _ (keepsDb_padAll _ _)) in He. rewrite He.
    by apply (keepsDb_run _ _ _ _ (keepsDb_embedBatches _ _ _ _ _ _ _ _)) in Hr. }
  apply embedBatches_length in Hr. apply padAll_returns in He as [Hplen Hpall].
  rewrite length_fmap in Hr. simpl in Hr.
  assert (Hppos : 0 + length (chunks result) <= length paddedEmbeddings).
  { rewrite Hplen, Hr. simpl. lia. }
  apply bind_returns in H as (versionId & w1 & H1 & H).
  apply resolveVersionId_returns in H1 as (Hp1 & Hd1 & libraryId1 & Hlib1 & Hver1).
  rewrite Hdbe in Hp1, Hd1.
  apply bind_returns in H as (existingPage & w2 & H2 & H).
  apply query_returns in H2 as (-> & Hdb2 & _).
  apply bind_returns in H as ([] & w3 & H3 & H).
  apply transaction_returns in H as (w4 & H & Hdb4).
  apply bind_returns in H as (n & w5 & H5 & H).
  apply exec_returns in H5 as (_ & Hdb5 & _).
  apply bind_returns in H as (existingPage' & w6 & H6 & H).
  apply query_returns in H6 as (-> & Hdb6 & _).
  destruct (getPageId versionId (url result) (db w5)) as [pid|] eqn:Hpid;
    [|done].
  pose proof (insertChunks_returns true _ _ _ _ _ _ _ H) as (Hl4 & Hv4 & Hp4 & _).
  simpl in Hdb5.
  destruct (insertPage_frame versionId (url result) (title result)
              (orNull (etag result)) (orNull (lastModified result))
              (orNull (contentType result)) (Some depth) (db w3))
    as (Hl5 & Hv5 & Hd5 & Hget5 & _).
  rewrite <- Hdb5 in Hl5, Hv5, Hd5, Hget5.
  rewrite Hget5 in Hpid. injection Hpid as Hpid.
  (* no chunk of the page is left when the transaction begins *)
  assert (Hw3 : libraries (db w3) = libraries (db w1)
                /\ versions (db w3) = versions (db w1)
                /\ Forall (fun doc => doc_page_id doc <> pid) (documents (db w3))).
  { destruct (getPageId versionId (url result) (db w1)) as [old|] eqn:Hexisting.
    - apply bind_returns in H3 as (k & wd & Hdel & H3).
      apply mret_returns in H3 as [_ <-].
      apply exec_returns in Hdel as (_ & Hdel & _).
      assert (Hsame : getPageId versionId (url result) (db wd) = Some old).
      { unfold getPageId in *. rewrite Hdel. simpl. by rewrite Hdb2. }
      rewrite Hsame in Hpid. simpl in Hpid. subst pid.
      rewrite Hdel. simpl. rewrite Hdb2. split_and!; try done.
      apply Forall_forall. by intros doc [? _]%list_elem_of_filter.
    - apply mret_returns in H3 as [_ <-].
      assert (Hnone : getPageId versionId (url result) (db w2) = None).
      { unfold getPageId in *. by rewrite Hdb2. }
      rewrite Hnone in Hpid. simpl in Hpid.
      rewrite Hdb2. split_and!; try done. rewrite Hd1.
      eapply Forall_impl; [exact Hfk|]. intros doc Hdoc Heq.
      apply Exists_exists in Hdoc as (p & Hp & Hid).
      assert (Hlt : (page_id p < nextRowid (page_id <$> pages (db w2)))%Z).
      { apply nextRowid_fresh, list_elem_of_fmap_2. by rewrite Hdb2, Hp1. }
      rewrite <- Hpid in Heq. rewrite Heq in Hid. lia. }
  destruct Hw3 as (Hl3 & Hv3 & Hnone3).
  (* the page the chunks went to is the page of the URL *)
  assert (pid = pageId).
  { assert (Hlid : libraryId1 = libraryId).
    { unfold getLibraryIdByName in *.
      rewrite Hdb4, Hl4, Hdb6, Hl5, Hl3, Hlib1 in Hlib. congruence. }
    subst libraryId1.
    assert (Hvid : versionId = versionId').
    { unfold resolveVersionIdStmt in *.
      rewrite Hdb4, Hv4, Hdb6, Hv5, Hv3, Hver1 in Hver. congruence. }
    subst versionId'.
    assert (Hsame : getPageId versionId (url result) (db w')
                    = getPageId versionId (url result) (db w5)).
    { unfold getPageId. by rewrite Hdb4, Hp4, Hdb6. }
    rewrite Hsame, Hget5, Hpid in Hpage. congruence. }
  subst pageId.
  assert (Hdone : embedded pid dbDimension (db w')).
  { rewrite Hdb4.
    apply (insertChunks_embedded _ _ _ Hpall _ _ _ _ Hppos H).
    unfold embedded. rewrite Hdb6, Hd5.
    eapply Forall_impl; [exact Hnone3|]. by intros doc Hne Heq. }
  unfold embedded in Hdone. unfold documentsOfPage.
  rewrite Forall_forall in *. intros doc [Hpg Hin]%list_elem_of_filter.
  by apply Hdone.
Qed.

End Vectors.

(** *** Examples *)

Lemma resolveVersionId_again_witness :
  let w := mkWorld exampleDb [] None in
  let w1 := (resolveVersionId "Lib" "2.0" w).2 in
  resolveVersionId "Lib" "2.0" w = (Returns 2%Z, w1)
  /\ (resolveVersionId "LIB" "2.0" w1).1 = Returns 2%Z
  /\ db (resolveVersionId "LIB" "2.0" w1).2 = db w1.
Proof.
  intros w w1.
  assert (Hfirst : resolveVersionId "Lib" "2.0" w = (Returns 2%Z, w1))
    by reflexivity.
  split; [exact Hfirst|].
  exact (resolveVersionId_again "Lib" "2.0" w w1 2 "LIB" "2.0" w1
           Hfirst eq_refl eq_refl eq_refl eq_refl).
Defined.

Lemma addDocuments_then_checkDocumentExists_witness :
  let w := mkWorld exampleDb [] None in
  let w' := (exampleAdd "Lib" "2.0" 0 (scrapeOf ["c"]) w).2 in
  chunks (scrapeOf ["c"]) <> []
  /\ documentsHavePages (db w)
  /\ exampleAdd "Lib" "2.0" 0 (scrapeOf ["c"]) w = (Returns tt, w')
  /\ (checkDocumentExists "Lib" "2.0" w').1 = Returns true.
Proof.
  intros w w'.
  assert (Hchunks : chunks (scrapeOf ["c"]) <> []) by discriminate.
  assert (Hfk : documentsHavePages (db w)) by apply exampleDb_wellFormed.
  assert (Hrun : exampleAdd "Lib" "2.0" 0 (scrapeOf ["c"]) w = (Returns tt, w'))
    by reflexivity.
  assert (Hfault : faultAfter w' <> Some 0) by discriminate.
  split; [exact Hchunks|]. split; [exact Hfk|]. split; [exact Hrun|].
  exact (addDocuments_then_checkDocumentExists false noClient inOrder 4 100 2000
           "Lib" "2.0" 0 (scrapeOf ["c"]) w w' w' Hchunks Hfk Hrun eq_refl
           Hfault).
Defined.

Lemma twoVersionsDb_wellFormed : wellFormed twoVersionsDb.
Proof.
  constructor; simpl;
    try (apply (bool_decide_unpack _); reflexivity);
    unfold documentsHavePages; simpl; repeat constructor;
    apply (bool_decide_unpack _); reflexivity.
Qed.

Lemma removeVersion_spares_other_versions_witness :
  let w := mkWorld twoVersionsDb [] None in
  let w' := (removeVersion "lib" "1.0" true w).2 in
  wellFormed (db w)
  /\ removeVersion "lib" "1.0" true w = (Returns (mkRemoved 1 true false), w')
  /\ doc_content
       <$> filter (documentMatches "lib" "2.0" (db w')) (documents (db w'))
     = ["b"]%string.
Proof.
  intros w w'.
  assert (Hrun : removeVersion "lib" "1.0" true w
                 = (Returns (mkRemoved 1 true false), w')) by reflexivity.
  assert (Hother : ("lib", "2.0")%string
                   <> (toLowerCase "lib", toLowerCase "1.0")) by discriminate.
  split; [exact twoVersionsDb_wellFormed|]. split; [exact Hrun|].
  rewrite (proj1 (removeVersion_spares_other_versions "lib" "1.0" true w w' _
                    twoVersionsDb_wellFormed Hrun) "lib" "2.0" Hother)%string.
  reflexivity.
Defined.

Lemma addDocuments_embedding_failure_witness :
  let w := mkWorld exampleDb [] None in
  (forall batch, noClient batch = Throws (JsError "no embedding client"))
  /\ isInputSizeError (JsError "no embedding client") = false
  /\ chunks (scrapeOf ["c"; "d"]) <> []
  /\ exists batch,
      addDocuments true noClient inOrder 4 100 2000 "lib" "1.0" 0
        (scrapeOf ["c"; "d"]) w
      = (Throws (ConnectionError "Failed to add documents to store"
                   (JsError "no embedding client")),
         emit [Embedded batch] w).
Proof.
  intros w.
  assert (Hclient : forall batch,
             noClient batch = Throws (JsError "no embedding client"))
    by reflexivity.
  assert (Hsize : isInputSizeError (JsError "no embedding client") = false)
    by reflexivity.
  assert (Hchunks : chunks (scrapeOf ["c"; "d"]) <> []) by discriminate.
  split; [exact Hclient|]. split; [exact Hsize|]. split; [exact Hchunks|].
  exact (addDocuments_embedding_failure noClient inOrder _ 4 100 2000 Hclient
           Hsize
           "lib" "1.0" 0 (scrapeOf ["c"; "d"]) w Hchunks).
Defined.

Lemma addDocuments_stores_padded_vectors_witness :
  let w := mkWorld exampleDb [] None in
  let add := addDocuments true (sizeLimitedClient 1000) inOrder 4 100 2000 in
  let w' := (add "lib" "1.0" 0 (scrapeOf ["c"; "d"]) w).2 in
  (forall batch vectors,
      sizeLimitedClient 1000 batch = Returns vectors ->
      length vectors = length batch)
  /\ chunks (scrapeOf ["c"; "d"]) <> []
  /\ documentsHavePages (db w)
  /\ add "lib" "1.0" 0 (scrapeOf ["c"; "d"]) w = (Returns tt, w')
  /\ Forall (fun doc => exists vector,
                doc_embedding doc = Some vector /\ length vector = 4)
       (pageChunks "lib" "1.0" exampleUrl (db w')).
Proof.
  intros w add w'.
  assert (Hchunks : chunks (scrapeOf ["c"; "d"]) <> []) by discriminate.
  assert (Hfk : documentsHavePages (db w)) by apply exampleDb_wellFormed.
  assert (Hrun : add "lib" "1.0" 0 (scrapeOf ["c"; "d"]) w = (Returns tt, w'))
    by (vm_compute; reflexivity).
  split; [exact (sizeLimitedClient_per_text 1000)|].
  split; [exact Hchunks|]. split; [exact Hfk|]. split; [exact Hrun|].
  exact (proj2 (addDocuments_stores_padded_vectors (sizeLimitedClient 1000)
                  inOrder 4 100 2000 (sizeLimitedClient_per_text 1000)
                  "lib" "1.0" 0 (scrapeOf ["c"; "d"]) w w' Hchunks Hfk Hrun)).
Defined.

End MethodFacts.


(** ** Looking chunks up *)

Module LookupFacts.
Import GreedySplitter Embeddings Store Rrf Schema Lookup.
Import Outcomes StoreFacts RrfFacts SchemaFacts MethodFacts.

(** *** ORDER BY *)

Lemma insertBy_ext {A} (cmp1 cmp2 : A -> A -> Q) x l :
  (forall a b, Qle_bool (cmp1 a b) 0 = Qle_bool (cmp2 a b) 0) ->
  insertBy cmp1 x l = insertBy cmp2 x l.
Proof.
  intros Hext. induction l as [|y l IH]; [done|]. simpl.
  rewrite Hext, IH. done.
Qed.

Lemma sortBy_ext {A} (cmp1 cmp2 : A -> A -> Q) l :
  (forall a b, Qle_bool (cmp1 a b) 0 = Qle_bool (cmp2 a b) 0) ->
  sortBy cmp1 l = sortBy cmp2 l.
Proof.
  intros Hext. induction l as [|x l IH]; [done|]. simpl.
  by rewrite IH, (insertBy_ext cmp1 cmp2).
Qed.

Lemma StronglySorted_mono {A} (R R' : A -> A -> Prop) (l : list A) :
  (forall a b, R a b -> R' a b) -> StronglySorted R l -> StronglySorted R' l.
Proof.
  intros HR. induction 1 as [|x l Hl IH Hx]; constructor; [done|].
  eapply Forall_impl; [exact Hx|]. apply HR.
Qed.

Lemma sortKey_le a b : (sortKey a <= sortKey b)%Q <-> pc_sort_order a <= pc_sort_order b.
Proof. unfold sortKey. rewrite <- Zle_Qle. lia. Qed.

Lemma bySortOrderDesc_perm l : sortBy bySortOrderDesc l ≡ₚ l.
Proof. apply (sortBy_perm sortKey). Qed.

Lemma bySortOrderDesc_sorted l : StronglySorted falling (sortBy bySortOrderDesc l).
Proof.
  eapply StronglySorted_mono; [|apply (sortBy_sorted sortKey)].
  intros a b. unfold Rrf.descending, falling. apply sortKey_le.
Qed.

Lemma bySortOrder_as_descending l :
  sortBy bySortOrder l
  = sortBy (fun a b => (- sortKey b - - sortKey a)%Q) l.
Proof.
  apply sortBy_ext. intros a b. unfold bySortOrder.
  destruct (Qle_bool (sortKey a - sortKey b) 0) eqn:H1;
    destruct (Qle_bool (- sortKey b - - sortKey a) 0) eqn:H2; try done.
  - apply Qle_bool_iff in H1.
    assert (Qle_bool (- sortKey b - - sortKey a) 0 = true); [|congruence].
    apply Qle_bool_iff. lra.
  - apply Qle_bool_iff in H2.
    assert (Qle_bool (sortKey a - sortKey b) 0 = true); [|congruence].
    apply Qle_bool_iff. lra.
Qed.

Lemma bySortOrder_perm l : sortBy bySortOrder l ≡ₚ l.
Proof.
  rewrite bySortOrder_as_descending.
  apply (sortBy_perm (fun c => (- sortKey c)%Q)).
Qed.




(** *** Running a lookup *)

Lemma statement_ok {A} (run : Db -> A * Db) w :
  faultAfter w = None ->
  statement run w
  = (Returns (run (db w)).1, mkWorld (run (db w)).2 (log w) None).
Proof. unfold statement. intros ->. by destruct (run (db w)). Qed.

Lemma select_ok {A} (get : Db -> A) w :
  faultAfter w = None -> select get w = (Returns (get (db w)), w).
Proof.
  intros Hw. unfold select. rewrite statement_ok by done. simpl.
  destruct w; simpl in *. by subst.
Qed.

Lemma getById_ok rowid w :
  faultAfter w = None ->
  getById (Some rowid) w = (Returns (getByIdStmt rowid (db w)), w).
Proof.
  intros Hw. unfold getById, tryCatch, bigInt, mbind, M_bind, mret, M_ret.
  by rewrite select_ok.
Qed.

(** *** The reference chunk *)

Lemma elem_of_chunksOf library version d c :
  c ∈ chunksOf library version d
  <-> exists doc p, doc ∈ documents d /\ p ∈ pages d
                    /\ page_id p = doc_page_id doc
                    /\ pageMatches library version d p
                    /\ c = selected doc p.
Proof.
  unfold chunksOf. rewrite list_elem_of_bind. split.
  - intros (doc & Hc & Hdoc). apply list_elem_of_bind in Hc as (p & Hc & Hp).
    apply list_elem_of_singleton in Hc.
    apply list_elem_of_filter in Hp as [[? ?] ?]. by exists doc, p.
  - intros (doc & p & Hdoc & Hp & Hid & Hm & ->). exists doc. split; [|done].
    apply list_elem_of_bind. exists p. split; [by apply list_elem_of_singleton|].
    by apply list_elem_of_filter.
Qed.

Lemma getByIdStmt_Some rowid d reference :
  getByIdStmt rowid d = Some reference ->
  exists doc p, doc ∈ documents d /\ p ∈ pages d /\ doc_id doc = rowid
                /\ page_id p = doc_page_id doc /\ reference = selected doc p.
Proof.
  unfold getByIdStmt. intros Hin%head_Some_elem_of.
  apply list_elem_of_bind in Hin as (doc & Hin & [Hid Hdoc]%list_elem_of_filter).
  apply list_elem_of_bind in Hin as (p & Hin & [Hpid Hp]%list_elem_of_filter).
  apply list_elem_of_singleton in Hin. by exists doc, p.
Qed.

Lemma sortOrderOf_reference rowid d reference :
  wellFormed d ->
  getByIdStmt rowid d = Some reference ->
  sortOrderOf rowid d = Some (pc_sort_order reference).
Proof.
  intros Hd (doc & p & Hdoc & _ & Hid & _ & ->)%getByIdStmt_Some.
  unfold sortOrderOf.
  destruct (findFirst _ _) as [doc'|] eqn:Hfind.
  - apply findFirst_Some in Hfind as [Hid' Hin]. simpl. do 2 f_equal.
    eapply (NoDup_fmap_inj doc_id); [apply Hd|done..|congruence].
  - apply findFirst_None in Hfind. rewrite Forall_forall in Hfind.
    by destruct (Hfind doc Hdoc).
Qed.

(** *** Siblings *)




(** *** The parent *)

Lemma settles_statement {A} (run : Db -> A * Db) : settles (statement run).
Proof.
  intros w. unfold statement.
  by destruct (faultAfter w) as [[|n]|]; destruct (run (db w)).
Qed.

Lemma settles_getById id : settles (getById id).
Proof.
  apply settles_rethrow. apply settles_bind; [by destruct id|]. intros rowid.
  apply settles_bind; [apply settles_statement|done].
Qed.

Lemma swallow_returns {A} (body : M (option A)) w :
  settles body ->
  exists r, (tryCatch body (fun error => mret None) w).1 = Returns r.
Proof.
  intros Hbody. unfold tryCatch. specialize (Hbody w).
  destruct (body w) as [[r|e|] w1]; simpl in *; [by eexists|by eexists|done].
Qed.

Lemma findParentChunk_ok library version rowid w :
  faultAfter w = None ->
  findParentChunk library version (Some rowid) w
  = (Returns
       match getByIdStmt rowid (db w) with
       | None => None
       | Some child =>
           if length (dropLast (md_path (pc_metadata child))) =? 0 then None
           else getParentChunk (toLowerCase library) (toLowerCase version)
                  (pc_url child) (dropLast (md_path (pc_metadata child)))
                  rowid (db w)
       end, w).
Proof.
  intros Hw. unfold findParentChunk, tryCatch, mbind, M_bind.
  rewrite getById_ok by done.
  destruct (getByIdStmt rowid (db w)) as [child|]; [|done].
  destruct (length _ =? 0); [done|].
  unfold bigInt, mret, M_ret. by rewrite select_ok.
Qed.

(** [findParentChunk] never throws: whatever the id and whatever the
    engine does, it returns a chunk or null.  For a chunk that exists it
    returns null when the path of the chunk has at most one element, and
    otherwise the nearest chunk before it, on its page and in the library
    version, whose path is the path of the chunk without its last
    element; null when there is none. *)
Theorem findParentChunk_never_throws
    (library version : string) (id : option Z) (w : World) :
  (exists parent, (findParentChunk library version id w).1 = Returns parent)
  /\ forall rowid child,
       id = Some rowid -> wellFormed (db w) -> faultAfter w = None ->
       getByIdStmt rowid (db w) = Some child ->
       let parentPath := dropLast (md_path (pc_metadata child)) in
       let candidate := fun c =>
         c ∈ chunksOf (toLowerCase library) (toLowerCase version) (db w)
         /\ pc_url c = pc_url child
         /\ md_path (pc_metadata c) = parentPath
         /\ pc_sort_order c < pc_sort_order child in
       exists parent,
         findParentChunk library version id w = (Returns parent, w)
         /\ match parent with
            | Some p =>
                1 < length (md_path (pc_metadata child)) /\ candidate p
                /\ forall c, candidate c -> pc_sort_order c <= pc_sort_order p
            | None =>
                length (md_path (pc_metadata child)) <= 1
                \/ forall c, ~ candidate c
            end.
Proof.
  split.
  - assert (Hbody : settles
      (child ← getById id;
       match child with
       | None => mret None
       | Some child =>
           if length (dropLast (md_path (pc_metadata child))) =? 0
           then mret None
           else
             rowid ← bigInt id;
             result ← select (getParentChunk (toLowerCase library)
                                (toLowerCase version) (pc_url child)
                                (dropLast (md_path (pc_metadata child))) rowid);
             mret result
       end)).
    { apply settles_bind; [apply settles_getById|]. intros [child|]; [|done].
      destruct (length _ =? 0); [done|].
      apply settles_bind; [by destruct id|]. intros rowid.
      apply settles_bind; [apply settles_statement|done]. }
    by apply swallow_returns.
  - intros rowid child -> Hd Hw Hchild parentPath candidate.
    rewrite findParentChunk_ok, Hchild by done. fold parentPath.
    eexists. split; [done|].
    assert (Hlen : length parentPath = length (md_path (pc_metadata child)) - 1).
    { unfold parentPath, dropLast. rewrite length_take. lia. }
    destruct (length parentPath =? 0) eqn:Hzero.
    { apply Nat.eqb_eq in Hzero. left. lia. }
    apply Nat.eqb_neq in Hzero.
    unfold getParentChunk. rewrite (sortOrderOf_reference _ _ _ Hd Hchild).
    set (all := filter _ (chunksOf _ _ (db w))).
    assert (Hall : forall c, c ∈ sortBy bySortOrderDesc all <-> candidate c).
    { intros c. rewrite bySortOrderDesc_perm. unfold all, candidate.
      rewrite list_elem_of_filter. tauto. }
    pose proof (bySortOrderDesc_sorted all) as Hsorted.
    destruct (sortBy bySortOrderDesc all) as [|p rest]; simpl.
    + right. intros c Hc%Hall. by apply elem_of_nil in Hc.
    + split; [lia|]. split; [apply Hall; by left|].
      intros c [->|Hc]%Hall%elem_of_cons; [done|].
      apply StronglySorted_inv in Hsorted as [_ Hp].
      rewrite Forall_forall in Hp. by apply Hp.
Qed.

(** *** Ingest and then read the page *)

Lemma sortBy_sorted_id l :
  StronglySorted rising l -> sortBy bySortOrder l = l.
Proof.
  induction 1 as [|x l Hl IH Hx]; [done|]. simpl. rewrite IH.
  destruct l as [|y l']; [done|]. simpl.
  apply Forall_cons in Hx as [Hxy _].
  assert (H : Qle_bool (bySortOrder x y) 0 = true); [|by rewrite H].
  apply Qle_bool_iff. unfold bySortOrder. apply sortKey_le in Hxy. lra.
Qed.

Lemma filter_key_NoDup {A} (f : A -> Z) (l : list A) x :
  NoDup (f <$> l) -> x ∈ l -> filter (fun y => f y = f x) l = [x].
Proof.
  induction l as [|y l IH]; [by intros _ ?%elem_of_nil|].
  rewrite fmap_cons, NoDup_cons. intros [Hy Hl] [->|Hx]%elem_of_cons.
  - rewrite filter_cons_True by done. f_equal.
    apply filter_none, Forall_forall. intros z Hz Heq. apply Hy.
    rewrite <- Heq. apply list_elem_of_fmap. by exists z.
  - rewrite filter_cons_False; [by apply IH|]. intros Heq. apply Hy.
    rewrite Heq. apply list_elem_of_fmap. by exists x.
Qed.

Lemma pageMatches_of_lookups library version d libraryId versionId p :
  getLibraryIdByName library d = Some libraryId ->
  resolveVersionIdStmt libraryId version d = Some versionId ->
  p ∈ pages d -> page_version_id p = versionId ->
  pageMatches library version d p.
Proof.
  intros Hl%getLibraryIdByName_Some Hv%resolveVersionIdStmt_Some Hp Hpv.
  apply Exists_exists in Hl as (l & Hlin & Hlid & Hname).
  apply Exists_exists in Hv as (v & Hvin & Hvid & Hvlib & Hvname).
  apply Exists_exists. exists v. split; [done|]. split; [congruence|]. split.
  - apply Exists_exists. exists l. split; [done|]. split; [congruence|done].
  - by rewrite Hvname.
Qed.

(** Under the constraints the page of a URL in a library version is the
    one the lookups find. *)
Lemma pageMatches_the_page library version url d libraryId versionId pageId p :
  wellFormed d ->
  getLibraryIdByName library d = Some libraryId ->
  resolveVersionIdStmt libraryId version d = Some versionId ->
  getPageId versionId url d = Some pageId ->
  p ∈ pages d -> pageMatches library version d p -> page_url p = url ->
  page_id p = pageId.
Proof.
  intros Hd Hl%getLibraryIdByName_Some Hv%resolveVersionIdStmt_Some
         Hp%getPageId_Some Hin Hm Hurl.
  apply Exists_exists in Hl as (l & Hlin & Hlid & Hname).
  apply Exists_exists in Hv as (v & Hvin & Hvid & Hvlib & Hvname).
  apply Exists_exists in Hp as (p0 & Hp0in & Hp0id & Hp0ver & Hp0url).
  apply Exists_exists in Hm as (v' & Hv'in & Hv'id & Hl' & Hname').
  apply Exists_exists in Hl' as (l' & Hl'in & Hl'id & Hl'name).
  assert (l' = l).
  { eapply (NoDup_fmap_inj lib_name); [apply Hd|done..|congruence]. }
  subst l'.
  assert (v' = v).
  { eapply (NoDup_fmap_inj (fun v => (ver_library_id v, ver_name v)));
      [apply Hd|done..|]. simpl. f_equal; [congruence|].
    pose proof (version_named _ Hd) as Hnamed. rewrite Forall_forall in Hnamed.
    destruct (Hnamed v' Hv'in) as [n Hn]. rewrite Hn in Hname' |- *.
    simpl in Hname'. congruence. }
  subst v'.
  assert (p = p0); [|congruence].
  eapply (NoDup_fmap_inj (fun p => (page_version_id p, page_url p)));
    [apply Hd|done..|]. simpl. f_equal; congruence.
Qed.

Lemma chunksByUrl_page library version url d libraryId versionId pageId :
  wellFormed d ->
  getLibraryIdByName library d = Some libraryId ->
  resolveVersionIdStmt libraryId version d = Some versionId ->
  getPageId versionId url d = Some pageId ->
  chunkView <$> filter (fun c => pc_url c = url) (chunksOf library version d)
  = rowView <$> documentsOfPage pageId d.
Proof.
  intros Hd Hl Hv Hp.
  pose proof (getPageId_Some _ _ _ _ Hp) as HP.
  apply Exists_exists in HP as (p0 & Hp0in & Hp0id & Hp0ver & Hp0url).
  assert (Hp0m : pageMatches library version d p0)
    by by eapply pageMatches_of_lookups.
  unfold chunksOf, documentsOfPage.
  induction (documents d) as [|doc docs IH]; [done|].
  rewrite bind_cons, filter_app, fmap_app, IH, filter_cons. clear IH.
  set (wanted := fun p => page_id p = doc_page_id doc
                          /\ pageMatches library version d p).
  assert (Hone : chunkView
                   <$> filter (fun c => pc_url c = url)
                         (p ← filter wanted (pages d); [selected doc p])
                 = if decide (doc_page_id doc = pageId) then [rowView doc]
                   else []).
  { assert (Hmap : (p ← filter wanted (pages d); [selected doc p])
                   = selected doc <$> filter wanted (pages d)).
    { induction (filter wanted (pages d)) as [|p ps IHp]; [done|].
      rewrite bind_cons, IHp. done. }
    rewrite Hmap. clear Hmap.
    destruct (decide (doc_page_id doc = pageId)) as [Hdoc|Hdoc].
    - assert (Hfilter : filter wanted (pages d) = [p0]).
      { rewrite <- (filter_key_NoDup page_id (pages d) p0 (page_ids _ Hd) Hp0in).
        apply TokenFacts.filter_ext_in. intros p Hin. unfold wanted. split.
        - intros [Hid _]. congruence.
        - intros Hid. split; [congruence|].
          assert (p = p0) as ->; [|done].
          eapply (NoDup_fmap_inj page_id); [apply Hd|done..]. }
      rewrite Hfilter. simpl. rewrite filter_cons_True by done. done.
    - assert (Hnone : filter (fun c => pc_url c = url)
                        (selected doc <$> filter wanted (pages d)) = []).
      { apply filter_none, Forall_forall.
        intros c (p & -> & [[Hid Hm] Hin]%list_elem_of_filter)%list_elem_of_fmap.
        simpl. intros Hurl. apply Hdoc. rewrite <- Hid.
        by eapply pageMatches_the_page. }
      by rewrite Hnone. }
  rewrite Hone. destruct (decide (doc_page_id doc = pageId)); by simpl.
Qed.

Lemma findChunksByUrl_ok library version url w :
  faultAfter w = None ->
  findChunksByUrl library version url w
  = (Returns (chunksByUrl (toLowerCase library) (toLowerCase version) url (db w)),
     w).
Proof.
  intros Hw. unfold findChunksByUrl, tryCatch, mbind, M_bind, mret, M_ret.
  by rewrite select_ok.
Qed.

Lemma rising_of_sort_orders (l : list DbPageChunk) n :
  pc_sort_order <$> l = seq 0 n -> StronglySorted rising l.
Proof.
  generalize 0%nat. revert n.
  induction l as [|c l IH]; intros n a Hl; [constructor|].
  destruct n as [|n]; [done|]. simpl in Hl. injection Hl as Hc Hl.
  constructor; [by eapply IH|].
  apply Forall_forall. intros c' Hc'. unfold rising.
  assert (Hin : pc_sort_order c' ∈ seq (S a) n).
  { rewrite <- Hl. apply list_elem_of_fmap. by exists c'. }
  apply elem_of_seq in Hin. lia.
Qed.

Section Ingest.
Variable isVectorSearchEnabled : bool.
Variable embedDocuments : list string -> Outcome (list Vector).
Variable schedule : list string -> Schedule.
Variables dbDimension embeddingBatchSize embeddingBatchChars : nat.

Local Abbreviation addDocuments :=
  (Store.addDocuments isVectorSearchEnabled embedDocuments schedule dbDimension
     embeddingBatchSize embeddingBatchChars).

(** After an ingest of at least one chunk has returned on a database
    that satisfies the constraints of the schema, [findChunksByUrl] for
    the library version and URL of the ingest returns exactly the chunks
    of the ingest, in input order, each with its content, metadata and
    index. *)
Theorem addDocuments_then_findChunksByUrl
    (library version : string) (depth : nat) (result : ScrapeResult)
    (w w' w2 : World) :
  chunks result <> [] ->
  wellFormed (db w) ->
  addDocuments library version depth result w = (Returns tt, w') ->
  db w2 = db w' -> faultAfter w2 = None ->
  exists rows,
    findChunksByUrl library version (Store.url result) w2 = (Returns rows, w2)
    /\ chunkView <$> rows = expectedRows (chunks result).
Proof.
  intros Hchunks Hw Hrun Hdb Hfault.
  pose proof (document_page _ Hw) as Hfk.
  assert (Hw' : wellFormed (db w')).
  { pose proof (triple_addDocuments isVectorSearchEnabled embedDocuments schedule
                  dbDimension embeddingBatchSize embeddingBatchChars
                  library version depth result w Hw) as H.
    by rewrite Hrun in H. }
  destruct (addDocuments_returns _ _ _ _ _ _ _ _ _ _ _ _ Hchunks Hfk Hrun)
    as (libraryId & versionId & pageId & Hlib & Hver & Hpage & _ & _).
  destruct (addDocuments_page_rows _ _ _ _ _ _ _ _ _ _ _ _ Hchunks Hfk Hrun)
    as (_ & pageId' & Hpc & Hrows & _).
  unfold pageChunks in Hpc. rewrite Hlib, Hver, Hpage in Hpc.
  rewrite <- Hpc in Hrows. clear Hpc pageId'.
  eexists. split; [by apply findChunksByUrl_ok|].
  rewrite Hdb. unfold chunksByUrl.
  set (found := filter _ _).
  assert (Hfound : chunkView <$> found = expectedRows (chunks result)).
  { rewrite <- Hrows. subst found.
    by eapply chunksByUrl_page. }
  rewrite sortBy_sorted_id; [done|].
  apply (rising_of_sort_orders _ (length (chunks result))).
  rewrite <- expectedRows_sort_order, <- Hfound, <- list_fmap_compose. done.
Qed.

End Ingest.

(** *** deletePage *)

Lemma triple_statement {A} (P : Db -> Prop) (run : Db -> A * Db)
    (Q : A -> Db -> Prop) (R : Db -> Prop) :
  (forall d, P d -> Q (run d).1 (run d).2) -> (forall d, P d -> R d) ->
  triple P (statement run) Q R.
Proof.
  intros HQ HR w HP. unfold statement. specialize (HQ _ HP).
  specialize (HR _ HP).
  destruct (faultAfter w) as [[|n]|]; [done|..];
    by destruct (run (db w)) as [a d].
Qed.

Lemma deletePageStmt_wf pageId d :
  wellFormed d ->
  Forall (fun doc => doc_page_id doc <> pageId) (documents d) ->
  wellFormed (deletePageStmt pageId d).2.
Proof.
  intros [] Hnone. constructor; simpl; try done.
  - by apply NoDup_filter_fmap.
  - by apply NoDup_filter_fmap.
  - by apply Forall_filter_keep.
  - unfold documentsHavePages in *. simpl.
    rewrite Forall_forall in *. intros doc Hdoc.
    specialize (document_page0 doc Hdoc). specialize (Hnone doc Hdoc).
    apply Exists_exists in document_page0 as (p & Hp & Hid).
    apply Exists_exists. exists p. split; [|done].
    apply list_elem_of_filter. split; [congruence|done].
Qed.

Lemma triple_deletePage pageId :
  triple wellFormed (deletePage pageId) (fun _ => wellFormed) wellFormed.
Proof.
  unfold deletePage. apply triple_rethrow.
  set (emptied := fun d : Db => wellFormed d
    /\ Forall (fun doc => doc_page_id doc <> pageId) (documents d)).
  eapply triple_bind with (Q := fun _ => emptied).
  { apply triple_exec; [|done]. intros d Hd. split.
    - by apply deleteDocumentsByPageId_wf.
    - simpl. apply Forall_forall. by intros doc [? _]%list_elem_of_filter. }
  intros docResult. eapply triple_bind with (Q := fun _ => wellFormed).
  { apply triple_statement; [|by intros d [? _]].
    intros d [Hd Hnone]. by apply deletePageStmt_wf. }
  intros pageResult. by apply triple_ret.
Qed.

(** Whether it returns or throws, also between its two statements,
    [deletePage] leaves the constraints of the schema in force. *)
Theorem deletePage_keeps_constraints (pageId : Z) (w : World) :
  wellFormed (db w) -> wellFormed (db (deletePage pageId w).2).
Proof.
  intros Hw. pose proof (triple_deletePage pageId w Hw) as H.
  by destruct (deletePage pageId w) as [[[]|e|] w'].
Qed.

Lemma deletePage_returns pageId w w' :
  deletePage pageId w = (Returns tt, w') ->
  libraries (db w') = libraries (db w)
  /\ versions (db w') = versions (db w)
  /\ pages (db w') = filter (fun p => page_id p <> pageId) (pages (db w))
  /\ documents (db w')
     = filter (fun doc => doc_page_id doc <> pageId) (documents (db w)).
Proof.
  intros H. apply rethrow_returns in H.
  apply bind_returns in H as (docResult & w1 & H1 & H).
  apply bind_returns in H as (pageResult & w2 & H2 & H).
  apply mret_returns in H as [_ <-].
  unfold exec in H1. unfold statement in H2.
  destruct (faultAfter w) as [[|n]|]; [done|..];
    injection H1 as _ <-; simpl in H2.
  - destruct n; [done|]. by injection H2 as _ <-.
  - by injection H2 as _ <-.
Qed.

Lemma chunksOf_deletePage library version pageId d d' :
  libraries d' = libraries d -> versions d' = versions d ->
  pages d' = filter (fun p => page_id p <> pageId) (pages d) ->
  documents d' = filter (fun doc => doc_page_id doc <> pageId) (documents d) ->
  chunksOf library version d'
  = filter (fun c => pc_page_id c <> pageId) (chunksOf library version d).
Proof.
  intros Hl Hv Hp Hdocs. unfold chunksOf. rewrite Hdocs, Hp. clear Hdocs.
  assert (Hm : forall p, pageMatches library version d' p
                         <-> pageMatches library version d p).
  { intros p. unfold pageMatches, versionMatches. by rewrite Hl, Hv. }
  induction (documents d) as [|doc docs IH]; [done|].
  rewrite bind_cons, filter_app, <- IH, filter_cons. clear IH.
  assert (Hrows : forall (ps : list PageRow),
             (p ← ps; [selected doc p]) = selected doc <$> ps).
  { induction ps as [|p ps' IHp]; [done|]. by rewrite bind_cons, IHp. }
  rewrite Hrows.
  destruct (decide (doc_page_id doc <> pageId)) as [Hdoc|Hdoc].
  - rewrite bind_cons, Hrows. f_equal.
    rewrite (filter_all (fun c => pc_page_id c <> pageId)).
    + f_equal. rewrite list_filter_filter. apply TokenFacts.filter_ext_in.
      intros p _. rewrite Hm. split; [tauto|]. intros [Hid ?].
      split; [done|congruence].
    + apply Forall_fmap, Forall_forall. by intros p _.
  - rewrite (filter_none (fun c => pc_page_id c <> pageId)); [done|].
    apply Forall_fmap, Forall_forall. by intros p _.
Qed.

(** After [deletePage] has returned, [findChunksByUrl] finds, for every
    library version and URL, the chunks it found before except those of
    the deleted page. *)
Theorem deletePage_then_findChunksByUrl
    (pageId : Z) (library version url : string) (w w' w1 w2 : World) :
  deletePage pageId w = (Returns tt, w') ->
  db w1 = db w -> faultAfter w1 = None ->
  db w2 = db w' -> faultAfter w2 = None ->
  exists before after,
    findChunksByUrl library version url w1 = (Returns before, w1)
    /\ findChunksByUrl library version url w2 = (Returns after, w2)
    /\ after ≡ₚ filter (fun c => pc_page_id c <> pageId) before.
Proof.
  intros Hrun Hdb1 Hw1 Hdb2 Hw2.
  apply deletePage_returns in Hrun as (Hl & Hv & Hp & Hdocs).
  eexists _, _. split; [by apply findChunksByUrl_ok|].
  split; [by apply findChunksByUrl_ok|].
  rewrite Hdb1, Hdb2. unfold chunksByUrl.
  rewrite !bySortOrder_perm.
  rewrite (chunksOf_deletePage _ _ pageId (db w) (db w')) by done.
  rewrite !list_filter_filter. apply reflexive_eq.
  apply TokenFacts.filter_ext_in. tauto.
Qed.

(** *** Examples *)

Lemma guideDb_wellFormed : wellFormed guideDb.
Proof.
  constructor; simpl;
    try (apply (bool_decide_unpack _); reflexivity);
    unfold documentsHavePages; simpl; repeat constructor;
    apply (bool_decide_unpack _); reflexivity.
Qed.


Lemma findParentChunk_never_throws_witness :
  let w := mkWorld guideDb [] None in
  wellFormed (db w) /\ faultAfter w = None
  /\ exists child parent,
       getByIdStmt 3 (db w) = Some child
       /\ findParentChunk "Lib" "1.0" (Some 3%Z) w = (Returns (Some parent), w)
       /\ pc_id parent = 1%Z
       /\ md_path (pc_metadata parent) = dropLast (md_path (pc_metadata child)).
Proof.
  intros w. split; [exact guideDb_wellFormed|]. split; [reflexivity|].
  destruct (getByIdStmt 3 (db w)) as [child|] eqn:Href;
    [|vm_compute in Href; discriminate Href].
  destruct (proj2 (findParentChunk_never_throws "Lib" "1.0" (Some 3%Z) w)
              3%Z child eq_refl guideDb_wellFormed eq_refl Href)
    as (parent & Hrun & Hparent).
  assert (Hfound : exists p, findParentChunk "Lib" "1.0" (Some 3%Z) w
                             = (Returns (Some p), w) /\ pc_id p = 1%Z)
    by (eexists; split; vm_compute; reflexivity).
  destruct Hfound as (p & Hp & Hid). rewrite Hp in Hrun.
  injection Hrun as <-. destruct Hparent as (_ & (_ & _ & Hpath & _) & _).
  exists child, p. split; [reflexivity|]. split; [exact Hp|].
  split; [exact Hid|exact Hpath].
Defined.

Lemma addDocuments_then_findChunksByUrl_witness :
  let w := mkWorld guideDb [] None in
  let result := scrapeOf ["x"; "y"] in
  let w' := (exampleAdd "Lib" "1.0" 0 result w).2 in
  chunks result <> [] /\ wellFormed (db w)
  /\ exampleAdd "Lib" "1.0" 0 result w = (Returns tt, w')
  /\ faultAfter w' = None
  /\ exists rows,
       findChunksByUrl "Lib" "1.0" (Store.url result) w' = (Returns rows, w')
       /\ pc_content <$> rows = ["x"; "y"]%string.
Proof.
  intros w result w'.
  assert (Hchunks : chunks result <> []) by discriminate.
  assert (Hrun : exampleAdd "Lib" "1.0" 0 result w = (Returns tt, w'))
    by reflexivity.
  split; [exact Hchunks|]. split; [exact guideDb_wellFormed|].
  split; [exact Hrun|]. split; [reflexivity|].
  destruct (addDocuments_then_findChunksByUrl false noClient inOrder 4 100 2000
              "Lib" "1.0" 0 result w w' w' Hchunks guideDb_wellFormed Hrun
              eq_refl eq_refl) as (rows & Hrows & Hview).
  exists rows. split; [exact Hrows|].
  apply (f_equal (fmap (fun v : string * DbChunkMetadata * nat => v.1.1)))
    in Hview.
  rewrite <- list_fmap_compose in Hview. exact Hview.
Defined.

Lemma deletePage_keeps_constraints_witness :
  let w := mkWorld guideDb [] (Some 1) in
  wellFormed (db w)
  /\ (exists e, (deletePage 1 w).1 = Throws e)
  /\ wellFormed (db (deletePage 1 w).2).
Proof.
  intros w. split; [exact guideDb_wellFormed|].
  split; [eexists; reflexivity|].
  exact (deletePage_keeps_constraints 1 w guideDb_wellFormed).
Defined.

Lemma deletePage_then_findChunksByUrl_witness :
  let w := mkWorld guideDb [] None in
  let w' := (deletePage 1 w).2 in
  deletePage 1 w = (Returns tt, w') /\ faultAfter w' = None
  /\ exists before after,
       findChunksByUrl "Lib" "1.0" exampleUrl w = (Returns before, w)
       /\ findChunksByUrl "Lib" "1.0" exampleUrl w' = (Returns after, w')
       /\ after ≡ₚ filter (fun c => pc_page_id c <> 1%Z) before.
Proof.
  intros w w'.
  assert (Hrun : deletePage 1 w = (Returns tt, w')) by reflexivity.
  split; [exact Hrun|]. split; [reflexivity|].
  exact (deletePage_then_findChunksByUrl 1 "Lib" "1.0" exampleUrl w w' w w'
           Hrun eq_refl eq_refl eq_refl eq_refl).
Defined.

End LookupFacts.
